(** * ERP ledger subsystem: a shallow embedding of the Django code

    Sources embedded here:
    - [apps/ledger/models.py]      (LedgerEntry, its unique constraint, clean)
    - [apps/ledger/services.py]    (LedgerService)
    - [apps/payments/models.py]    (Payment, PaymentAllocation, clean)
    - [apps/payments/views.py]     (PaymentCreateView.form_valid)
    - [apps/invoices/models.py], [apps/customers/models.py], [apps/core/models.py]

    Conventions.
    - A [Decimal] with two decimal places is an integer number of
      hundredths ([Z]); [+], [-], [min] and comparisons are exact on it.
    - A [DateField] is the day ordinal, a [DateTimeField] a number of
      microseconds; both are [Z].
    - A database table is the list of its rows in insertion order; an
      [order_by] is a stable sort of that list, [.first()] is its head.
    - Code that runs inside [transaction.atomic] is a function of the database
      in a state-and-exception monad; [atomic] restores the database when the
      body raises. *)

From Stdlib Require Import ZArith List Bool Arith Lia String Permutation.
From Stdlib Require Import Sorting.Sorted.
Import ListNotations.
Local Open Scope Z_scope.

Set Implicit Arguments.

(** ** Basic types *)

Definition Decimal := Z.
Definition Date := Z.
Definition DateTime := Z.

(** [LedgerEntry.PARTY_TYPE_CHOICES] *)
Inductive PartyType : Type :=
| customer
| supplier.

(** [LedgerEntry.ENTRY_TYPE_CHOICES] *)
Inductive EntryType : Type :=
| invoice
| payment
| purchase
| adjustment.

(** The rows of [django_content_type] that the ledger refers to: the model
    class of a reference object. *)
Inductive ContentType : Type :=
| InvoiceModel
| PaymentModel
| OtherModel (n : nat).

(** [Invoice.STATUS_CHOICES] *)
Inductive InvoiceStatus : Type :=
| draft
| sent
| paid
| cancelled.

(** [Payment.PAYMENT_METHOD_CHOICES] *)
Inductive PaymentMethod : Type :=
| cash
| bank
| cheque.

Inductive Exception : Type :=
| IntegrityError (constraint : string)
| ValidationError (message : string).

Definition PartyType_eqb (a b : PartyType) : bool :=
  match a, b with
  | customer, customer | supplier, supplier => true
  | _, _ => false
  end.

Definition EntryType_eqb (a b : EntryType) : bool :=
  match a, b with
  | invoice, invoice | payment, payment
  | purchase, purchase | adjustment, adjustment => true
  | _, _ => false
  end.

Definition ContentType_eqb (a b : ContentType) : bool :=
  match a, b with
  | InvoiceModel, InvoiceModel | PaymentModel, PaymentModel => true
  | OtherModel n, OtherModel m => Nat.eqb n m
  | _, _ => false
  end.

Definition InvoiceStatus_eqb (a b : InvoiceStatus) : bool :=
  match a, b with
  | draft, draft | sent, sent | paid, paid | cancelled, cancelled => true
  | _, _ => false
  end.

(** ** Query-set primitives *)

Section QuerySet.
Context {A : Type}.

(** [qs.first()] *)
Definition first (qs : list A) : option A :=
  match qs with
  | [] => None
  | x :: _ => Some x
  end.

Variable leb : A -> A -> bool.

Fixpoint insert_ordered (x : A) (qs : list A) : list A :=
  match qs with
  | [] => [x]
  | y :: qs' => if leb x y then x :: qs else y :: insert_ordered x qs'
  end.

(** [qs.order_by(...)]: a stable insertion sort, rows that compare equal
    keep their table order. *)
Definition order_by (qs : list A) : list A :=
  fold_right insert_ordered [] qs.
End QuerySet.

(** [aggregate(total=Sum(f))['total'] or Decimal('0.00')] *)
Definition Sum {A : Type} (f : A -> Decimal) (qs : list A) : Decimal :=
  fold_right (fun x acc => f x + acc) 0 qs.

(** ** Models *)

Module LedgerEntry.
Record t : Type := mk {
  id : nat;
  company : nat;
  party_type : PartyType;
  party_id : nat;
  entry_type : EntryType;
  debit : Decimal;
  credit : Decimal;
  running_balance : Decimal;
  reference_type : option ContentType;
  reference_id : option nat;
  description : string;
  transaction_date : Date;
  created_at : DateTime
}.

(** [entry.running_balance = v] on an in-memory row *)
Definition set_running_balance (e : t) (v : Decimal) : t :=
  mk (id e) (company e) (party_type e) (party_id e) (entry_type e)
     (debit e) (credit e) v (reference_type e) (reference_id e)
     (description e) (transaction_date e) (created_at e).

(** [LedgerEntry.clean]: the debit-xor-credit rule of the model. *)
Definition clean (e : t) : Exception + unit :=
  if (0 <? debit e) && (0 <? credit e) then
    inl (ValidationError "Entry cannot have both debit and credit. Use separate entries.")
  else if (debit e =? 0) && (credit e =? 0) then
    inl (ValidationError "Entry must have either debit or credit amount.")
  else inr tt.

(** The field validators [MinValueValidator(Decimal('0.00'))] of [debit]
    and [credit]; Django runs them from [full_clean] only. *)
Definition run_validators (e : t) : Exception + unit :=
  if (debit e <? 0) || (credit e <? 0) then
    inl (ValidationError "Ensure this value is greater than or equal to 0.00.")
  else inr tt.

(** [Meta.ordering = ['transaction_date', 'created_at']] *)
Definition key_leb (a b : t) : bool :=
  (transaction_date a <? transaction_date b)
  || ((transaction_date a =? transaction_date b)
      && (created_at a <=? created_at b)).

(** [order_by('-transaction_date', '-created_at')] *)
Definition key_geb (a b : t) : bool := key_leb b a.
End LedgerEntry.

Module Customer.
Record t : Type := mk {
  id : nat;
  company : nat;
  name : string;
  is_deleted : bool
}.
End Customer.

Module Invoice.
Record t : Type := mk {
  id : nat;
  company : nat;
  invoice_number : string;
  customer : nat;
  date : Date;
  status : InvoiceStatus;
  total_amount : Decimal;
  is_deleted : bool
}.

Definition set_status (i : t) (s : InvoiceStatus) : t :=
  mk (id i) (company i) (invoice_number i) (customer i) (date i) s
     (total_amount i) (is_deleted i).
End Invoice.

Module Payment.
Record t : Type := mk {
  id : nat;
  company : nat;
  customer : nat;
  payment_number : string;
  payment_date : Date;
  amount : Decimal;
  payment_method : PaymentMethod;
  is_deleted : bool
}.

(** [get_payment_method_display] *)
Definition get_payment_method_display (p : t) : string :=
  match payment_method p with
  | cash => "Cash"
  | bank => "Bank Transfer"
  | cheque => "Cheque"
  end.
End Payment.

Module PaymentAllocation.
Record t : Type := mk {
  id : nat;
  payment : nat;
  invoice : nat;
  amount : Decimal
}.
End PaymentAllocation.

(** ** The database *)

Record DB : Type := mkDB {
  ledger_entries : list LedgerEntry.t;
  ledger_seq : nat;
  customers : list Customer.t;
  invoices : list Invoice.t;
  payments : list Payment.t;
  payment_seq : nat;
  allocations : list PaymentAllocation.t;
  allocation_seq : nat
}.

Definition set_ledger (db : DB) (rows : list LedgerEntry.t) (seq : nat) : DB :=
  mkDB rows seq (customers db) (invoices db) (payments db) (payment_seq db)
       (allocations db) (allocation_seq db).

Definition set_invoices (db : DB) (rows : list Invoice.t) : DB :=
  mkDB (ledger_entries db) (ledger_seq db) (customers db) rows (payments db)
       (payment_seq db) (allocations db) (allocation_seq db).

Definition set_payments (db : DB) (rows : list Payment.t) (seq : nat) : DB :=
  mkDB (ledger_entries db) (ledger_seq db) (customers db) (invoices db) rows
       seq (allocations db) (allocation_seq db).

Definition set_allocations (db : DB) (rows : list PaymentAllocation.t)
    (seq : nat) : DB :=
  mkDB (ledger_entries db) (ledger_seq db) (customers db) (invoices db)
       (payments db) (payment_seq db) rows seq.

(** ** Transactions: state and exceptions *)

Definition M (A : Type) : Type := DB -> (Exception + A) * DB.

Definition ret {A : Type} (a : A) : M A := fun db => (inr a, db).

Definition raise {A : Type} (e : Exception) : M A := fun db => (inl e, db).

Definition bind {A B : Type} (m : M A) (k : A -> M B) : M B :=
  fun db =>
    match m db with
    | (inl e, db') => (inl e, db')
    | (inr a, db') => k a db'
    end.

Definition get_db : M DB := fun db => (inr db, db).

Definition put_db (db' : DB) : M unit := fun _ => (inr tt, db').

(** [with transaction.atomic(): body] and [@transaction.atomic]: when the
    body raises, every write it made is rolled back and the exception
    propagates. *)
Definition atomic {A : Type} (body : M A) : M A :=
  fun db =>
    match body db with
    | (inl e, _) => (inl e, db)
    | (inr a, db') => (inr a, db')
    end.

Declare Scope txn_scope.
Delimit Scope txn_scope with txn.
Notation "x <- m ;; k" := (bind m (fun x => k))
  (at level 61, m at next level, right associativity) : txn_scope.
Notation "m ;;; k" := (bind m (fun _ => k))
  (at level 61, right associativity) : txn_scope.

(** ** [LedgerEntry.objects] *)

(** A model instance handed over as [reference_object]: its class and its
    primary key. *)
Record ModelInstance : Type := mkInstance {
  model_class : ContentType;
  pk : nat
}.

Definition option_nat_eqb (a b : option nat) : bool :=
  match a, b with
  | Some x, Some y => Nat.eqb x y
  | _, _ => false
  end.

(** [Meta.constraints]: [UniqueConstraint(fields=['reference_type',
    'reference_id', 'entry_type'], condition=Q(reference_type__isnull=False))].
    A row takes part in the partial unique index only when its
    [reference_type] is not NULL, and a NULL [reference_id] equals nothing. *)
Definition same_reference_entry (r e : LedgerEntry.t) : bool :=
  match LedgerEntry.reference_type r, LedgerEntry.reference_type e with
  | Some ct, Some ct' =>
      ContentType_eqb ct ct'
      && option_nat_eqb (LedgerEntry.reference_id r) (LedgerEntry.reference_id e)
      && EntryType_eqb (LedgerEntry.entry_type r) (LedgerEntry.entry_type e)
  | _, _ => false
  end.

Definition violates_unique_reference_entry (rows : list LedgerEntry.t)
    (e : LedgerEntry.t) : bool :=
  existsb (fun r => same_reference_entry r e) rows.

(** [LedgerEntry.objects.create(...)]: the row gets the next primary
    key and [created_at = now] ([auto_now_add]); the INSERT fails on the
    unique constraint. [Model.save] runs neither [clean] nor the field
    validators. *)
Definition LedgerEntry_objects_create
    (company : nat) (party_type : PartyType) (party_id : nat)
    (entry_type : EntryType) (debit credit running_balance : Decimal)
    (transaction_date : Date) (description : string)
    (reference_type : option ContentType) (reference_id : option nat)
    (now : DateTime) : M LedgerEntry.t :=
  fun db =>
    let entry :=
      LedgerEntry.mk (ledger_seq db) company party_type party_id entry_type
        debit credit running_balance reference_type reference_id
        description transaction_date now in
    if violates_unique_reference_entry (ledger_entries db) entry
    then (inl (IntegrityError "unique_reference_entry"), db)
    else (inr entry,
          set_ledger db (ledger_entries db ++ [entry]) (S (ledger_seq db))).

(** [entry.save(update_fields=['running_balance'])]:
    [UPDATE ... SET running_balance = v WHERE id = entry.id]. *)
Definition LedgerEntry_save_running_balance (entry : LedgerEntry.t) : M unit :=
  fun db =>
    (inr tt,
     set_ledger db
       (map (fun r =>
               if Nat.eqb (LedgerEntry.id r) (LedgerEntry.id entry)
               then LedgerEntry.set_running_balance r
                      (LedgerEntry.running_balance entry)
               else r)
            (ledger_entries db))
       (ledger_seq db)).

(** [Customer.objects.get(id=..., company=...)] through
    [CompanyScopedManager], which hides soft-deleted rows; [None] stands for
    [Customer.DoesNotExist]. [id] is the primary key, so at most one row
    matches. *)
Definition Customer_objects_get (id company : nat) (db : DB)
    : option Customer.t :=
  find (fun c => negb (Customer.is_deleted c)
                 && Nat.eqb (Customer.id c) id
                 && Nat.eqb (Customer.company c) company)
       (customers db).

(** ** [LedgerService] *)

Module LedgerService.

(** [filter(company=company, party_type=party_type, party_id=party_id)] *)
Definition party_filter (company : nat) (party_type : PartyType)
    (party_id : nat) (e : LedgerEntry.t) : bool :=
  Nat.eqb (LedgerEntry.company e) company
  && PartyType_eqb (LedgerEntry.party_type e) party_type
  && Nat.eqb (LedgerEntry.party_id e) party_id.

(** Lines 41-45 of [_create_entry]: the party's last entry,
    [order_by('-transaction_date', '-created_at').first()]. *)
Definition select_last_entry (company : nat) (party_type : PartyType)
    (party_id : nat) (rows : list LedgerEntry.t) : option LedgerEntry.t :=
  first (order_by LedgerEntry.key_geb
           (filter (party_filter company party_type party_id) rows)).

(** Lines 47-73 of [_create_entry]: the balance from the entry read before,
    the reference columns, and the INSERT. *)
Definition insert_after (last_entry : option LedgerEntry.t)
    (company : nat) (party_type : PartyType) (party_id : nat)
    (entry_type : EntryType) (debit credit : Decimal)
    (transaction_date : Date) (description : string)
    (reference_object : option ModelInstance) (now : DateTime)
    : M LedgerEntry.t :=
  let previous_balance :=
    match last_entry with
    | Some e => LedgerEntry.running_balance e
    | None => 0
    end in
  let running_balance := previous_balance + debit - credit in
  let reference_type :=
    match reference_object with
    | Some o => Some (model_class o)
    | None => None
    end in
  let reference_id :=
    match reference_object with
    | Some o => Some (pk o)
    | None => None
    end in
  LedgerEntry_objects_create company party_type party_id entry_type
    debit credit running_balance transaction_date description
    reference_type reference_id now.

Definition _create_entry (company : nat) (party_type : PartyType)
    (party_id : nat) (entry_type : EntryType) (debit credit : Decimal)
    (transaction_date : Date) (description : string)
    (reference_object : option ModelInstance) (now : DateTime)
    : M LedgerEntry.t :=
  atomic
    (db <- get_db ;;
     insert_after
       (select_last_entry company party_type party_id (ledger_entries db))
       company party_type party_id entry_type debit credit
       transaction_date description reference_object now)%txn.

(** [description or default] *)
Definition or_default (description default : string) : string :=
  match description with
  | EmptyString => default
  | _ => description
  end.

Definition create_customer_invoice_entry (company : nat)
    (customer_ : Customer.t) (invoice_ : Invoice.t) (now : DateTime)
    : M LedgerEntry.t :=
  _create_entry company customer (Customer.id customer_) invoice
    (Invoice.total_amount invoice_) 0 (Invoice.date invoice_)
    ("Invoice " ++ Invoice.invoice_number invoice_)
    (Some (mkInstance InvoiceModel (Invoice.id invoice_))) now.

Definition create_customer_payment_entry (company : nat)
    (customer_ : Customer.t) (amount : Decimal) (payment_date : Date)
    (description : string) (reference_object : option ModelInstance)
    (now : DateTime) : M LedgerEntry.t :=
  _create_entry company customer (Customer.id customer_) payment
    0 amount payment_date
    (or_default description
       ("Payment received from " ++ Customer.name customer_))
    reference_object now.

(** The repository has no Supplier model; a supplier is what the callers
    pass: an object with an [id] and a [name]. *)
Record Supplier : Type := mkSupplier {
  supplier_id : nat;
  supplier_name : string
}.

Definition create_supplier_purchase_entry (company : nat)
    (supplier_ : Supplier) (amount : Decimal) (purchase_date : Date)
    (description : string) (reference_object : option ModelInstance)
    (now : DateTime) : M LedgerEntry.t :=
  _create_entry company supplier (supplier_id supplier_) purchase
    0 amount purchase_date
    (or_default description ("Purchase from " ++ supplier_name supplier_))
    reference_object now.

Definition create_supplier_payment_entry (company : nat)
    (supplier_ : Supplier) (amount : Decimal) (payment_date : Date)
    (description : string) (reference_object : option ModelInstance)
    (now : DateTime) : M LedgerEntry.t :=
  _create_entry company supplier (supplier_id supplier_) payment
    amount 0 payment_date
    (or_default description ("Payment to " ++ supplier_name supplier_))
    reference_object now.

Definition create_adjustment_entry (company : nat) (party_type : PartyType)
    (party_id : nat) (amount : Decimal) (is_debit : bool)
    (adjustment_date : Date) (description : string) (now : DateTime)
    : M LedgerEntry.t :=
  let debit := if is_debit then amount else 0 in
  let credit := if is_debit then 0 else amount in
  _create_entry company party_type party_id adjustment debit credit
    adjustment_date description None now.

Definition get_customer_outstanding (company customer_id : nat) (db : DB)
    : Decimal :=
  let last_entry :=
    first (order_by LedgerEntry.key_geb
             (filter (party_filter company customer customer_id)
                     (ledger_entries db))) in
  match last_entry with
  | Some e => LedgerEntry.running_balance e
  | None => 0
  end.

Definition get_supplier_payable (company supplier_id : nat) (db : DB)
    : Decimal :=
  let last_entry :=
    first (order_by LedgerEntry.key_geb
             (filter (party_filter company supplier supplier_id)
                     (ledger_entries db))) in
  match last_entry with
  | Some e => LedgerEntry.running_balance e
  | None => 0
  end.

(** [Max(field)] over the rows of one group; NULL for no row. *)
Definition Max (f : LedgerEntry.t -> Z) (group : list LedgerEntry.t)
    : option Z :=
  match group with
  | [] => None
  | e :: rest => Some (fold_left (fun m x => Z.max m (f x)) rest (f e))
  end.

(** One row of [values('party_id').annotate(latest_date=..., latest_created=...)] *)
Record EntryInfo : Type := mkEntryInfo {
  info_party_id : nat;
  latest_date : option Date;
  latest_created : option DateTime
}.

(** [filter(company, party_type).values('party_id').annotate(Max, Max)]:
    one row per distinct [party_id], each maximum taken on its own (the
    model's [Meta.ordering] takes no part in the grouping). *)
Definition latest_entries (company : nat) (party_type : PartyType)
    (rows : list LedgerEntry.t) : list EntryInfo :=
  let qs :=
    filter (fun e => Nat.eqb (LedgerEntry.company e) company
                     && PartyType_eqb (LedgerEntry.party_type e) party_type)
           rows in
  map (fun party_id =>
         let group :=
           filter (fun e => Nat.eqb (LedgerEntry.party_id e) party_id) qs in
         mkEntryInfo party_id
           (Max LedgerEntry.transaction_date group)
           (Max LedgerEntry.created_at group))
      (nodup Nat.eq_dec (map LedgerEntry.party_id qs)).

Definition option_Z_eqb (v : Z) (o : option Z) : bool :=
  match o with
  | Some w => v =? w
  | None => false
  end.

(** The inner query of the two listing functions:
    [filter(company, party_type, party_id, transaction_date=latest_date,
    created_at=latest_created).first()], in the model's default ordering. *)
Definition entry_at_latest (company : nat) (party_type : PartyType)
    (entry_info : EntryInfo) (rows : list LedgerEntry.t)
    : option LedgerEntry.t :=
  first (order_by LedgerEntry.key_leb
           (filter (fun e =>
                      party_filter company party_type
                        (info_party_id entry_info) e
                      && option_Z_eqb (LedgerEntry.transaction_date e)
                           (latest_date entry_info)
                      && option_Z_eqb (LedgerEntry.created_at e)
                           (latest_created entry_info))
                   rows)).

(** One dictionary of the list [get_all_outstanding_customers] returns. *)
Record OutstandingCustomer : Type := mkOutstanding {
  customer_id : nat;
  customer_name : string;
  balance : Decimal
}.

(** The body of the [for entry_info in latest_entries] loop: what it
    appends to [results]. *)
Definition outstanding_row (company : nat) (db : DB) (entry_info : EntryInfo)
    : list OutstandingCustomer :=
  match entry_at_latest company customer entry_info (ledger_entries db) with
  | Some last_entry =>
      if 0 <? LedgerEntry.running_balance last_entry then
        match Customer_objects_get (info_party_id entry_info) company db with
        | Some customer_ =>
            [mkOutstanding (Customer.id customer_) (Customer.name customer_)
               (LedgerEntry.running_balance last_entry)]
        | None => []
        end
      else []
  | None => []
  end.

(** [sorted(results, key=lambda x: x['balance'], reverse=True)] *)
Definition balance_geb (a b : OutstandingCustomer) : bool :=
  balance b <=? balance a.

Definition get_all_outstanding_customers (company : nat) (db : DB)
    : list OutstandingCustomer :=
  let results :=
    flat_map (outstanding_row company db)
      (latest_entries company customer (ledger_entries db)) in
  order_by balance_geb results.

(** One dictionary of the list [get_all_payable_suppliers] returns. *)
Record PayableSupplier : Type := mkPayable {
  payable_supplier_id : nat;
  payable_balance : Decimal
}.

Definition payable_row (company : nat) (db : DB) (entry_info : EntryInfo)
    : list PayableSupplier :=
  match entry_at_latest company supplier entry_info (ledger_entries db) with
  | Some last_entry =>
      if LedgerEntry.running_balance last_entry <? 0 then
        [mkPayable (info_party_id entry_info)
           (Z.abs (LedgerEntry.running_balance last_entry))]
      else []
  | None => []
  end.

Definition get_all_payable_suppliers (company : nat) (db : DB)
    : list PayableSupplier :=
  let results :=
    flat_map (payable_row company db)
      (latest_entries company supplier (ledger_entries db)) in
  order_by (fun a b => payable_balance b <=? payable_balance a) results.

(** The [for entry in entries] loop of [recalculate_party_balance]; the
    entries are the rows as the query returned them. *)
Fixpoint recalculate_loop (entries : list LedgerEntry.t)
    (running_balance : Decimal) : M Decimal :=
  match entries with
  | [] => ret running_balance
  | entry :: rest =>
      let running_balance :=
        running_balance + LedgerEntry.debit entry - LedgerEntry.credit entry in
      ((if LedgerEntry.running_balance entry =? running_balance
        then ret tt
        else LedgerEntry_save_running_balance
               (LedgerEntry.set_running_balance entry running_balance)) ;;;
       recalculate_loop rest running_balance)%txn
  end.

Definition recalculate_party_balance (company : nat) (party_type : PartyType)
    (party_id : nat) : M Decimal :=
  atomic
    (db <- get_db ;;
     let entries :=
       order_by LedgerEntry.key_leb
         (filter (party_filter company party_type party_id)
                 (ledger_entries db)) in
     recalculate_loop entries 0)%txn.

End LedgerService.

(** ** [apps/payments]: models *)

(** [Payment.allocated_amount] *)
Definition allocated_amount (p : Payment.t) (db : DB) : Decimal :=
  Sum PaymentAllocation.amount
    (filter (fun a => Nat.eqb (PaymentAllocation.payment a) (Payment.id p))
            (allocations db)).


(** [invoice.payment_allocations.aggregate(total=Sum('amount'))['total']
    or Decimal('0.00')] *)
Definition invoice_paid_total (invoice_id : nat) (db : DB) : Decimal :=
  Sum PaymentAllocation.amount
    (filter (fun a => Nat.eqb (PaymentAllocation.invoice a) invoice_id)
            (allocations db)).

(** [.exclude(pk=self.pk)]; an instance that was never saved has no [pk]
    and excludes nothing. *)
Definition exclude_pk (self_pk : option nat) (a : PaymentAllocation.t)
    : bool :=
  match self_pk with
  | Some k => negb (Nat.eqb (PaymentAllocation.id a) k)
  | None => true
  end.

(** [PaymentAllocation.clean], for an instance that links [payment_] to
    [invoice_] with [amount]. The messages leave out the amounts the source
    formats into them. *)
Definition PaymentAllocation_clean (self_pk : option nat)
    (payment_ : Payment.t) (invoice_ : Invoice.t) (amount : Decimal)
    (db : DB) : Exception + unit :=
  if negb (Nat.eqb (Payment.customer payment_) (Invoice.customer invoice_))
  then inl (ValidationError
              "Payment and invoice must belong to the same customer")
  else if negb (Nat.eqb (Payment.company payment_) (Invoice.company invoice_))
  then inl (ValidationError
              "Payment and invoice must belong to the same company")
  else
    let existing_allocations :=
      filter (exclude_pk self_pk)
        (filter (fun a => Nat.eqb (PaymentAllocation.payment a)
                            (Payment.id payment_))
                (allocations db)) in
    let total_allocated := Sum PaymentAllocation.amount existing_allocations in
    if Payment.amount payment_ <? total_allocated + amount
    then inl (ValidationError "Total allocations cannot exceed payment amount")
    else
      let invoice_paid :=
        Sum PaymentAllocation.amount
          (filter (exclude_pk self_pk)
             (filter (fun a => Nat.eqb (PaymentAllocation.invoice a)
                                 (Invoice.id invoice_))
                     (allocations db))) in
      let invoice_outstanding := Invoice.total_amount invoice_ - invoice_paid in
      if invoice_outstanding <? amount
      then inl (ValidationError
                  "Allocation amount cannot exceed invoice outstanding")
      else inr tt.

(** [PaymentAllocation.objects.create(payment=..., invoice=..., amount=...)]:
    an INSERT under [unique_payment_invoice_allocation]; [clean] and the
    field validators are not run by [create]. *)
Definition PaymentAllocation_objects_create (payment_ : Payment.t)
    (invoice_ : Invoice.t) (amount : Decimal) : M PaymentAllocation.t :=
  fun db =>
    let row :=
      PaymentAllocation.mk (allocation_seq db) (Payment.id payment_)
        (Invoice.id invoice_) amount in
    if existsb (fun a => Nat.eqb (PaymentAllocation.payment a)
                           (Payment.id payment_)
                         && Nat.eqb (PaymentAllocation.invoice a)
                              (Invoice.id invoice_))
               (allocations db)
    then (inl (IntegrityError "unique_payment_invoice_allocation"), db)
    else (inr row,
          set_allocations db (allocations db ++ [row]) (S (allocation_seq db))).

(** [Payment.save()] of a new instance: an INSERT with the next primary key;
    [payment_number] is [unique]. The number itself ([PAY-<today>-<seq>]) is
    computed by [save] from the clock and is an input here. *)
Definition Payment_save (company customer_id : nat) (payment_number : string)
    (payment_date : Date) (amount : Decimal) (payment_method : PaymentMethod)
    : M Payment.t :=
  fun db =>
    let row :=
      Payment.mk (payment_seq db) company customer_id payment_number
        payment_date amount payment_method false in
    if existsb (fun p => String.eqb (Payment.payment_number p) payment_number)
               (payments db)
    then (inl (IntegrityError "payment_number"), db)
    else (inr row, set_payments db (payments db ++ [row]) (S (payment_seq db))).

(** [Invoice.objects.get(id=..., company=..., customer=...)] through
    [CompanyScopedManager]; [None] stands for [Invoice.DoesNotExist]. *)
Definition Invoice_objects_get (id company customer_id : nat) (db : DB)
    : option Invoice.t :=
  find (fun i => negb (Invoice.is_deleted i)
                 && Nat.eqb (Invoice.id i) id
                 && Nat.eqb (Invoice.company i) company
                 && Nat.eqb (Invoice.customer i) customer_id)
       (invoices db).

(** [invoice.save()]: an UPDATE of the row with that primary key. The
    receivers of [apps/invoices/signals.py] are disabled, a save has no
    other effect. *)
Definition Invoice_save (invoice_ : Invoice.t) : M unit :=
  fun db =>
    (inr tt,
     set_invoices db
       (map (fun i => if Nat.eqb (Invoice.id i) (Invoice.id invoice_)
                      then invoice_ else i)
            (invoices db))).

(** ** [PaymentCreateView.form_valid] *)

Module PaymentCreateView.

(** [form.cleaned_data] and the part of [request.POST] the view reads.
    [manual] holds, in POST order, the items whose key is
    [allocation_<invoice_id>] with a non-empty value: the parsed
    [invoice_id] and [Decimal(value)]. An item whose key does not parse
    raises [ValueError] and is skipped by the view's [except] clause. *)
Record Form : Type := mkForm {
  form_customer : Customer.t;
  form_invoice : option Invoice.t;
  form_payment_date : Date;
  form_amount : Decimal;
  form_payment_method : PaymentMethod;
  manual : list (nat * Decimal)
}.

(** The local variables [allocations_made] and [total_allocated]. *)
Record Locals : Type := mkLocals {
  allocations_made : bool;
  total_allocated : Decimal
}.

(** Lines 60-79: the invoice selected in the form. *)
Definition allocate_selected (self_object : Payment.t)
    (selected_invoice : option Invoice.t) (l : Locals) : M Locals :=
  match selected_invoice with
  | Some inv =>
      (db <- get_db ;;
       let paid_ := invoice_paid_total (Invoice.id inv) db in
       let outstanding := Invoice.total_amount inv - paid_ in
       if 0 <? outstanding then
         let to_allocate := Z.min (Payment.amount self_object) outstanding in
         (_ <- PaymentAllocation_objects_create self_object inv to_allocate ;;
          ret (mkLocals true (total_allocated l + to_allocate)))
       else ret l)%txn
  | None => ret l
  end.

Definition is_selected (selected_invoice : option Invoice.t)
    (invoice_id : nat) : bool :=
  match selected_invoice with
  | Some inv => Nat.eqb invoice_id (Invoice.id inv)
  | None => false
  end.

(** Lines 82-110: the manual inputs [allocation_<invoice_id>]. *)
Fixpoint allocate_manual (company : nat) (self_object : Payment.t)
    (selected_invoice : option Invoice.t) (items : list (nat * Decimal))
    (l : Locals) : M Locals :=
  match items with
  | [] => ret l
  | (invoice_id, amount) :: rest =>
      if is_selected selected_invoice invoice_id then
        allocate_manual company self_object selected_invoice rest l
      else if 0 <? amount then
        (db <- get_db ;;
         match Invoice_objects_get invoice_id company
                 (Payment.customer self_object) db with
         | Some inv =>
             (_ <- PaymentAllocation_objects_create self_object inv amount ;;
              allocate_manual company self_object selected_invoice rest
                (mkLocals true (total_allocated l + amount)))
         | None =>
             allocate_manual company self_object selected_invoice rest l
         end)%txn
      else allocate_manual company self_object selected_invoice rest l
  end.

(** The query of line 115: [status__in=['sent', 'partial']]; no invoice
    has status 'partial', it is not among [STATUS_CHOICES]. *)
Definition unpaid_invoices (self_object : Payment.t) (db : DB)
    : list Invoice.t :=
  order_by (fun a b => Invoice.date a <=? Invoice.date b)
    (filter (fun i => negb (Invoice.is_deleted i)
                      && Nat.eqb (Invoice.company i) (Payment.company self_object)
                      && Nat.eqb (Invoice.customer i)
                           (Payment.customer self_object)
                      && InvoiceStatus_eqb (Invoice.status i) sent)
            (invoices db)).

(** Lines 121-147: the FIFO loop; it returns [remaining_payment]. *)
Fixpoint allocate_fifo (self_object : Payment.t) (invs : list Invoice.t)
    (remaining_payment : Decimal) : M Decimal :=
  match invs with
  | [] => ret remaining_payment
  | inv :: rest =>
      if remaining_payment <=? 0 then ret remaining_payment
      else
        (db <- get_db ;;
         let already_paid := invoice_paid_total (Invoice.id inv) db in
         let outstanding := Invoice.total_amount inv - already_paid in
         if outstanding <=? 0 then
           allocate_fifo self_object rest remaining_payment
         else
           let to_allocate := Z.min remaining_payment outstanding in
           (_ <- PaymentAllocation_objects_create self_object inv to_allocate ;;
            allocate_fifo self_object rest (remaining_payment - to_allocate)))%txn
  end.

(** Lines 160-174: every invoice the payment was allocated to is marked
    paid once its allocations reach its total. [allocation.invoice] follows
    a foreign key: the invoice row exists. *)
Fixpoint update_invoice_statuses (allocs : list PaymentAllocation.t)
    : M unit :=
  match allocs with
  | [] => ret tt
  | allocation :: rest =>
      (db <- get_db ;;
       match find (fun i => Nat.eqb (Invoice.id i)
                              (PaymentAllocation.invoice allocation))
                  (invoices db) with
       | Some inv =>
           let paid_total := invoice_paid_total (Invoice.id inv) db in
           (if (Invoice.total_amount inv <=? paid_total)
               && negb (InvoiceStatus_eqb (Invoice.status inv) paid)
            then Invoice_save (Invoice.set_status inv paid)
            else ret tt) ;;;
           update_invoice_statuses rest
       | None => update_invoice_statuses rest
       end)%txn
  end.

(** The description of the payment's ledger entry (line 156). *)
Definition payment_description (p : Payment.t) : string :=
  "Payment " ++ Payment.payment_number p
  ++ " (" ++ Payment.get_payment_method_display p ++ ")".

(** [form_valid]: [company] is [request.user.company], [payment_number] the
    number [Payment.save] generates, [now] the clock. The closing
    [super().form_valid(form)] saves the same payment once more and
    redirects; it changes no row. *)
Definition form_valid (company : nat) (form : Form) (payment_number : string)
    (now : DateTime) : M Payment.t :=
  atomic
    (self_object <-
       Payment_save company (Customer.id (form_customer form)) payment_number
         (form_payment_date form) (form_amount form)
         (form_payment_method form) ;;
     l1 <- allocate_selected self_object (form_invoice form)
             (mkLocals false 0) ;;
     l2 <- allocate_manual company self_object (form_invoice form)
             (manual form) l1 ;;
     _ <- (if negb (allocations_made l2)
           then (db <- get_db ;;
                 allocate_fifo self_object (unpaid_invoices self_object db)
                   (Payment.amount self_object))
           else ret 0) ;;
     _ <- LedgerService.create_customer_payment_entry
            (Payment.company self_object) (form_customer form)
            (Payment.amount self_object) (Payment.payment_date self_object)
            (payment_description self_object)
            (Some (mkInstance PaymentModel (Payment.id self_object))) now ;;
     db <- get_db ;;
     update_invoice_statuses
       (filter (fun a => Nat.eqb (PaymentAllocation.payment a)
                           (Payment.id self_object))
               (allocations db)) ;;;
     ret self_object)%txn.

End PaymentCreateView.

(** ** Concurrent calls of [_create_entry]

    Each call runs in a transaction of its own. A call takes two steps that
    other calls can interleave with: the [SELECT ... FOR UPDATE] of lines
    41-45, which returns the party's last entry and holds a row lock on the
    row it returned (and on nothing when it returned no row), and the
    INSERT of lines 47-73 followed by the commit, which releases the lock.
    A [SELECT ... FOR UPDATE] whose row is locked by another transaction
    waits: the step is not enabled. *)

Module Concurrent.

(** The arguments of one call of [_create_entry], with the clock reading its
    INSERT stores. *)
Record Call : Type := mkCall {
  call_company : nat;
  call_party_type : PartyType;
  call_party_id : nat;
  call_entry_type : EntryType;
  call_debit : Decimal;
  call_credit : Decimal;
  call_transaction_date : Date;
  call_description : string;
  call_reference_object : option ModelInstance;
  call_now : DateTime
}.

Inductive Txn : Type :=
| NotStarted (c : Call)
| HoldsLast (c : Call) (last_entry : option LedgerEntry.t)
| Finished (c : Call) (last_entry : option LedgerEntry.t)
    (result : Exception + LedgerEntry.t).

Record World : Type := mkWorld {
  world_db : DB;
  txns : list Txn
}.

(** The row a transaction holds locked. *)
Definition locked_row (t : Txn) : option nat :=
  match t with
  | HoldsLast _ (Some e) => Some (LedgerEntry.id e)
  | _ => None
  end.

Definition is_locked (row : nat) (ts : list Txn) : bool :=
  existsb (fun t => option_nat_eqb (locked_row t) (Some row)) ts.

Fixpoint replace_nth {A : Type} (i : nat) (x : A) (l : list A) : list A :=
  match l, i with
  | [], _ => []
  | _ :: l', O => x :: l'
  | y :: l', S i' => y :: replace_nth i' x l'
  end.

(** The previous balance a call computes on line 48 from what it read. *)
Definition previous_balance (last_entry : option LedgerEntry.t) : Decimal :=
  match last_entry with
  | Some e => LedgerEntry.running_balance e
  | None => 0
  end.

(** One step of transaction [i]; [None] when [i] is finished, waits for a
    lock, or does not exist. *)
Definition step (i : nat) (w : World) : option World :=
  match nth_error (txns w) i with
  | Some (NotStarted c) =>
      let last_entry :=
        LedgerService.select_last_entry (call_company c) (call_party_type c)
          (call_party_id c) (ledger_entries (world_db w)) in
      let blocked :=
        match last_entry with
        | Some e => is_locked (LedgerEntry.id e) (txns w)
        | None => false
        end in
      if blocked then None
      else Some (mkWorld (world_db w)
                   (replace_nth i (HoldsLast c last_entry) (txns w)))
  | Some (HoldsLast c last_entry) =>
      let (result, db') :=
        LedgerService.insert_after last_entry (call_company c)
          (call_party_type c) (call_party_id c) (call_entry_type c)
          (call_debit c) (call_credit c) (call_transaction_date c)
          (call_description c) (call_reference_object c) (call_now c)
          (world_db w) in
      Some (mkWorld db' (replace_nth i (Finished c last_entry result) (txns w)))
  | _ => None
  end.

(** A schedule names the transaction that moves at each step. *)
Fixpoint run (schedule : list nat) (w : World) : option World :=
  match schedule with
  | [] => Some w
  | i :: rest =>
      match step i w with
      | Some w' => run rest w'
      | None => None
      end
  end.

Definition finished (t : Txn) : bool :=
  match t with
  | Finished _ _ (inr _) => true
  | _ => false
  end.

(** The previous balances the finished calls computed. *)
Definition observed_balances (w : World) : list Decimal :=
  flat_map (fun t => match t with
                     | Finished _ last_entry _ => [previous_balance last_entry]
                     | _ => []
                     end)
           (txns w).

End Concurrent.

(** ** Properties stated by the specification *)

(** Balance recurrence along a list of entries, from the balance [prev]:
    [running_balance[i] = running_balance[i-1] + debit[i] - credit[i]]. *)
Fixpoint recurrence_from (prev : Decimal) (entries : list LedgerEntry.t)
    : Prop :=
  match entries with
  | [] => True
  | e :: rest =>
      LedgerEntry.running_balance e
      = prev + LedgerEntry.debit e - LedgerEntry.credit e
      /\ recurrence_from (LedgerEntry.running_balance e) rest
  end.

(** The party's entries by (transaction_date, created_at) ascending. *)
Definition party_entries (company : nat) (party_type : PartyType)
    (party_id : nat) (db : DB) : list LedgerEntry.t :=
  order_by LedgerEntry.key_leb
    (filter (LedgerService.party_filter company party_type party_id)
            (ledger_entries db)).

Definition balance_recurrence (company : nat) (party_type : PartyType)
    (party_id : nat) (db : DB) : Prop :=
  recurrence_from 0 (party_entries company party_type party_id db).

(** Sum over a party's entries of debit minus credit. *)
Definition net_movement (entries : list LedgerEntry.t) : Decimal :=
  Sum (fun e => LedgerEntry.debit e - LedgerEntry.credit e) entries.

(** Primary keys identify rows; the sequences hand out unused keys. *)
Definition unique_ledger_pks (db : DB) : Prop :=
  NoDup (map LedgerEntry.id (ledger_entries db)).

(** [a] is not older than [b] in (transaction_date, created_at) order. *)
Definition not_before (a b : LedgerEntry.t) : Prop :=
  LedgerEntry.transaction_date b < LedgerEntry.transaction_date a
  \/ (LedgerEntry.transaction_date b = LedgerEntry.transaction_date a
      /\ LedgerEntry.created_at b <= LedgerEntry.created_at a).

(** FIFO allocation as the specification words it: the open invoices,
    oldest first, each receive [min(remaining_payment, outstanding)] until
    the payment or the invoices are exhausted. Each invoice comes with its
    outstanding amount; an invoice with nothing outstanding is not open. *)
Fixpoint fifo_spec (remaining_payment : Decimal)
    (open_invoices : list (nat * Decimal)) : list (nat * Decimal) :=
  match open_invoices with
  | [] => []
  | (invoice_id, outstanding) :: rest =>
      if remaining_payment <=? 0 then []
      else if outstanding <=? 0 then fifo_spec remaining_payment rest
      else
        (invoice_id, Z.min remaining_payment outstanding)
        :: fifo_spec (remaining_payment - Z.min remaining_payment outstanding)
             rest
  end.

(** * Proofs *)

(** ** Decidable equalities *)

Lemma PartyType_eqb_eq a b : PartyType_eqb a b = true <-> a = b.
Proof. destruct a, b; simpl; split; congruence. Qed.

Lemma EntryType_eqb_eq a b : EntryType_eqb a b = true <-> a = b.
Proof. destruct a, b; simpl; split; congruence. Qed.

Lemma ContentType_eqb_eq a b : ContentType_eqb a b = true <-> a = b.
Proof.
  destruct a, b; simpl; split; try congruence.
  - intros H. apply Nat.eqb_eq in H. now subst.
  - intros H. injection H as ->. apply Nat.eqb_refl.
Qed.

Lemma PartyType_eqb_refl a : PartyType_eqb a a = true.
Proof. now apply PartyType_eqb_eq. Qed.

Lemma EntryType_eqb_refl a : EntryType_eqb a a = true.
Proof. now apply EntryType_eqb_eq. Qed.

Lemma ContentType_eqb_refl a : ContentType_eqb a a = true.
Proof. now apply ContentType_eqb_eq. Qed.

(** ** [order_by] *)

Section OrderByFacts.
Context {A : Type}.
Variable leb : A -> A -> bool.

Lemma insert_ordered_perm x l : Permutation (insert_ordered leb x l) (x :: l).
Proof.
  induction l as [|y l IH]; simpl.
  - apply Permutation_refl.
  - destruct (leb x y).
    + apply Permutation_refl.
    + eapply perm_trans; [apply perm_skip, IH | apply perm_swap].
Qed.

Lemma order_by_perm l : Permutation (order_by leb l) l.
Proof.
  induction l as [|x l IH]; simpl.
  - apply perm_nil.
  - eapply perm_trans; [apply insert_ordered_perm | apply perm_skip, IH].
Qed.

Lemma order_by_In x l : In x (order_by leb l) <-> In x l.
Proof.
  split; apply Permutation_in;
    [apply order_by_perm | apply Permutation_sym, order_by_perm].
Qed.

Lemma order_by_nil_iff l : order_by leb l = [] <-> l = [].
Proof.
  split; intros H.
  - apply Permutation_nil. rewrite <- H. apply order_by_perm.
  - now subst.
Qed.

Hypothesis leb_total : forall a b, leb a b = false -> leb b a = true.
Hypothesis leb_trans :
  forall a b c, leb a b = true -> leb b c = true -> leb a c = true.

Let le (a b : A) : Prop := leb a b = true.

Lemma insert_ordered_sorted x l :
  StronglySorted le l -> StronglySorted le (insert_ordered leb x l).
Proof.
  induction 1 as [|y l Hs IH Hall]; simpl.
  - constructor; constructor.
  - destruct (leb x y) eqn:Hxy.
    + constructor.
      * now constructor.
      * constructor; [exact Hxy|].
        rewrite Forall_forall in *. intros z Hz.
        apply leb_trans with y; [exact Hxy | now apply Hall].
    + constructor; [exact IH|].
      rewrite Forall_forall in *. intros z Hz.
      apply (Permutation_in _ (insert_ordered_perm x l)) in Hz.
      destruct Hz as [<- | Hz]; [now apply leb_total | now apply Hall].
Qed.

Lemma order_by_sorted l : StronglySorted le (order_by leb l).
Proof.
  induction l as [|x l IH]; simpl.
  - constructor.
  - now apply insert_ordered_sorted.
Qed.

Lemma first_order_by l x :
  first (order_by leb l) = Some x ->
  In x l /\ forall y, In y l -> y = x \/ leb x y = true.
Proof.
  intros H. pose proof (order_by_sorted l) as Hs.
  pose proof (order_by_In) as Hin.
  destruct (order_by leb l) as [|z s] eqn:E; [discriminate|].
  injection H as ->. split.
  - apply Hin. rewrite E. now left.
  - intros y Hy. apply Hin in Hy. rewrite E in Hy.
    destruct Hy as [-> | Hy]; [now left | right].
    apply StronglySorted_inv in Hs. destruct Hs as [_ Hall].
    rewrite Forall_forall in Hall. now apply Hall.
Qed.

End OrderByFacts.

Section OrderByMap.
Context {A : Type}.
Variables (leb : A -> A -> bool) (f : A -> A).
Hypothesis f_keeps_order : forall a b, leb (f a) (f b) = leb a b.

Lemma insert_ordered_map x l :
  insert_ordered leb (f x) (map f l) = map f (insert_ordered leb x l).
Proof.
  induction l as [|y l IH]; simpl; [reflexivity|].
  rewrite f_keeps_order. destruct (leb x y); simpl; [reflexivity|].
  now rewrite IH.
Qed.

Lemma order_by_map l : order_by leb (map f l) = map f (order_by leb l).
Proof.
  induction l as [|x l IH]; simpl; [reflexivity|].
  now rewrite IH, insert_ordered_map.
Qed.

End OrderByMap.

Lemma filter_map_commute {A : Type} (p : A -> bool) (f : A -> A) l :
  (forall a, p (f a) = p a) -> filter p (map f l) = map f (filter p l).
Proof.
  intros H. induction l as [|x l IH]; simpl; [reflexivity|].
  rewrite H. destruct (p x); simpl; now rewrite IH.
Qed.

Lemma Sum_perm {A : Type} (f : A -> Decimal) l l' :
  Permutation l l' -> Sum f l = Sum f l'.
Proof.
  induction 1; simpl; try lia.
Qed.

Lemma Sum_app {A : Type} (f : A -> Decimal) l l' :
  Sum f (l ++ l') = Sum f l + Sum f l'.
Proof.
  induction l as [|x l IH]; simpl; lia.
Qed.

(** ** The ledger ordering *)

Lemma key_leb_total a b :
  LedgerEntry.key_leb a b = false -> LedgerEntry.key_leb b a = true.
Proof.
  unfold LedgerEntry.key_leb. intros H.
  apply orb_false_iff in H. destruct H as [H1 H2].
  apply Z.ltb_ge in H1.
  destruct (Z.eqb_spec (LedgerEntry.transaction_date a)
                       (LedgerEntry.transaction_date b)) as [E|E].
  - simpl in H2. apply Z.leb_gt in H2.
    apply orb_true_iff. right. apply andb_true_iff. split.
    + apply Z.eqb_eq. lia.
    + apply Z.leb_le. lia.
  - apply orb_true_iff. left. apply Z.ltb_lt. lia.
Qed.

Lemma key_leb_spec a b :
  LedgerEntry.key_leb a b = true <-> not_before b a.
Proof.
  unfold LedgerEntry.key_leb, not_before.
  rewrite orb_true_iff, andb_true_iff, Z.ltb_lt, Z.eqb_eq, Z.leb_le.
  reflexivity.
Qed.

Lemma key_leb_trans a b c :
  LedgerEntry.key_leb a b = true -> LedgerEntry.key_leb b c = true ->
  LedgerEntry.key_leb a c = true.
Proof.
  rewrite !key_leb_spec. unfold not_before. lia.
Qed.

Lemma key_geb_total a b :
  LedgerEntry.key_geb a b = false -> LedgerEntry.key_geb b a = true.
Proof. unfold LedgerEntry.key_geb. apply key_leb_total. Qed.

Lemma key_geb_trans a b c :
  LedgerEntry.key_geb a b = true -> LedgerEntry.key_geb b c = true ->
  LedgerEntry.key_geb a c = true.
Proof.
  unfold LedgerEntry.key_geb. intros H1 H2. eapply key_leb_trans; eauto.
Qed.

Lemma not_before_refl a : not_before a a.
Proof. unfold not_before. lia. Qed.

(** The entry [select_last_entry] returns is one of the party's entries and
    no entry of the party comes after it. *)
Lemma select_last_entry_spec company party_type party_id rows e :
  LedgerService.select_last_entry company party_type party_id rows = Some e ->
  In e (filter (LedgerService.party_filter company party_type party_id) rows)
  /\ forall e',
       In e' (filter (LedgerService.party_filter company party_type party_id)
                     rows) ->
       not_before e e'.
Proof.
  unfold LedgerService.select_last_entry. intros H.
  apply first_order_by in H;
    [| exact key_geb_total | exact key_geb_trans].
  destruct H as [Hin Hmax]. split; [exact Hin|].
  intros e' He'. destruct (Hmax e' He') as [-> | Hle].
  - apply not_before_refl.
  - unfold LedgerEntry.key_geb in Hle. now apply key_leb_spec.
Qed.

Lemma select_last_entry_none company party_type party_id rows :
  LedgerService.select_last_entry company party_type party_id rows = None <->
  filter (LedgerService.party_filter company party_type party_id) rows = [].
Proof.
  unfold LedgerService.select_last_entry.
  rewrite <- (order_by_nil_iff LedgerEntry.key_geb).
  destruct (order_by _ _); simpl; split; congruence.
Qed.

(** ** Outstanding balance of a customer *)

(** C9. [get_customer_outstanding] returns the running balance of one of
    the customer's entries that no entry of the customer comes after in
    (transaction_date, created_at) order; for a customer without entries it
    returns 0. The function is total: it has no path that raises. *)
Theorem get_customer_outstanding_latest (company customer_id : nat) (db : DB) :
  let entries :=
    filter (LedgerService.party_filter company customer customer_id)
           (ledger_entries db) in
  (entries = []
   /\ LedgerService.get_customer_outstanding company customer_id db = 0)
  \/ (exists e,
        In e entries
        /\ (forall e', In e' entries -> not_before e e')
        /\ LedgerService.get_customer_outstanding company customer_id db
           = LedgerEntry.running_balance e).
Proof.
  intros entries. unfold LedgerService.get_customer_outstanding.
  fold (LedgerService.select_last_entry company customer customer_id
          (ledger_entries db)).
  destruct (LedgerService.select_last_entry company customer customer_id
              (ledger_entries db)) as [e|] eqn:E.
  - right. exists e. apply select_last_entry_spec in E.
    destruct E as [Hin Hmax]. repeat split; assumption.
  - left. split; [|reflexivity]. now apply select_last_entry_none.
Qed.

(** ** Reference uniqueness *)

Lemma violates_unique_reference_entry_In rows r e :
  In r rows -> same_reference_entry r e = true ->
  violates_unique_reference_entry rows e = true.
Proof.
  intros Hin Hsame. unfold violates_unique_reference_entry.
  apply existsb_exists. now exists r.
Qed.

(** C5. When the ledger holds an entry with reference (ct, rid), a call of
    [_create_entry] with the same reference object and the same entry type
    fails with the integrity error of [unique_reference_entry] and leaves
    the database as it was: no row is written and no row changes. *)
Theorem create_entry_duplicate_reference_rejected
    (db : DB) (existing : LedgerEntry.t) (ct : ContentType) (rid : nat)
    (company : nat) (party_type : PartyType) (party_id : nat)
    (debit credit : Decimal) (transaction_date : Date) (description : string)
    (now : DateTime) :
  In existing (ledger_entries db) ->
  LedgerEntry.reference_type existing = Some ct ->
  LedgerEntry.reference_id existing = Some rid ->
  LedgerService._create_entry company party_type party_id
    (LedgerEntry.entry_type existing) debit credit transaction_date
    description (Some (mkInstance ct rid)) now db
  = (inl (IntegrityError "unique_reference_entry"), db).
Proof.
  intros Hin Hct Hrid.
  unfold LedgerService._create_entry, atomic, bind, get_db,
    LedgerService.insert_after, LedgerEntry_objects_create.
  simpl.
  erewrite violates_unique_reference_entry_In; [reflexivity | exact Hin |].
  unfold same_reference_entry. simpl. rewrite Hct, Hrid. simpl.
  now rewrite ContentType_eqb_refl, Nat.eqb_refl, EntryType_eqb_refl.
Qed.

Definition invoice_entry_7 : LedgerEntry.t :=
  LedgerEntry.mk 1 1 customer 5 invoice 10000 0 10000
    (Some InvoiceModel) (Some 7%nat) "Invoice INV-7" 19724 1000.

Definition db_one_invoice : DB :=
  mkDB [invoice_entry_7] 2 [Customer.mk 5 1 "Acme" false] [] [] 1 [] 1.

Lemma create_entry_duplicate_reference_rejected_witness :
  LedgerService.create_customer_invoice_entry 1
    (Customer.mk 5 1 "Acme" false)
    (Invoice.mk 7 1 "INV-7" 5 19724 sent 10000 false) 2000 db_one_invoice
  = (inl (IntegrityError "unique_reference_entry"), db_one_invoice).
Proof.
  unfold LedgerService.create_customer_invoice_entry.
  apply (@create_entry_duplicate_reference_rejected db_one_invoice
           invoice_entry_7 InvoiceModel 7 1 customer 5 10000 0 19724
           "Invoice INV-7"%string 2000).
  - simpl. now left.
  - reflexivity.
  - reflexivity.
Defined.

(** ** Entry validation *)

Definition empty_db : DB := mkDB [] 1 [] [] [] 1 [] 1.

Definition zero_adjustment : LedgerEntry.t :=
  LedgerEntry.mk 1 1 customer 5 adjustment 0 0 0 None None "write-off"
    19724 1000.

Definition negative_payment : LedgerEntry.t :=
  LedgerEntry.mk 1 1 customer 5 payment 0 (-500) 500 None None
    "Payment received from Acme" 19724 1000.

(** C4 (the code at the failing inputs). [create_adjustment_entry] with
    amount 0 writes a row whose debit and credit are both 0, and
    [create_customer_payment_entry] with amount -5.00 writes a row with a
    negative credit; [LedgerEntry.clean] and the field validators, which
    reject these rows, are not run by the service. *)
Theorem create_entry_skips_validation :
  LedgerService.create_adjustment_entry 1 customer 5 0 true 19724
    "write-off" 1000 empty_db
  = (inr zero_adjustment, set_ledger empty_db [zero_adjustment] 2)
  /\ LedgerEntry.clean zero_adjustment
     = inl (ValidationError "Entry must have either debit or credit amount.")
  /\ LedgerService.create_customer_payment_entry 1
       (Customer.mk 5 1 "Acme" false) (-500) 19724 "" None 1000 empty_db
     = (inr negative_payment, set_ledger empty_db [negative_payment] 2)
  /\ LedgerEntry.run_validators negative_payment
     = inl (ValidationError
              "Ensure this value is greater than or equal to 0.00.").
Proof.
  repeat split; reflexivity.
Qed.

(** ** Recalculation *)

(** The entries with the balances a recalculation from [prev] assigns. *)
Fixpoint rebalance (prev : Decimal) (entries : list LedgerEntry.t)
    : list LedgerEntry.t :=
  match entries with
  | [] => []
  | e :: rest =>
      let b := prev + LedgerEntry.debit e - LedgerEntry.credit e in
      LedgerEntry.set_running_balance e b :: rebalance b rest
  end.

(** The balance a recalculation from [prev] along [entries] assigns to the
    row with primary key [pk]. *)
Fixpoint balance_of (entries : list LedgerEntry.t) (prev : Decimal) (pk : nat)
    : option Decimal :=
  match entries with
  | [] => None
  | e :: rest =>
      let b := prev + LedgerEntry.debit e - LedgerEntry.credit e in
      if Nat.eqb (LedgerEntry.id e) pk then Some b else balance_of rest b pk
  end.

Definition with_balance (entries : list LedgerEntry.t) (prev : Decimal)
    (row : LedgerEntry.t) : LedgerEntry.t :=
  match balance_of entries prev (LedgerEntry.id row) with
  | Some b => LedgerEntry.set_running_balance row b
  | None => row
  end.

Lemma set_ledger_same db : set_ledger db (ledger_entries db) (ledger_seq db) = db.
Proof. now destruct db. Qed.

Lemma set_running_balance_same e :
  LedgerEntry.set_running_balance e (LedgerEntry.running_balance e) = e.
Proof. now destruct e. Qed.

Lemma NoDup_map_In_inj {A B : Type} (f : A -> B) l a b :
  NoDup (map f l) -> In a l -> In b l -> f a = f b -> a = b.
Proof.
  induction l as [|x l IH]; simpl; intros Hnd Ha Hb Hf; [contradiction|].
  inversion Hnd as [|? ? Hnotin Hnd']; subst.
  destruct Ha as [-> | Ha], Hb as [-> | Hb]; auto.
  - exfalso. apply Hnotin. rewrite Hf. now apply in_map.
  - exfalso. apply Hnotin. rewrite <- Hf. now apply in_map.
Qed.

Lemma NoDup_map_filter {A B : Type} (f : A -> B) (p : A -> bool) l :
  NoDup (map f l) -> NoDup (map f (filter p l)).
Proof.
  induction l as [|x l IH]; simpl; intros Hnd; [constructor|].
  inversion Hnd as [|? ? Hnotin Hnd']; subst.
  destruct (p x); simpl; [|now apply IH].
  constructor; [|now apply IH].
  intros Hin. apply Hnotin. apply in_map_iff in Hin.
  destruct Hin as [y [Hy Hin]]. apply filter_In in Hin.
  rewrite <- Hy. apply in_map. tauto.
Qed.

Lemma balance_of_not_in entries prev pk :
  ~ In pk (map LedgerEntry.id entries) -> balance_of entries prev pk = None.
Proof.
  revert prev. induction entries as [|e rest IH]; simpl; intros prev Hn.
  - reflexivity.
  - destruct (Nat.eqb_spec (LedgerEntry.id e) pk) as [E|E].
    + exfalso. apply Hn. now left.
    + apply IH. intros H. apply Hn. now right.
Qed.

Lemma net_movement_rebalance prev entries :
  net_movement (rebalance prev entries) = net_movement entries.
Proof.
  revert prev. unfold net_movement.
  induction entries as [|e rest IH]; simpl; intros prev; [reflexivity|].
  now rewrite IH.
Qed.

Lemma rebalance_recurrence prev entries :
  recurrence_from prev (rebalance prev entries).
Proof.
  revert prev. induction entries as [|e rest IH]; simpl; intros prev.
  - exact I.
  - split; [reflexivity | apply IH].
Qed.

(** Along a list of distinct rows, [with_balance] is [rebalance]. *)
Lemma map_with_balance_rebalance prev entries :
  NoDup (map LedgerEntry.id entries) ->
  map (with_balance entries prev) entries = rebalance prev entries.
Proof.
  revert prev. induction entries as [|e rest IH]; simpl; intros prev Hnd.
  - reflexivity.
  - inversion Hnd as [|? ? Hnotin Hnd']; subst. f_equal.
    + unfold with_balance. simpl. now rewrite Nat.eqb_refl.
    + rewrite <- (IH _ Hnd'). apply map_ext_in. intros x Hx.
      unfold with_balance. simpl.
      destruct (Nat.eqb_spec (LedgerEntry.id e) (LedgerEntry.id x)) as [E|E].
      * exfalso. apply Hnotin. rewrite E. now apply in_map.
      * reflexivity.
Qed.

(** A loop over entries that already satisfy the recurrence saves nothing. *)
Lemma recalculate_loop_fixpoint entries prev db :
  recurrence_from prev entries ->
  LedgerService.recalculate_loop entries prev db
  = (inr (prev + net_movement entries), db).
Proof.
  revert prev db. induction entries as [|e rest IH]; simpl; intros prev db H.
  - unfold ret, net_movement. simpl. f_equal. f_equal. lia.
  - destruct H as [Hb Hrest]. unfold bind.
    rewrite <- Hb, Z.eqb_refl. unfold ret at 1.
    rewrite (IH _ _ Hrest). unfold net_movement. simpl.
    f_equal. f_equal. lia.
Qed.

(** What the loop returns and what it leaves in the table, when the entries
    are distinct rows read from that table. *)
Lemma recalculate_loop_spec entries prev db :
  NoDup (map LedgerEntry.id entries) ->
  (forall e row, In e entries -> In row (ledger_entries db) ->
                 LedgerEntry.id row = LedgerEntry.id e -> row = e) ->
  LedgerService.recalculate_loop entries prev db
  = (inr (prev + net_movement entries),
     set_ledger db (map (with_balance entries prev) (ledger_entries db))
       (ledger_seq db)).
Proof.
  revert prev db.
  induction entries as [|e rest IH]; simpl; intros prev db Hnd Hsync.
  - unfold ret, net_movement. simpl. f_equal; [f_equal; lia|].
    rewrite <- (set_ledger_same db) at 1. f_equal.
    symmetry. rewrite <- (map_id (ledger_entries db)) at 2.
    apply map_ext. reflexivity.
  - inversion Hnd as [|? ? Hnotin Hnd']; subst.
    set (b := prev + LedgerEntry.debit e - LedgerEntry.credit e).
    unfold bind.
    destruct (Z.eqb_spec (LedgerEntry.running_balance e) b) as [Hb|Hb].
    + unfold ret at 1. rewrite IH; [| exact Hnd' |].
      * unfold net_movement. simpl. f_equal; [f_equal; fold b; lia|].
        f_equal. apply map_ext_in. intros row Hrow.
        unfold with_balance. simpl. fold b.
        destruct (Nat.eqb_spec (LedgerEntry.id e) (LedgerEntry.id row))
          as [E|E].
        -- rewrite (Hsync e row (or_introl eq_refl) Hrow (eq_sym E)).
           rewrite balance_of_not_in by exact Hnotin.
           rewrite <- Hb. symmetry. apply set_running_balance_same.
        -- reflexivity.
      * intros e' row He' Hrow Hid. apply Hsync; auto.
    + unfold LedgerEntry_save_running_balance at 1. cbv beta iota.
      rewrite IH; [| exact Hnd' |].
      * unfold net_movement. simpl. f_equal; [f_equal; fold b; lia|].
        unfold set_ledger. simpl. f_equal. rewrite map_map.
        apply map_ext_in. intros row Hrow.
        unfold with_balance. simpl. fold b.
        destruct (Nat.eqb_spec (LedgerEntry.id row) (LedgerEntry.id e))
          as [E|E].
        -- rewrite <- E, Nat.eqb_refl. simpl.
           rewrite balance_of_not_in by (rewrite E; exact Hnotin).
           reflexivity.
        -- destruct (Nat.eqb_spec (LedgerEntry.id e) (LedgerEntry.id row));
             [congruence | reflexivity].
      * simpl. intros e' row He' Hrow Hid.
        apply in_map_iff in Hrow. destruct Hrow as [row0 [Hrow0 Hin0]].
        destruct (Nat.eqb_spec (LedgerEntry.id row0) (LedgerEntry.id e))
          as [E|E].
        -- exfalso. apply Hnotin. subst row. simpl in Hid.
           rewrite <- E, Hid. now apply in_map.
        -- subst row. apply Hsync; auto.
Qed.

Lemma party_filter_with_balance company party_type party_id entries prev row :
  LedgerService.party_filter company party_type party_id
    (with_balance entries prev row)
  = LedgerService.party_filter company party_type party_id row.
Proof.
  unfold with_balance.
  destruct (balance_of entries prev (LedgerEntry.id row)); reflexivity.
Qed.

Lemma key_leb_with_balance entries prev a b :
  LedgerEntry.key_leb (with_balance entries prev a)
    (with_balance entries prev b)
  = LedgerEntry.key_leb a b.
Proof.
  unfold with_balance.
  destruct (balance_of entries prev (LedgerEntry.id a)),
           (balance_of entries prev (LedgerEntry.id b)); reflexivity.
Qed.

Lemma party_entries_unique company party_type party_id db :
  unique_ledger_pks db ->
  NoDup (map LedgerEntry.id (party_entries company party_type party_id db)).
Proof.
  intros Hnd. unfold party_entries.
  eapply Permutation_NoDup.
  - apply Permutation_map, Permutation_sym, order_by_perm.
  - now apply NoDup_map_filter.
Qed.

(** What one recalculation returns and writes. *)
Lemma recalculate_party_balance_spec company party_type party_id db :
  unique_ledger_pks db ->
  LedgerService.recalculate_party_balance company party_type party_id db
  = (inr (net_movement (party_entries company party_type party_id db)),
     set_ledger db
       (map (with_balance (party_entries company party_type party_id db) 0)
            (ledger_entries db))
       (ledger_seq db)).
Proof.
  intros Hnd.
  unfold LedgerService.recalculate_party_balance, atomic, bind, get_db.
  fold (party_entries company party_type party_id db).
  rewrite recalculate_loop_spec.
  - reflexivity.
  - now apply party_entries_unique.
  - intros e row He Hrow Hid.
    apply (NoDup_map_In_inj LedgerEntry.id (ledger_entries db)); auto.
    unfold party_entries in He. apply order_by_In in He.
    apply filter_In in He. tauto.
Qed.

(** After a recalculation the party's entries are the old ones with the
    recomputed balances. *)
Lemma party_entries_after_recalculation company party_type party_id db :
  unique_ledger_pks db ->
  party_entries company party_type party_id
    (snd (LedgerService.recalculate_party_balance company party_type
            party_id db))
  = rebalance 0 (party_entries company party_type party_id db).
Proof.
  intros Hnd. rewrite recalculate_party_balance_spec by exact Hnd.
  simpl. unfold party_entries at 1. simpl.
  rewrite filter_map_commute
    by (intros a; apply party_filter_with_balance).
  rewrite order_by_map by (intros a b; apply key_leb_with_balance).
  fold (party_entries company party_type party_id db).
  apply map_with_balance_rebalance. now apply party_entries_unique.
Qed.

(** A recalculation establishes the balance recurrence of the party. *)
Lemma recalculation_restores_recurrence company party_type party_id db :
  unique_ledger_pks db ->
  balance_recurrence company party_type party_id
    (snd (LedgerService.recalculate_party_balance company party_type
            party_id db)).
Proof.
  intros Hnd. unfold balance_recurrence.
  rewrite party_entries_after_recalculation by exact Hnd.
  apply rebalance_recurrence.
Qed.

(** C8. In a ledger whose rows have distinct primary keys,
    [recalculate_party_balance] returns the sum over the party's entries of
    debit minus credit; a second call right after the first returns the same
    balance and leaves the database exactly as the first call left it. *)
Theorem recalculate_party_balance_idempotent
    (company : nat) (party_type : PartyType) (party_id : nat) (db : DB) :
  unique_ledger_pks db ->
  let first_call :=
    LedgerService.recalculate_party_balance company party_type party_id db in
  let second_call :=
    LedgerService.recalculate_party_balance company party_type party_id
      (snd first_call) in
  fst first_call
  = inr (net_movement
           (filter (LedgerService.party_filter company party_type party_id)
                   (ledger_entries db)))
  /\ fst second_call = fst first_call
  /\ snd second_call = snd first_call.
Proof.
  intros Hnd first_call second_call.
  assert (Hnet :
    net_movement (party_entries company party_type party_id db)
    = net_movement
        (filter (LedgerService.party_filter company party_type party_id)
                (ledger_entries db))).
  { unfold net_movement, party_entries. apply Sum_perm, order_by_perm. }
  assert (H1 : fst first_call
               = inr (net_movement
                        (party_entries company party_type party_id db))).
  { unfold first_call. now rewrite recalculate_party_balance_spec. }
  assert (H2 : second_call = (fst first_call, snd first_call)).
  { unfold second_call.
    unfold LedgerService.recalculate_party_balance at 1.
    unfold atomic, bind, get_db.
    fold (party_entries company party_type party_id (snd first_call)).
    unfold first_call at 1.
    rewrite party_entries_after_recalculation by exact Hnd.
    rewrite recalculate_loop_fixpoint by apply rebalance_recurrence.
    rewrite net_movement_rebalance, H1. reflexivity. }
  rewrite H2, H1, Hnet. simpl. repeat split; reflexivity.
Qed.

Definition drifted_ledger : DB :=
  mkDB
    [ LedgerEntry.mk 1 1 customer 5 invoice 10000 0 10000
        (Some InvoiceModel) (Some 7%nat) "Invoice INV-7" 19724 1000;
      LedgerEntry.mk 2 1 customer 5 payment 0 6000 99999
        None None "Payment received from Acme" 19728 2000;
      LedgerEntry.mk 3 1 customer 6 invoice 2500 0 2500
        (Some InvoiceModel) (Some 8%nat) "Invoice INV-8" 19725 3000 ]
    4 [Customer.mk 5 1 "Acme" false; Customer.mk 6 1 "Bolt" false]
    [] [] 1 [] 1.

Lemma recalculate_party_balance_idempotent_witness :
  fst (LedgerService.recalculate_party_balance 1 customer 5 drifted_ledger)
  = inr (net_movement
           (filter (LedgerService.party_filter 1 customer 5)
                   (ledger_entries drifted_ledger)))
  /\ fst (LedgerService.recalculate_party_balance 1 customer 5
            (snd (LedgerService.recalculate_party_balance 1 customer 5
                    drifted_ledger)))
     = fst (LedgerService.recalculate_party_balance 1 customer 5
              drifted_ledger)
  /\ snd (LedgerService.recalculate_party_balance 1 customer 5
            (snd (LedgerService.recalculate_party_balance 1 customer 5
                    drifted_ledger)))
     = snd (LedgerService.recalculate_party_balance 1 customer 5
              drifted_ledger).
Proof.
  apply (@recalculate_party_balance_idempotent 1 customer 5 drifted_ledger).
  unfold unique_ledger_pks. simpl.
  repeat (constructor; [simpl; lia|]). constructor.
Defined.

(** The drifted balance 999.99 of the example is repaired to 40.00. *)
Example recalculate_drifted_ledger :
  fst (LedgerService.recalculate_party_balance 1 customer 5 drifted_ledger)
  = inr 4000
  /\ map LedgerEntry.running_balance
       (ledger_entries
          (snd (LedgerService.recalculate_party_balance 1 customer 5
                  drifted_ledger)))
     = [10000; 4000; 2500].
Proof. split; reflexivity. Qed.

(** ** Backdated entries *)

Definition acme : Customer.t := Customer.mk 5 1 "Acme" false.

(** An invoice entry dated day 19724, then a payment entry dated four days
    earlier. *)
Definition invoice_then_backdated_payment : M LedgerEntry.t :=
  (_ <- LedgerService.create_customer_invoice_entry 1 acme
          (Invoice.mk 7 1 "INV-7" 5 19724 sent 10000 false) 1000 ;;
   LedgerService.create_customer_payment_entry 1 acme 6000 19720 "" None
     2000)%txn.

(** C2 (the code at the failing input). Both creations succeed. The payment
    is dated before the invoice, yet its balance is computed from the
    invoice's: in (transaction_date, created_at) order the stored balances
    are 40.00 then 100.00, where the recurrence from 0 requires -60.00 then
    40.00. The recurrence does not hold after this sequence of creations. *)
Theorem backdated_entry_breaks_recurrence :
  let db := snd (invoice_then_backdated_payment empty_db) in
  (exists e, fst (invoice_then_backdated_payment empty_db) = inr e)
  /\ map (fun e => (LedgerEntry.transaction_date e,
                    LedgerEntry.running_balance e))
         (party_entries 1 customer 5 db)
     = [(19720, 4000); (19724, 10000)]
  /\ map LedgerEntry.running_balance
         (rebalance 0 (party_entries 1 customer 5 db))
     = [-6000; 4000]
  /\ ~ balance_recurrence 1 customer 5 db.
Proof.
  cbv zeta. split; [eexists; reflexivity|].
  split; [reflexivity|]. split; [reflexivity|].
  unfold balance_recurrence. vm_compute. intros [H _]. discriminate H.
Qed.

(** ** Listing the outstanding customers *)

Lemma fold_left_max_spec (f : LedgerEntry.t -> Z) rest init :
  let m := fold_left (fun m x => Z.max m (f x)) rest init in
  init <= m
  /\ (forall y, In y rest -> f y <= m)
  /\ (m = init \/ exists x, In x rest /\ f x = m).
Proof.
  revert init. induction rest as [|x rest IH]; simpl; intros init.
  - repeat split; [lia | contradiction | now left].
  - destruct (IH (Z.max init (f x))) as [H1 [H2 H3]].
    repeat split.
    + lia.
    + intros y [<- | Hy]; [lia | now apply H2].
    + destruct H3 as [H3 | [z [Hz Hfz]]].
      * destruct (Z.max_spec init (f x)) as [[_ E] | [_ E]].
        -- right. exists x. split; [now left | congruence].
        -- left. congruence.
      * right. exists z. split; [now right | exact Hfz].
Qed.

Lemma Max_spec (f : LedgerEntry.t -> Z) group m :
  LedgerService.Max f group = Some m ->
  (exists x, In x group /\ f x = m) /\ forall y, In y group -> f y <= m.
Proof.
  destruct group as [|e rest]; simpl; [discriminate|].
  intros H. injection H as <-.
  destruct (fold_left_max_spec f rest (f e)) as [H1 [H2 H3]]. split.
  - destruct H3 as [H3 | [x [Hx Hfx]]].
    + exists e. split; [now left | now symmetry].
    + exists x. split; [now right | exact Hfx].
  - intros y [<- | Hy]; [exact H1 | now apply H2].
Qed.

(** The maximum of a field over a group that holds an entry carrying the
    greatest value. *)
Lemma Max_attained (f : LedgerEntry.t -> Z) group e :
  In e group -> (forall y, In y group -> f y <= f e) ->
  LedgerService.Max f group = Some (f e).
Proof.
  intros Hin Hmax.
  destruct (LedgerService.Max f group) as [m|] eqn:E.
  - apply Max_spec in E. destruct E as [[x [Hx Hfx]] Hle].
    f_equal. pose proof (Hle e Hin). pose proof (Hmax x Hx). lia.
  - destruct group; [contradiction | discriminate].
Qed.

Lemma Customer_objects_get_spec id company db c :
  Customer_objects_get id company db = Some c ->
  In c (customers db) /\ Customer.is_deleted c = false
  /\ Customer.id c = id /\ Customer.company c = company.
Proof.
  unfold Customer_objects_get. intros H. apply find_some in H.
  destruct H as [Hin H]. rewrite !andb_true_iff in H.
  destruct H as [[H1 H2] H3].
  apply negb_true_iff in H1. apply Nat.eqb_eq in H2, H3. tauto.
Qed.

Lemma Customer_objects_get_none id company db :
  Customer_objects_get id company db = None <->
  forall c, In c (customers db) ->
            ~ (Customer.id c = id /\ Customer.company c = company
               /\ Customer.is_deleted c = false).
Proof.
  unfold Customer_objects_get. split.
  - intros H c Hin [H1 [H2 H3]].
    pose proof (find_none _ _ H c Hin) as Hf. simpl in Hf.
    rewrite H1, H2, H3, !Nat.eqb_refl in Hf. discriminate.
  - intros H.
    destruct (find _ (customers db)) as [c|] eqn:E; [|reflexivity].
    apply find_some in E. destruct E as [Hin E].
    rewrite !andb_true_iff in E. destruct E as [[H1 H2] H3].
    apply negb_true_iff in H1. apply Nat.eqb_eq in H2, H3.
    exfalso. apply (H c Hin). tauto.
Qed.

(** A row of the result carries the party id of the group it came from. *)
Lemma outstanding_row_In company db info r :
  In r (LedgerService.outstanding_row company db info) ->
  LedgerService.customer_id r = LedgerService.info_party_id info
  /\ exists last_entry c,
       LedgerService.entry_at_latest company customer info (ledger_entries db)
       = Some last_entry
       /\ 0 < LedgerEntry.running_balance last_entry
       /\ Customer_objects_get (LedgerService.info_party_id info) company db
          = Some c
       /\ r = LedgerService.mkOutstanding (Customer.id c) (Customer.name c)
                (LedgerEntry.running_balance last_entry).
Proof.
  unfold LedgerService.outstanding_row.
  destruct (LedgerService.entry_at_latest company customer info
              (ledger_entries db)) as [last_entry|] eqn:E; [|contradiction].
  destruct (Z.ltb_spec 0 (LedgerEntry.running_balance last_entry))
    as [Hpos|Hneg]; [|contradiction].
  destruct (Customer_objects_get (LedgerService.info_party_id info) company db)
    as [c|] eqn:G; [|contradiction].
  intros [<- | []]. simpl. split.
  - apply Customer_objects_get_spec in G. tauto.
  - exists last_entry, c. auto.
Qed.

Lemma get_all_outstanding_customers_In company db r :
  In r (LedgerService.get_all_outstanding_customers company db) <->
  exists info,
    In info (LedgerService.latest_entries company customer (ledger_entries db))
    /\ In r (LedgerService.outstanding_row company db info).
Proof.
  unfold LedgerService.get_all_outstanding_customers.
  rewrite order_by_In, in_flat_map. reflexivity.
Qed.

(** C10. When the company has no live Customer row with primary key
    [party_id] (the row is missing or soft-deleted, so [Customer.objects.get]
    raises [DoesNotExist]), no row of the list that
    [get_all_outstanding_customers] returns is for [party_id], whatever the
    party's ledger entries are. The function returns a list on every input:
    it has no path that raises. *)
Theorem missing_customer_is_omitted (company : nat) (db : DB) (party_id : nat) :
  (forall c, In c (customers db) ->
             ~ (Customer.id c = party_id /\ Customer.company c = company
                /\ Customer.is_deleted c = false)) ->
  ~ In party_id
      (map LedgerService.customer_id
         (LedgerService.get_all_outstanding_customers company db)).
Proof.
  intros Hnone Hin. apply Customer_objects_get_none in Hnone.
  apply in_map_iff in Hin. destruct Hin as [r [Hid Hr]].
  apply get_all_outstanding_customers_In in Hr.
  destruct Hr as [info [_ Hrow]].
  apply outstanding_row_In in Hrow.
  destruct Hrow as [Hpid [last_entry [c [_ [_ [Hget _]]]]]].
  rewrite <- Hpid, Hid in Hget. congruence.
Qed.

(** Customer 5 owes 100.00 and its row is soft-deleted; customer 6 owes
    25.00 and has a live row. *)
Definition ledger_with_deleted_customer : DB :=
  mkDB
    [ LedgerEntry.mk 1 1 customer 5 invoice 10000 0 10000
        (Some InvoiceModel) (Some 7%nat) "Invoice INV-7" 19724 1000;
      LedgerEntry.mk 2 1 customer 6 invoice 2500 0 2500
        (Some InvoiceModel) (Some 8%nat) "Invoice INV-8" 19725 2000 ]
    3 [Customer.mk 5 1 "Acme" true; Customer.mk 6 1 "Bolt" false]
    [] [] 1 [] 1.

Lemma missing_customer_is_omitted_witness :
  LedgerService.get_customer_outstanding 1 5 ledger_with_deleted_customer
  = 10000
  /\ ~ In 5%nat
       (map LedgerService.customer_id
          (LedgerService.get_all_outstanding_customers 1
             ledger_with_deleted_customer)).
Proof.
  split; [reflexivity|].
  apply (@missing_customer_is_omitted 1 ledger_with_deleted_customer 5).
  simpl. intros c [<- | [<- | []]]; simpl; intros [H1 [H2 H3]]; discriminate.
Defined.

Lemma party_filter_true company party_type party_id e :
  LedgerService.party_filter company party_type party_id e = true <->
  LedgerEntry.company e = company
  /\ LedgerEntry.party_type e = party_type
  /\ LedgerEntry.party_id e = party_id.
Proof.
  unfold LedgerService.party_filter.
  rewrite !andb_true_iff, !Nat.eqb_eq, PartyType_eqb_eq. tauto.
Qed.

(** The group of one party in the listing query. *)
Definition party_group (company : nat) (party_type : PartyType)
    (party_id : nat) (rows : list LedgerEntry.t) : list LedgerEntry.t :=
  filter (fun e => Nat.eqb (LedgerEntry.party_id e) party_id)
    (filter (fun e => Nat.eqb (LedgerEntry.company e) company
                      && PartyType_eqb (LedgerEntry.party_type e) party_type)
            rows).

Lemma party_group_In company party_type party_id rows e :
  In e (party_group company party_type party_id rows) <->
  In e rows /\ LedgerEntry.company e = company
  /\ LedgerEntry.party_type e = party_type
  /\ LedgerEntry.party_id e = party_id.
Proof.
  unfold party_group.
  rewrite !filter_In, andb_true_iff, !Nat.eqb_eq, PartyType_eqb_eq. tauto.
Qed.

Lemma latest_entries_In company party_type rows info :
  In info (LedgerService.latest_entries company party_type rows) <->
  (exists e, In e rows /\ LedgerEntry.company e = company
             /\ LedgerEntry.party_type e = party_type
             /\ LedgerEntry.party_id e = LedgerService.info_party_id info)
  /\ info
     = LedgerService.mkEntryInfo (LedgerService.info_party_id info)
         (LedgerService.Max LedgerEntry.transaction_date
            (party_group company party_type
               (LedgerService.info_party_id info) rows))
         (LedgerService.Max LedgerEntry.created_at
            (party_group company party_type
               (LedgerService.info_party_id info) rows)).
Proof.
  unfold LedgerService.latest_entries, party_group.
  rewrite in_map_iff. split.
  - intros [pid [<- Hin]]. simpl. apply nodup_In in Hin.
    apply in_map_iff in Hin. destruct Hin as [e [<- He]].
    apply filter_In in He. destruct He as [He Hp].
    apply andb_true_iff in Hp. destruct Hp as [Hc Ht].
    apply Nat.eqb_eq in Hc. apply PartyType_eqb_eq in Ht.
    split; [|reflexivity]. exists e. tauto.
  - intros [[e [He [Hc [Ht Hp]]]] Hinfo].
    exists (LedgerService.info_party_id info). split; [now symmetry|].
    apply nodup_In. rewrite <- Hp. apply in_map. apply filter_In.
    split; [exact He|]. apply andb_true_iff.
    split; [now apply Nat.eqb_eq | now apply PartyType_eqb_eq].
Qed.

Section LatestEntry.
Variables (company : nat) (db : DB) (e : LedgerEntry.t).
Hypothesis e_in : In e (ledger_entries db).
Hypothesis e_company : LedgerEntry.company e = company.
Hypothesis e_customer : LedgerEntry.party_type e = customer.
Hypothesis e_latest :
  forall e', In e' (ledger_entries db) ->
    LedgerEntry.company e' = company ->
    LedgerEntry.party_type e' = customer ->
    LedgerEntry.party_id e' = LedgerEntry.party_id e ->
    LedgerEntry.transaction_date e' <= LedgerEntry.transaction_date e
    /\ LedgerEntry.created_at e' <= LedgerEntry.created_at e.
Hypothesis e_only :
  forall e', In e' (ledger_entries db) ->
    LedgerEntry.company e' = company ->
    LedgerEntry.party_type e' = customer ->
    LedgerEntry.party_id e' = LedgerEntry.party_id e ->
    LedgerEntry.transaction_date e' = LedgerEntry.transaction_date e ->
    LedgerEntry.created_at e' = LedgerEntry.created_at e ->
    e' = e.

Let info_e : LedgerService.EntryInfo :=
  LedgerService.mkEntryInfo (LedgerEntry.party_id e)
    (Some (LedgerEntry.transaction_date e))
    (Some (LedgerEntry.created_at e)).

Lemma latest_entries_of_latest info :
  In info (LedgerService.latest_entries company customer (ledger_entries db)) ->
  LedgerService.info_party_id info = LedgerEntry.party_id e ->
  info = info_e.
Proof.
  intros Hin Hpid. apply latest_entries_In in Hin.
  destruct Hin as [_ ->]. rewrite Hpid. unfold info_e.
  assert (Hg : In e (party_group company customer (LedgerEntry.party_id e)
                       (ledger_entries db))).
  { apply party_group_In. tauto. }
  f_equal.
  - apply Max_attained; [exact Hg|]. intros y Hy.
    apply party_group_In in Hy. destruct Hy as [Hy [Hc [Ht Hp]]].
    destruct (e_latest _ Hy Hc Ht Hp) as [H _]. exact H.
  - apply Max_attained; [exact Hg|]. intros y Hy.
    apply party_group_In in Hy. destruct Hy as [Hy [Hc [Ht Hp]]].
    destruct (e_latest _ Hy Hc Ht Hp) as [_ H]. exact H.
Qed.

Lemma latest_entries_has_latest :
  In info_e (LedgerService.latest_entries company customer (ledger_entries db)).
Proof.
  assert (H : exists info,
             In info (LedgerService.latest_entries company customer
                        (ledger_entries db))
             /\ LedgerService.info_party_id info = LedgerEntry.party_id e).
  { eexists (LedgerService.mkEntryInfo (LedgerEntry.party_id e) _ _).
    split; [|reflexivity]. apply latest_entries_In. simpl. split.
    - exists e. tauto.
    - reflexivity. }
  destruct H as [info [Hin Hpid]].
  now rewrite <- (latest_entries_of_latest info Hin Hpid).
Qed.

Lemma entry_at_latest_of_latest :
  LedgerService.entry_at_latest company customer info_e (ledger_entries db)
  = Some e.
Proof.
  unfold LedgerService.entry_at_latest.
  match goal with |- first (order_by _ ?l) = _ => set (L := l) end.
  assert (HL : forall x, In x L <-> x = e).
  { intros x. unfold L. rewrite filter_In, !andb_true_iff, party_filter_true.
    simpl. rewrite !Z.eqb_eq. split.
    - intros [Hx [[[Hc [Ht Hp]] Hd] Hcr]].
      now apply e_only.
    - intros ->. tauto. }
  destruct (order_by LedgerEntry.key_leb L) as [|x s] eqn:E.
  - apply order_by_nil_iff in E. exfalso.
    assert (In e L) by now apply HL. rewrite E in H. contradiction.
  - simpl. f_equal. apply HL. apply (order_by_In LedgerEntry.key_leb).
    rewrite E. now left.
Qed.

Lemma listed_iff_latest_positive :
  In (LedgerEntry.party_id e)
     (map LedgerService.customer_id
        (LedgerService.get_all_outstanding_customers company db))
  <-> 0 < LedgerEntry.running_balance e
      /\ exists c, Customer_objects_get (LedgerEntry.party_id e) company db
                   = Some c.
Proof.
  split.
  - intros Hin. apply in_map_iff in Hin. destruct Hin as [r [Hid Hr]].
    apply get_all_outstanding_customers_In in Hr.
    destruct Hr as [info [Hinfo Hrow]].
    apply outstanding_row_In in Hrow.
    destruct Hrow as [Hpid [last_entry [c [Hlast [Hpos [Hget _]]]]]].
    rewrite Hid in Hpid. symmetry in Hpid.
    rewrite (latest_entries_of_latest info Hinfo Hpid) in Hlast, Hget.
    rewrite entry_at_latest_of_latest in Hlast. injection Hlast as <-.
    split; [exact Hpos|]. exists c. exact Hget.
  - intros [Hpos [c Hget]].
    apply in_map_iff.
    exists (LedgerService.mkOutstanding (Customer.id c) (Customer.name c)
              (LedgerEntry.running_balance e)).
    split.
    + simpl. apply Customer_objects_get_spec in Hget. tauto.
    + apply get_all_outstanding_customers_In. exists info_e.
      split; [apply latest_entries_has_latest|].
      unfold LedgerService.outstanding_row.
      rewrite entry_at_latest_of_latest.
      apply Z.ltb_lt in Hpos. rewrite Hpos.
      unfold info_e at 1. simpl. rewrite Hget. now left.
Qed.

Lemma listed_balance_of_latest r :
  In r (LedgerService.get_all_outstanding_customers company db) ->
  LedgerService.customer_id r = LedgerEntry.party_id e ->
  LedgerService.balance r = LedgerEntry.running_balance e.
Proof.
  intros Hr Hid. apply get_all_outstanding_customers_In in Hr.
  destruct Hr as [info [Hinfo Hrow]].
  apply outstanding_row_In in Hrow.
  destruct Hrow as [Hpid [last_entry [c [Hlast [_ [_ ->]]]]]].
  rewrite Hid in Hpid. symmetry in Hpid.
  rewrite (latest_entries_of_latest info Hinfo Hpid) in Hlast.
  rewrite entry_at_latest_of_latest in Hlast. injection Hlast as <-.
  reflexivity.
Qed.

End LatestEntry.

Lemma balance_geb_total a b :
  LedgerService.balance_geb a b = false -> LedgerService.balance_geb b a = true.
Proof.
  unfold LedgerService.balance_geb. rewrite Z.leb_gt, Z.leb_le. lia.
Qed.

Lemma balance_geb_trans a b c :
  LedgerService.balance_geb a b = true -> LedgerService.balance_geb b c = true ->
  LedgerService.balance_geb a c = true.
Proof.
  unfold LedgerService.balance_geb. rewrite !Z.leb_le. lia.
Qed.

Lemma StronglySorted_weaken {A : Type} (R S : A -> A -> Prop) l :
  (forall a b, R a b -> S a b) -> StronglySorted R l -> StronglySorted S l.
Proof.
  intros HRS. induction 1 as [|x l Hs IH Hall]; constructor; auto.
  eapply Forall_impl; [|exact Hall]. intros b. apply HRS.
Qed.

Lemma get_all_outstanding_customers_sorted company db :
  StronglySorted
    (fun a b => LedgerService.balance b <= LedgerService.balance a)
    (LedgerService.get_all_outstanding_customers company db).
Proof.
  unfold LedgerService.get_all_outstanding_customers.
  eapply StronglySorted_weaken;
    [| apply order_by_sorted;
       [exact balance_geb_total | exact balance_geb_trans]].
  intros a b. unfold LedgerService.balance_geb. apply Z.leb_le.
Qed.

(** C7 (as amended). Let [e] be a customer entry of the company that
    carries both the party's latest transaction date and the party's latest
    creation time, and is the party's only entry with that pair. Then
    [get_all_outstanding_customers] lists the party exactly when [e]'s
    running balance is positive and the company has a live Customer row with
    the party's id, the listed balance is [e]'s running balance, and the
    list is sorted by balance, descending. *)
Theorem outstanding_customers_listing
    (company : nat) (db : DB) (e : LedgerEntry.t) :
  In e (ledger_entries db) ->
  LedgerEntry.company e = company ->
  LedgerEntry.party_type e = customer ->
  (forall e', In e' (ledger_entries db) ->
     LedgerEntry.company e' = company ->
     LedgerEntry.party_type e' = customer ->
     LedgerEntry.party_id e' = LedgerEntry.party_id e ->
     LedgerEntry.transaction_date e' <= LedgerEntry.transaction_date e
     /\ LedgerEntry.created_at e' <= LedgerEntry.created_at e) ->
  (forall e', In e' (ledger_entries db) ->
     LedgerEntry.company e' = company ->
     LedgerEntry.party_type e' = customer ->
     LedgerEntry.party_id e' = LedgerEntry.party_id e ->
     LedgerEntry.transaction_date e' = LedgerEntry.transaction_date e ->
     LedgerEntry.created_at e' = LedgerEntry.created_at e ->
     e' = e) ->
  StronglySorted
    (fun a b => LedgerService.balance b <= LedgerService.balance a)
    (LedgerService.get_all_outstanding_customers company db)
  /\ (In (LedgerEntry.party_id e)
         (map LedgerService.customer_id
            (LedgerService.get_all_outstanding_customers company db))
      <-> 0 < LedgerEntry.running_balance e
          /\ exists c, In c (customers db)
                       /\ Customer.id c = LedgerEntry.party_id e
                       /\ Customer.company c = company
                       /\ Customer.is_deleted c = false)
  /\ (forall r,
        In r (LedgerService.get_all_outstanding_customers company db) ->
        LedgerService.customer_id r = LedgerEntry.party_id e ->
        LedgerService.balance r = LedgerEntry.running_balance e).
Proof.
  intros Hin Hc Ht Hlatest Honly. split; [|split].
  - apply get_all_outstanding_customers_sorted.
  - rewrite (listed_iff_latest_positive db Hin Hc Ht Hlatest Honly).
    split; intros [Hpos [c Hcust]]; (split; [exact Hpos|]).
    + exists c. apply Customer_objects_get_spec in Hcust. tauto.
    + destruct (Customer_objects_get (LedgerEntry.party_id e) company db)
        as [c'|] eqn:G; [now exists c'|].
      exfalso.
      apply (proj1 (Customer_objects_get_none _ _ _) G c); tauto.
  - intros r. now apply listed_balance_of_latest.
Qed.

Definition bolt_entry : LedgerEntry.t :=
  LedgerEntry.mk 2 1 customer 6 invoice 2500 0 2500
    (Some InvoiceModel) (Some 8%nat) "Invoice INV-8" 19725 2000.

Lemma outstanding_customers_listing_witness :
  StronglySorted
    (fun a b => LedgerService.balance b <= LedgerService.balance a)
    (LedgerService.get_all_outstanding_customers 1
       ledger_with_deleted_customer)
  /\ (In (LedgerEntry.party_id bolt_entry)
         (map LedgerService.customer_id
            (LedgerService.get_all_outstanding_customers 1
               ledger_with_deleted_customer))
      <-> 0 < LedgerEntry.running_balance bolt_entry
          /\ exists c, In c (customers ledger_with_deleted_customer)
                       /\ Customer.id c = LedgerEntry.party_id bolt_entry
                       /\ Customer.company c = 1%nat
                       /\ Customer.is_deleted c = false)
  /\ (forall r,
        In r (LedgerService.get_all_outstanding_customers 1
                ledger_with_deleted_customer) ->
        LedgerService.customer_id r = LedgerEntry.party_id bolt_entry ->
        LedgerService.balance r = LedgerEntry.running_balance bolt_entry).
Proof.
  apply (@outstanding_customers_listing 1 ledger_with_deleted_customer
           bolt_entry).
  - simpl. right. now left.
  - reflexivity.
  - reflexivity.
  - simpl. intros e' [<- | [<- | []]] _ _ Hp.
    + discriminate Hp.
    + simpl. lia.
  - simpl. intros e' [<- | [<- | []]] _ _ Hp _ _.
    + discriminate Hp.
    + reflexivity.
Defined.

(** C7 (counterexample to the claim as stated). Customer 5 has a ledger
    entry, its latest entry has the positive running balance 100.00, and
    the customer is not in the list: its Customer row is soft-deleted. *)
Lemma outstanding_customers_counterexample :
  (exists e,
     LedgerService.select_last_entry 1 customer 5
       (ledger_entries ledger_with_deleted_customer) = Some e
     /\ 0 < LedgerEntry.running_balance e)
  /\ LedgerService.get_all_outstanding_customers 1
       ledger_with_deleted_customer
     = [LedgerService.mkOutstanding 6 "Bolt" 2500].
Proof.
  split; [|reflexivity].
  eexists. split; [reflexivity|]. simpl. lia.
Qed.

(** The two maxima of the listing query are taken independently. An invoice
    entry dated day 19728 and then one dated day 19724 leave a customer whose
    latest transaction date and latest creation time belong to different
    entries: no entry matches both, and the customer, who owes 100.00 by
    [get_customer_outstanding], is not listed. *)
Definition two_invoices_second_backdated : M LedgerEntry.t :=
  (_ <- LedgerService.create_customer_invoice_entry 1 acme
          (Invoice.mk 7 1 "INV-7" 5 19728 sent 10000 false) 1000 ;;
   LedgerService.create_customer_invoice_entry 1 acme
     (Invoice.mk 8 1 "INV-8" 5 19724 sent 6000 false) 2000)%txn.

Example independent_maxima_drop_customer :
  let db :=
    snd (two_invoices_second_backdated
           (mkDB [] 1 [acme] [] [] 1 [] 1)) in
  LedgerService.latest_entries 1 customer (ledger_entries db)
  = [LedgerService.mkEntryInfo 5 (Some 19728) (Some 2000)]
  /\ LedgerService.get_customer_outstanding 1 5 db = 10000
  /\ LedgerService.get_all_outstanding_customers 1 db = [].
Proof. repeat split; reflexivity. Qed.

(** ** Transactions *)

Lemma bind_inr_inv {A B : Type} (m : M A) (k : A -> M B) db b db' :
  bind m k db = (inr b, db') ->
  exists a db1, m db = (inr a, db1) /\ k a db1 = (inr b, db').
Proof.
  unfold bind. destruct (m db) as [[ex|a] db1]; [discriminate|].
  intros H. now exists a, db1.
Qed.

Lemma atomic_inr_inv {A : Type} (m : M A) db a db' :
  atomic m db = (inr a, db') -> m db = (inr a, db').
Proof.
  unfold atomic. destruct (m db) as [[ex|a0] db1]; [discriminate|].
  intros H. exact H.
Qed.

(** A computation that writes neither ledger rows nor the ledger sequence,
    whether it returns or raises. *)
Definition keeps_ledger {A : Type} (m : M A) : Prop :=
  forall db r db', m db = (r, db') ->
    ledger_entries db' = ledger_entries db /\ ledger_seq db' = ledger_seq db.

Lemma keeps_ledger_ret {A : Type} (a : A) : keeps_ledger (ret a).
Proof. intros db r db' H. injection H as _ <-. auto. Qed.

Lemma keeps_ledger_bind {A B : Type} (m : M A) (k : A -> M B) :
  keeps_ledger m -> (forall a, keeps_ledger (k a)) -> keeps_ledger (bind m k).
Proof.
  intros Hm Hk db r db'. unfold bind.
  destruct (m db) as [[ex|a] db1] eqn:E; intros H.
  - injection H as _ <-. eapply Hm; eauto.
  - destruct (Hm _ _ _ E) as [H1 H2]. destruct (Hk a _ _ _ H) as [H3 H4].
    split; congruence.
Qed.

Lemma keeps_ledger_get {A : Type} (k : DB -> M A) :
  (forall d, keeps_ledger (k d)) -> keeps_ledger (bind get_db k).
Proof.
  intros Hk. apply keeps_ledger_bind; [|exact Hk].
  intros db r db' H. injection H as _ <-. auto.
Qed.

Lemma keeps_ledger_Payment_save company customer_id number date amount method :
  keeps_ledger (Payment_save company customer_id number date amount method).
Proof.
  intros db r db'. unfold Payment_save.
  destruct (existsb _ _); intros H; injection H as _ <-; auto.
Qed.

Lemma keeps_ledger_allocation_create p inv amount :
  keeps_ledger (PaymentAllocation_objects_create p inv amount).
Proof.
  intros db r db'. unfold PaymentAllocation_objects_create.
  destruct (existsb _ _); intros H; injection H as _ <-; auto.
Qed.

Lemma keeps_ledger_Invoice_save inv : keeps_ledger (Invoice_save inv).
Proof. intros db r db' H. injection H as _ <-. auto. Qed.

Lemma keeps_ledger_allocate_selected p selected l :
  keeps_ledger (PaymentCreateView.allocate_selected p selected l).
Proof.
  unfold PaymentCreateView.allocate_selected.
  destruct selected as [inv|]; [|apply keeps_ledger_ret].
  apply keeps_ledger_get. intros d. cbv zeta.
  destruct (0 <? _); [|apply keeps_ledger_ret].
  apply keeps_ledger_bind; [apply keeps_ledger_allocation_create|].
  intros _. apply keeps_ledger_ret.
Qed.

Lemma keeps_ledger_allocate_manual company p selected items l :
  keeps_ledger
    (PaymentCreateView.allocate_manual company p selected items l).
Proof.
  revert l. induction items as [|[invoice_id amount] rest IH]; intros l; simpl.
  - apply keeps_ledger_ret.
  - destruct (PaymentCreateView.is_selected selected invoice_id); [apply IH|].
    destruct (0 <? amount); [|apply IH].
    apply keeps_ledger_get. intros d.
    destruct (Invoice_objects_get _ _ _ d); [|apply IH].
    apply keeps_ledger_bind; [apply keeps_ledger_allocation_create|].
    intros _. apply IH.
Qed.

Lemma keeps_ledger_allocate_fifo p invs remaining :
  keeps_ledger (PaymentCreateView.allocate_fifo p invs remaining).
Proof.
  revert remaining. induction invs as [|inv rest IH]; intros remaining; simpl.
  - apply keeps_ledger_ret.
  - destruct (remaining <=? 0); [apply keeps_ledger_ret|].
    apply keeps_ledger_get. intros d. cbv zeta.
    destruct (_ <=? 0); [apply IH|].
    apply keeps_ledger_bind; [apply keeps_ledger_allocation_create|].
    intros _. apply IH.
Qed.

Lemma keeps_ledger_update_invoice_statuses allocs :
  keeps_ledger (PaymentCreateView.update_invoice_statuses allocs).
Proof.
  induction allocs as [|a rest IH]; simpl.
  - apply keeps_ledger_ret.
  - apply keeps_ledger_get. intros d.
    destruct (find _ (invoices d)) as [inv|]; [|exact IH].
    cbv zeta. apply keeps_ledger_bind; [|intros _; exact IH].
    destruct (_ && _); [apply keeps_ledger_Invoice_save | apply keeps_ledger_ret].
Qed.

(** What a successful [_create_entry] wrote. *)
Lemma create_entry_inr company party_type party_id entry_type debit credit
    transaction_date description reference_object now db e db' :
  LedgerService._create_entry company party_type party_id entry_type debit
    credit transaction_date description reference_object now db
  = (inr e, db') ->
  db' = set_ledger db (ledger_entries db ++ [e]) (S (ledger_seq db))
  /\ LedgerEntry.company e = company
  /\ LedgerEntry.party_type e = party_type
  /\ LedgerEntry.party_id e = party_id
  /\ LedgerEntry.entry_type e = entry_type
  /\ LedgerEntry.debit e = debit
  /\ LedgerEntry.credit e = credit
  /\ LedgerEntry.transaction_date e = transaction_date
  /\ LedgerEntry.reference_type e = option_map model_class reference_object
  /\ LedgerEntry.reference_id e = option_map pk reference_object
  /\ LedgerEntry.running_balance e
     = Concurrent.previous_balance
         (LedgerService.select_last_entry company party_type party_id
            (ledger_entries db))
       + debit - credit.
Proof.
  intros H. apply atomic_inr_inv in H.
  unfold bind, get_db, LedgerService.insert_after,
    LedgerEntry_objects_create in H.
  destruct (violates_unique_reference_entry _ _); [discriminate|].
  injection H as <- <-. simpl.
  repeat split; destruct reference_object; reflexivity.
Qed.

(** ** Recording a payment *)

Lemma Payment_save_inr company customer_id number date amount method db p db' :
  Payment_save company customer_id number date amount method db = (inr p, db') ->
  p = Payment.mk (payment_seq db) company customer_id number date amount
        method false
  /\ db' = set_payments db (payments db ++ [p]) (S (payment_seq db)).
Proof.
  unfold Payment_save. destruct (existsb _ _); [discriminate|].
  intros H. injection H as <- <-. auto.
Qed.

(** The ledger entry of a recorded payment: a credit of the customer for
    the full amount, linked to the Payment row. *)
Definition is_payment_entry_of (p : Payment.t) (e : LedgerEntry.t) : Prop :=
  LedgerEntry.company e = Payment.company p
  /\ LedgerEntry.party_type e = customer
  /\ LedgerEntry.party_id e = Payment.customer p
  /\ LedgerEntry.entry_type e = payment
  /\ LedgerEntry.debit e = 0
  /\ LedgerEntry.credit e = Payment.amount p
  /\ LedgerEntry.transaction_date e = Payment.payment_date p
  /\ LedgerEntry.reference_type e = Some PaymentModel
  /\ LedgerEntry.reference_id e = Some (Payment.id p).

(** Every payment recording that completes has appended exactly one row to
    the ledger, the payment entry, whichever way the allocations were
    chosen. *)
Lemma form_valid_one_ledger_entry company form number now db p db' :
  PaymentCreateView.form_valid company form number now db = (inr p, db') ->
  Payment.amount p = PaymentCreateView.form_amount form
  /\ Payment.customer p = Customer.id (PaymentCreateView.form_customer form)
  /\ exists entry,
       ledger_entries db' = ledger_entries db ++ [entry]
       /\ is_payment_entry_of p entry.
Proof.
  intros H. unfold PaymentCreateView.form_valid in H.
  apply atomic_inr_inv in H.
  apply bind_inr_inv in H. destruct H as [self [d1 [Hsave H]]].
  apply bind_inr_inv in H. destruct H as [l1 [d2 [Hsel H]]].
  apply bind_inr_inv in H. destruct H as [l2 [d3 [Hman H]]].
  apply bind_inr_inv in H. destruct H as [rem [d4 [Hfifo H]]].
  apply bind_inr_inv in H. destruct H as [entry [d5 [Hentry H]]].
  apply bind_inr_inv in H. destruct H as [d5' [d5'' [Hget H]]].
  injection Hget as <- <-.
  apply bind_inr_inv in H. destruct H as [u [d6 [Hupd H]]].
  injection H as <- <-.
  destruct (keeps_ledger_Payment_save _ _ _ _ _ _ _ Hsave) as [L1 _].
  destruct (keeps_ledger_allocate_selected _ _ _ _ Hsel) as [L2 _].
  destruct (keeps_ledger_allocate_manual _ _ _ _ _ _ Hman) as [L3 _].
  assert (L4 : ledger_entries d4 = ledger_entries d3).
  { destruct (negb (PaymentCreateView.allocations_made l2)).
    - apply bind_inr_inv in Hfifo. destruct Hfifo as [d [d' [Hg Hf]]].
      injection Hg as <- <-.
      now destruct (keeps_ledger_allocate_fifo _ _ _ _ Hf).
    - now injection Hfifo as _ <-. }
  destruct (keeps_ledger_update_invoice_statuses _ _ Hupd) as [L6 _].
  apply Payment_save_inr in Hsave. destruct Hsave as [Hself _].
  unfold LedgerService.create_customer_payment_entry in Hentry.
  apply create_entry_inr in Hentry.
  destruct Hentry as [-> [E1 [E2 [E3 [E4 [E5 [E6 [E7 [E8 [E9 _]]]]]]]]]].
  split; [now rewrite Hself|]. split; [now rewrite Hself|].
  exists entry. split.
  - rewrite L6. simpl. congruence.
  - unfold is_payment_entry_of. rewrite E1, E2, E3, E4, E5, E6, E7, E8, E9.
    rewrite Hself. simpl. repeat split; reflexivity.
Qed.

(** The allocation rows an INSERT sequence starting at primary key [seq]
    writes for the pairs (invoice, amount). *)
Fixpoint allocation_rows (payment_id seq : nat) (l : list (nat * Decimal))
    : list PaymentAllocation.t :=
  match l with
  | [] => []
  | (invoice_id, amount) :: rest =>
      PaymentAllocation.mk seq payment_id invoice_id amount
      :: allocation_rows payment_id (S seq) rest
  end.

(** An invoice with what is outstanding on it in [db]. *)
Definition outstanding_of (db : DB) (i : Invoice.t) : nat * Decimal :=
  (Invoice.id i, Invoice.total_amount i - invoice_paid_total (Invoice.id i) db).

Lemma existsb_false_iff {A : Type} (f : A -> bool) l :
  existsb f l = false <-> forall x, In x l -> f x = false.
Proof.
  induction l as [|y l IH]; simpl.
  - split; [intros _ x [] | reflexivity].
  - rewrite orb_false_iff, IH. split.
    + intros [Hy Hl] x [<- | Hx]; auto.
    + intros H. split; [apply H; now left | intros x Hx; apply H; now right].
Qed.

Lemma set_allocations_same db :
  set_allocations db (allocations db ++ []) (allocation_seq db + 0) = db.
Proof. rewrite app_nil_r, Nat.add_0_r. now destruct db. Qed.

Lemma invoice_paid_total_other db row seq invoice_id :
  PaymentAllocation.invoice row <> invoice_id ->
  invoice_paid_total invoice_id
    (set_allocations db (allocations db ++ [row]) seq)
  = invoice_paid_total invoice_id db.
Proof.
  intros Hne. unfold invoice_paid_total. simpl.
  rewrite filter_app. simpl.
  destruct (Nat.eqb_spec (PaymentAllocation.invoice row) invoice_id);
    [contradiction|].
  now rewrite app_nil_r.
Qed.

(** The FIFO loop allocates what [fifo_spec] says, computed from what is
    outstanding when the loop starts. *)
Lemma allocate_fifo_run p invs remaining db :
  NoDup (map Invoice.id invs) ->
  (forall a, In a (allocations db) ->
             PaymentAllocation.payment a = Payment.id p ->
             ~ In (PaymentAllocation.invoice a) (map Invoice.id invs)) ->
  exists remaining',
    PaymentCreateView.allocate_fifo p invs remaining db
    = (inr remaining',
       set_allocations db
         (allocations db
          ++ allocation_rows (Payment.id p) (allocation_seq db)
               (fifo_spec remaining (map (outstanding_of db) invs)))
         (allocation_seq db
          + List.length (allocation_rows (Payment.id p) (allocation_seq db)
                      (fifo_spec remaining (map (outstanding_of db) invs))))).
Proof.
  revert remaining db.
  induction invs as [|inv rest IH]; intros remaining db Hnd Hfresh.
  - exists remaining. simpl. unfold ret. now rewrite set_allocations_same.
  - simpl. inversion Hnd as [|? ? Hnotin Hnd']; subst.
    destruct (remaining <=? 0) eqn:Hrem.
    + exists remaining. simpl. unfold ret. now rewrite set_allocations_same.
    + unfold bind at 1, get_db at 1. cbv zeta.
      destruct (Invoice.total_amount inv
                - invoice_paid_total (Invoice.id inv) db <=? 0) eqn:Hout.
      * apply IH; [exact Hnd'|].
        intros a Ha Hp Hin. apply (Hfresh a Ha Hp). now right.
      * unfold bind at 1, PaymentAllocation_objects_create at 1.
        assert (Hnew :
          existsb (fun a => Nat.eqb (PaymentAllocation.payment a) (Payment.id p)
                            && Nat.eqb (PaymentAllocation.invoice a)
                                 (Invoice.id inv))
                  (allocations db) = false).
        { apply existsb_false_iff. intros a Ha.
          apply andb_false_iff.
          destruct (Nat.eqb_spec (PaymentAllocation.payment a) (Payment.id p))
            as [Hp|Hp]; [right | now left].
          apply Nat.eqb_neq. intros Hi.
          apply (Hfresh a Ha Hp). left. now symmetry. }
        rewrite Hnew.
        set (to_allocate :=
               Z.min remaining
                 (Invoice.total_amount inv
                  - invoice_paid_total (Invoice.id inv) db)).
        set (row := PaymentAllocation.mk (allocation_seq db) (Payment.id p)
                      (Invoice.id inv) to_allocate).
        set (db1 := set_allocations db (allocations db ++ [row])
                      (S (allocation_seq db))).
        destruct (IH (remaining - to_allocate) db1 Hnd') as [r' Hr'].
        { intros a Ha Hp Hin. unfold db1 in Ha. simpl in Ha.
          apply in_app_or in Ha. destruct Ha as [Ha | [<- | []]].
          - apply (Hfresh a Ha Hp). now right.
          - simpl in Hin. contradiction. }
        exists r'. rewrite Hr'.
        assert (Hmap : map (outstanding_of db1) rest
                       = map (outstanding_of db) rest).
        { apply map_ext_in. intros i Hi. unfold outstanding_of, db1.
          rewrite invoice_paid_total_other; [reflexivity|].
          simpl. intros E. apply Hnotin. rewrite E. now apply in_map. }
        rewrite Hmap. unfold db1. simpl.
        fold to_allocate. fold row.
        unfold set_allocations. simpl. f_equal. f_equal.
        -- now rewrite <- app_assoc.
        -- lia.
Qed.

Lemma update_invoice_statuses_total allocs db :
  exists db',
    PaymentCreateView.update_invoice_statuses allocs db = (inr tt, db')
    /\ allocations db' = allocations db
    /\ ledger_entries db' = ledger_entries db.
Proof.
  revert db. induction allocs as [|a rest IH]; intros db; simpl.
  - exists db. auto.
  - unfold bind at 1, get_db at 1.
    destruct (find _ (invoices db)) as [inv|]; [|apply IH].
    cbv zeta. unfold bind.
    destruct (_ && _).
    + unfold Invoice_save at 1.
      destruct (IH (set_invoices db
                      (map (fun i => if Nat.eqb (Invoice.id i)
                                          (Invoice.id (Invoice.set_status inv paid))
                                     then Invoice.set_status inv paid else i)
                           (invoices db)))) as [db' [H1 [H2 H3]]].
      exists db'. rewrite H1. auto.
    + unfold ret at 1. apply IH.
Qed.

Lemma unpaid_invoices_In p db i :
  In i (PaymentCreateView.unpaid_invoices p db) <->
  In i (invoices db)
  /\ Invoice.is_deleted i = false
  /\ Invoice.company i = Payment.company p
  /\ Invoice.customer i = Payment.customer p
  /\ Invoice.status i = sent.
Proof.
  unfold PaymentCreateView.unpaid_invoices.
  rewrite order_by_In, filter_In, !andb_true_iff, negb_true_iff, !Nat.eqb_eq.
  assert (Hs : InvoiceStatus_eqb (Invoice.status i) sent = true
               <-> Invoice.status i = sent).
  { destruct (Invoice.status i); simpl; split; congruence. }
  rewrite Hs. tauto.
Qed.

Lemma unpaid_invoices_sorted p db :
  StronglySorted (fun a b => Invoice.date a <= Invoice.date b)
    (PaymentCreateView.unpaid_invoices p db).
Proof.
  unfold PaymentCreateView.unpaid_invoices.
  eapply StronglySorted_weaken; [| apply order_by_sorted].
  - intros a b H. apply Z.leb_le. exact H.
  - intros a b. simpl. rewrite Z.leb_gt, Z.leb_le. lia.
  - intros a b c. simpl. rewrite !Z.leb_le. lia.
Qed.

Lemma unpaid_invoices_unique p db :
  NoDup (map Invoice.id (invoices db)) ->
  NoDup (map Invoice.id (PaymentCreateView.unpaid_invoices p db)).
Proof.
  intros Hnd. unfold PaymentCreateView.unpaid_invoices.
  eapply Permutation_NoDup.
  - apply Permutation_map, Permutation_sym, order_by_perm.
  - now apply NoDup_map_filter.
Qed.

Lemma bind_inr {A B : Type} (m : M A) (k : A -> M B) db a db1 :
  m db = (inr a, db1) -> bind m k db = k a db1.
Proof. intros H. unfold bind. now rewrite H. Qed.

Lemma atomic_inr {A : Type} (m : M A) db a db' :
  m db = (inr a, db') -> atomic m db = (inr a, db').
Proof. intros H. unfold atomic. now rewrite H. Qed.

(** Running one [bind] whose first computation is known to return. *)
Ltac run_step H := erewrite bind_inr; [| exact H].
Ltac run_pure := erewrite bind_inr; [| reflexivity].

Lemma same_reference_entry_true r e :
  same_reference_entry r e = true ->
  LedgerEntry.reference_type r = LedgerEntry.reference_type e
  /\ LedgerEntry.reference_id r = LedgerEntry.reference_id e
  /\ LedgerEntry.entry_type r = LedgerEntry.entry_type e
  /\ LedgerEntry.reference_type r <> None.
Proof.
  unfold same_reference_entry, option_nat_eqb.
  destruct (LedgerEntry.reference_type r) as [ct|],
           (LedgerEntry.reference_type e) as [ct'|]; try discriminate.
  destruct (LedgerEntry.reference_id r) as [i|],
           (LedgerEntry.reference_id e) as [i'|];
    rewrite ?andb_false_r; try discriminate.
  rewrite !andb_true_iff, ContentType_eqb_eq, Nat.eqb_eq, EntryType_eqb_eq.
  intros [[-> ->] ->]. repeat split; congruence.
Qed.

(** The FIFO branch of [form_valid], on a database that is well formed
    around the new payment. *)
Lemma form_valid_fifo company form number now db :
  PaymentCreateView.form_invoice form = None ->
  PaymentCreateView.manual form = [] ->
  (forall q, In q (payments db) -> Payment.payment_number q <> number) ->
  (forall a, In a (allocations db) ->
             PaymentAllocation.payment a <> payment_seq db) ->
  NoDup (map Invoice.id (invoices db)) ->
  (forall e, In e (ledger_entries db) ->
             ~ (LedgerEntry.reference_type e = Some PaymentModel
                /\ LedgerEntry.reference_id e = Some (payment_seq db)
                /\ LedgerEntry.entry_type e = payment)) ->
  exists p db',
    PaymentCreateView.form_valid company form number now db = (inr p, db')
    /\ p = Payment.mk (payment_seq db) company
             (Customer.id (PaymentCreateView.form_customer form)) number
             (PaymentCreateView.form_payment_date form)
             (PaymentCreateView.form_amount form)
             (PaymentCreateView.form_payment_method form) false
    /\ allocations db'
       = allocations db
         ++ allocation_rows (Payment.id p) (allocation_seq db)
              (fifo_spec (PaymentCreateView.form_amount form)
                 (map (outstanding_of db)
                      (PaymentCreateView.unpaid_invoices p db))).
Proof.
  intros Hinv Hman Hnum Halloc Hinvs Hledger.
  set (p := Payment.mk (payment_seq db) company
              (Customer.id (PaymentCreateView.form_customer form)) number
              (PaymentCreateView.form_payment_date form)
              (PaymentCreateView.form_amount form)
              (PaymentCreateView.form_payment_method form) false).
  set (d1 := set_payments db (payments db ++ [p]) (S (payment_seq db))).
  assert (Hsave :
    Payment_save company
      (Customer.id (PaymentCreateView.form_customer form)) number
      (PaymentCreateView.form_payment_date form)
      (PaymentCreateView.form_amount form)
      (PaymentCreateView.form_payment_method form) db = (inr p, d1)).
  { unfold Payment_save.
    rewrite (proj2 (existsb_false_iff _ _)); [reflexivity|].
    intros q Hq. apply String.eqb_neq. now apply Hnum. }
  destruct (allocate_fifo_run p (PaymentCreateView.unpaid_invoices p d1)
              (Payment.amount p) d1) as [r' Hfifo].
  { now apply unpaid_invoices_unique. }
  { intros a Ha Hp. exfalso. apply (Halloc a Ha). exact Hp. }
  set (d4 := set_allocations d1 _ _) in Hfifo.
  assert (Hcreate : exists entry d5,
    LedgerService.create_customer_payment_entry (Payment.company p)
      (PaymentCreateView.form_customer form) (Payment.amount p)
      (Payment.payment_date p) (PaymentCreateView.payment_description p)
      (Some (mkInstance PaymentModel (Payment.id p))) now d4
    = (inr entry, d5)
    /\ allocations d5 = allocations d4).
  { unfold LedgerService.create_customer_payment_entry,
      LedgerService._create_entry.
    eexists. eexists. split.
    - apply atomic_inr. unfold bind, get_db, LedgerService.insert_after,
        LedgerEntry_objects_create, violates_unique_reference_entry.
      rewrite (proj2 (existsb_false_iff _ _)); [reflexivity|].
      intros r Hr.
      destruct (same_reference_entry r _) eqn:E; [|reflexivity].
      exfalso. apply same_reference_entry_true in E. simpl in E.
      apply (Hledger r Hr). tauto.
    - reflexivity. }
  destruct Hcreate as [entry [d5 [Hcreate Hd5]]].
  destruct (update_invoice_statuses_total
              (filter (fun a => Nat.eqb (PaymentAllocation.payment a)
                                  (Payment.id p))
                      (allocations d5)) d5) as [d6 [Hupd [Hd6 _]]].
  exists p, d6. split; [|split; [reflexivity|]].
  - unfold PaymentCreateView.form_valid. apply atomic_inr.
    rewrite Hinv, Hman.
    run_step Hsave.
    unfold PaymentCreateView.allocate_selected. run_pure.
    simpl PaymentCreateView.allocate_manual. run_pure.
    simpl negb. cbv iota.
    erewrite bind_inr; [| run_pure; exact Hfifo].
    run_step Hcreate. run_pure. run_step Hupd. reflexivity.
  - rewrite Hd6, Hd5. reflexivity.
Qed.

(** C6. Every payment recording that completes has appended exactly one
    row to the ledger: a payment entry of the customer, crediting the full
    payment amount and referencing the Payment row. When the form selects no
    invoice and carries no manual amounts (and the new payment's number and
    primary key are unused, invoice primary keys are distinct), the
    recording completes and the allocations it adds are those of
    [fifo_spec]: the customer's live invoices of the company with status
    sent, by invoice date ascending, each receive
    min(remaining payment, outstanding) until the payment or the invoices
    are exhausted. *)
Theorem payment_recording_fifo_and_ledger_entry
    (company : nat) (form : PaymentCreateView.Form) (number : string)
    (now : DateTime) (db : DB) :
  (forall p db',
     PaymentCreateView.form_valid company form number now db = (inr p, db') ->
     Payment.amount p = PaymentCreateView.form_amount form
     /\ Payment.customer p
        = Customer.id (PaymentCreateView.form_customer form)
     /\ exists entry,
          ledger_entries db' = ledger_entries db ++ [entry]
          /\ is_payment_entry_of p entry)
  /\ (PaymentCreateView.form_invoice form = None ->
      PaymentCreateView.manual form = [] ->
      (forall q, In q (payments db) -> Payment.payment_number q <> number) ->
      (forall a, In a (allocations db) ->
                 PaymentAllocation.payment a <> payment_seq db) ->
      NoDup (map Invoice.id (invoices db)) ->
      (forall e, In e (ledger_entries db) ->
                 ~ (LedgerEntry.reference_type e = Some PaymentModel
                    /\ LedgerEntry.reference_id e = Some (payment_seq db)
                    /\ LedgerEntry.entry_type e = payment)) ->
      exists p db' open_invoices,
        PaymentCreateView.form_valid company form number now db = (inr p, db')
        /\ (forall i,
              In i open_invoices <->
              In i (invoices db)
              /\ Invoice.is_deleted i = false
              /\ Invoice.company i = company
              /\ Invoice.customer i
                 = Customer.id (PaymentCreateView.form_customer form)
              /\ Invoice.status i = sent)
        /\ StronglySorted (fun a b => Invoice.date a <= Invoice.date b)
             open_invoices
        /\ allocations db'
           = allocations db
             ++ allocation_rows (Payment.id p) (allocation_seq db)
                  (fifo_spec (PaymentCreateView.form_amount form)
                     (map (outstanding_of db) open_invoices))).
Proof.
  split.
  - intros p db'. apply form_valid_one_ledger_entry.
  - intros Hinv Hman Hnum Halloc Hinvs Hledger.
    destruct (form_valid_fifo company form now db Hinv Hman Hnum Halloc
                Hinvs Hledger) as [p [db' [Hrun [Hp Hallocs]]]].
    exists p, db', (PaymentCreateView.unpaid_invoices p db).
    split; [exact Hrun|]. split; [|split].
    + intros i. rewrite unpaid_invoices_In. rewrite Hp. simpl. reflexivity.
    + apply unpaid_invoices_sorted.
    + exact Hallocs.
Qed.

(** Scenario D: invoice A (id 1, older) for 100.00 and invoice B (id 2) for
    80.00, both sent; B is stored first. *)
Definition two_open_invoices : DB :=
  mkDB [] 1 [acme]
    [ Invoice.mk 2 1 "INV-B" 5 19725 sent 8000 false;
      Invoice.mk 1 1 "INV-A" 5 19720 sent 10000 false ]
    [] 1 [] 1.

Definition payment_of_150 : PaymentCreateView.Form :=
  PaymentCreateView.mkForm acme None 19730 15000 cash [].

Lemma payment_recording_fifo_and_ledger_entry_witness :
  exists p db' open_invoices,
    PaymentCreateView.form_valid 1 payment_of_150 "PAY-20240105-0001" 5000
      two_open_invoices = (inr p, db')
    /\ (forall i,
          In i open_invoices <->
          In i (invoices two_open_invoices)
          /\ Invoice.is_deleted i = false
          /\ Invoice.company i = 1%nat
          /\ Invoice.customer i
             = Customer.id (PaymentCreateView.form_customer payment_of_150)
          /\ Invoice.status i = sent)
    /\ StronglySorted (fun a b => Invoice.date a <= Invoice.date b)
         open_invoices
    /\ allocations db'
       = allocations two_open_invoices
         ++ allocation_rows (Payment.id p) (allocation_seq two_open_invoices)
              (fifo_spec (PaymentCreateView.form_amount payment_of_150)
                 (map (outstanding_of two_open_invoices) open_invoices)).
Proof.
  apply (proj2 (@payment_recording_fifo_and_ledger_entry 1 payment_of_150
                  "PAY-20240105-0001" 5000 two_open_invoices)).
  - reflexivity.
  - reflexivity.
  - intros q [].
  - intros a [].
  - simpl. repeat (constructor; [simpl; lia|]). constructor.
  - intros e [].
Defined.

(** Scenario D evaluated: 100.00 goes to invoice A, which becomes paid,
    50.00 to invoice B, which stays sent, and the ledger receives one
    payment entry of 150.00. *)
Example payment_scenario_D :
  let db' :=
    snd (PaymentCreateView.form_valid 1 payment_of_150 "PAY-20240105-0001"
           5000 two_open_invoices) in
  map (fun a => (PaymentAllocation.invoice a, PaymentAllocation.amount a))
      (allocations db')
  = [(1%nat, 10000); (2%nat, 5000)]
  /\ map (fun i => (Invoice.id i, Invoice.status i)) (invoices db')
     = [(2%nat, sent); (1%nat, paid)]
  /\ map (fun e => (LedgerEntry.entry_type e, LedgerEntry.credit e,
                    LedgerEntry.reference_id e))
         (ledger_entries db')
     = [(payment, 15000, Some 1%nat)].
Proof. repeat split; reflexivity. Qed.

(** ** The allocation bound *)

Definition payment_of_100_two_manual : PaymentCreateView.Form :=
  PaymentCreateView.mkForm acme None 19730 10000 cash
    [(1%nat, 8000); (2%nat, 8000)].

Definition payment_1 : Payment.t :=
  Payment.mk 1 1 5 "PAY-20240105-0001" 19730 10000 cash false.

(** C3 (the code at the failing input). A payment of 100.00 is recorded
    with the manual amounts 80.00 for invoice 1 and 80.00 for invoice 2. The
    recording completes and stores both allocations: their sum, 160.00,
    exceeds the payment amount. [PaymentAllocation.clean], which the view
    never calls, rejects the second allocation. *)
Theorem manual_allocations_exceed_payment :
  let result :=
    PaymentCreateView.form_valid 1 payment_of_100_two_manual
      "PAY-20240105-0001" 5000 two_open_invoices in
  fst result = inr payment_1
  /\ allocations (snd result)
     = [PaymentAllocation.mk 1 1 1 8000; PaymentAllocation.mk 2 1 2 8000]
  /\ allocated_amount payment_1 (snd result) = 16000
  /\ Payment.amount payment_1 = 10000
  /\ PaymentAllocation_clean (Some 2%nat) payment_1
       (Invoice.mk 2 1 "INV-B" 5 19725 sent 8000 false) 8000 (snd result)
     = inl (ValidationError "Total allocations cannot exceed payment amount").
Proof. repeat split; reflexivity. Qed.

(** ** Concurrent entry creation *)

(** A call that runs alone takes its two steps and does what
    [_create_entry] does. *)
Lemma serial_call_is_create_entry (c : Concurrent.Call) (db : DB) :
  let call :=
    LedgerService._create_entry (Concurrent.call_company c)
      (Concurrent.call_party_type c) (Concurrent.call_party_id c)
      (Concurrent.call_entry_type c) (Concurrent.call_debit c)
      (Concurrent.call_credit c) (Concurrent.call_transaction_date c)
      (Concurrent.call_description c) (Concurrent.call_reference_object c)
      (Concurrent.call_now c) db in
  Concurrent.run [0%nat; 0%nat]
    (Concurrent.mkWorld db [Concurrent.NotStarted c])
  = Some (Concurrent.mkWorld (snd call)
            [Concurrent.Finished c
               (LedgerService.select_last_entry (Concurrent.call_company c)
                  (Concurrent.call_party_type c) (Concurrent.call_party_id c)
                  (ledger_entries db))
               (fst call)]).
Proof.
  cbv zeta. unfold Concurrent.run, Concurrent.step. simpl.
  assert (Hfree : forall e,
            Concurrent.is_locked (LedgerEntry.id e) [Concurrent.NotStarted c]
            = false) by reflexivity.
  destruct (LedgerService.select_last_entry _ _ _ _) as [e|] eqn:E;
    rewrite ?Hfree; simpl;
    unfold LedgerService._create_entry, atomic, bind, get_db;
    rewrite E;
    unfold LedgerService.insert_after, LedgerEntry_objects_create;
    destruct (violates_unique_reference_entry _ _); reflexivity.
Qed.

(** Scenario E: two invoice entries, 30.00 and 70.00, for customer 5, who
    has no entry yet. *)
Definition invoice_call (invoice_id : nat) (amount : Decimal) (now : DateTime)
    : Concurrent.Call :=
  Concurrent.mkCall 1 customer 5 invoice amount 0 19724 "Invoice"
    (Some (mkInstance InvoiceModel invoice_id)) now.

Definition two_calls_no_entries : Concurrent.World :=
  Concurrent.mkWorld (mkDB [] 1 [acme] [] [] 1 [] 1)
    [ Concurrent.NotStarted (invoice_call 7 3000 1000);
      Concurrent.NotStarted (invoice_call 8 7000 2000) ].

(** The same two calls for a customer who already has an entry. *)
Definition two_calls_one_entry : Concurrent.World :=
  Concurrent.mkWorld
    (mkDB [LedgerEntry.mk 1 1 customer 5 invoice 5000 0 5000
             (Some InvoiceModel) (Some 6%nat) "Invoice" 19720 500]
          2 [acme] [] [] 1 [] 1)
    [ Concurrent.NotStarted (invoice_call 7 3000 1000);
      Concurrent.NotStarted (invoice_call 8 7000 2000) ].

Definition final_report (w : option Concurrent.World)
    : option (list bool * list Decimal * list Decimal * Decimal) :=
  match w with
  | Some w =>
      Some (map Concurrent.finished (Concurrent.txns w),
            Concurrent.observed_balances w,
            map LedgerEntry.running_balance
              (ledger_entries (Concurrent.world_db w)),
            LedgerService.get_customer_outstanding 1 5 (Concurrent.world_db w))
  | None => None
  end.

(** When the customer has an entry, the lock on it serializes the calls:
    the second SELECT waits while the first call holds the row, and after
    the first commit it reads the new balance. *)
Example row_lock_serializes_calls :
  Concurrent.run [0%nat; 1%nat] two_calls_one_entry = None
  /\ final_report
       (Concurrent.run [0%nat; 0%nat; 1%nat; 1%nat] two_calls_one_entry)
     = Some ([true; true], [5000; 8000], [5000; 8000; 15000], 15000).
Proof. split; reflexivity. Qed.

(** C1 (the code at the failing input). For a customer without entries the
    SELECT of either call returns no row and locks nothing. In the schedule
    select, select, insert, insert both calls complete, both compute their
    balance from the previous balance 0, the two stored balances are 30.00
    and 70.00, and the outstanding balance is 70.00, not 100.00. *)
Theorem concurrent_first_entries_share_previous_balance :
  final_report
    (Concurrent.run [0%nat; 1%nat; 0%nat; 1%nat] two_calls_no_entries)
  = Some ([true; true], [0; 0], [3000; 7000], 7000)
  /\ final_report
       (Concurrent.run [0%nat; 0%nat; 1%nat; 1%nat] two_calls_no_entries)
     = Some ([true; true], [0; 3000], [3000; 10000], 10000).
Proof. split; reflexivity. Qed.

(** ** Entries appended in date order keep the recurrence *)

Section OrderBySnoc.
Context {A : Type}.
Variable leb : A -> A -> bool.

Lemma insert_ordered_snoc x s m :
  leb x m = true ->
  insert_ordered leb x (s ++ [m]) = insert_ordered leb x s ++ [m].
Proof.
  intros Hxm. induction s as [|y s IH]; simpl.
  - now rewrite Hxm.
  - destruct (leb x y); simpl; [reflexivity | now rewrite IH].
Qed.

Lemma order_by_snoc l m :
  (forall x, In x l -> leb x m = true) ->
  order_by leb (l ++ [m]) = order_by leb l ++ [m].
Proof.
  induction l as [|x l IH]; simpl; intros H; [reflexivity|].
  rewrite IH by (intros y Hy; apply H; now right).
  apply insert_ordered_snoc. apply H. now left.
Qed.

Lemma sorted_last_is_greatest s m :
  StronglySorted (fun a b => leb a b = true) (s ++ [m]) ->
  forall x, In x s -> leb x m = true.
Proof.
  induction s as [|y s IH]; simpl; intros Hs x Hx; [contradiction|].
  apply StronglySorted_inv in Hs. destruct Hs as [Hs Hall].
  destruct Hx as [<- | Hx].
  - rewrite Forall_forall in Hall. apply Hall. apply in_or_app.
    right. now left.
  - now apply IH.
Qed.

End OrderBySnoc.

(** The balance the last entry of a list carries, [prev] for no entry. *)
Definition last_balance (prev : Decimal) (entries : list LedgerEntry.t)
    : Decimal :=
  fold_left (fun _ e => LedgerEntry.running_balance e) entries prev.

Lemma recurrence_from_snoc prev entries e :
  recurrence_from prev (entries ++ [e]) <->
  recurrence_from prev entries
  /\ LedgerEntry.running_balance e
     = last_balance prev entries + LedgerEntry.debit e - LedgerEntry.credit e.
Proof.
  revert prev. induction entries as [|x entries IH]; simpl; intros prev.
  - unfold last_balance. simpl. tauto.
  - rewrite IH. unfold last_balance. simpl. tauto.
Qed.

Lemma last_balance_snoc prev entries m :
  last_balance prev (entries ++ [m]) = LedgerEntry.running_balance m.
Proof. unfold last_balance. now rewrite fold_left_app. Qed.

(** With distinct (transaction_date, created_at) keys, the entry that
    [select_last_entry] reads is the last one in ascending order. *)
Lemma previous_balance_is_last_balance company party_type party_id db :
  (forall a b,
     In a (party_entries company party_type party_id db) ->
     In b (party_entries company party_type party_id db) ->
     LedgerEntry.transaction_date a = LedgerEntry.transaction_date b ->
     LedgerEntry.created_at a = LedgerEntry.created_at b -> a = b) ->
  Concurrent.previous_balance
    (LedgerService.select_last_entry company party_type party_id
       (ledger_entries db))
  = last_balance 0 (party_entries company party_type party_id db).
Proof.
  intros Hkeys.
  assert (Hs : StronglySorted (fun a b => LedgerEntry.key_leb a b = true)
                 (party_entries company party_type party_id db)).
  { unfold party_entries.
    apply order_by_sorted; [exact key_leb_total | exact key_leb_trans]. }
  destruct (LedgerService.select_last_entry company party_type party_id
              (ledger_entries db)) as [f|] eqn:E.
  - apply select_last_entry_spec in E. destruct E as [Hf Hmax].
    assert (Hmax' : forall y,
              In y (party_entries company party_type party_id db) ->
              not_before f y).
    { intros y Hy. apply Hmax.
      apply (order_by_In LedgerEntry.key_leb). exact Hy. }
    assert (Hf' : In f (party_entries company party_type party_id db))
      by (apply order_by_In; exact Hf).
    remember (party_entries company party_type party_id db) as es eqn:Es.
    clear Es Hf Hmax.
    destruct es as [|x0 s0]; [contradiction|].
    destruct (@exists_last _ (x0 :: s0)) as [s [m Hsm]]; [discriminate|].
    rewrite Hsm in *. clear Hsm x0 s0.
    rewrite last_balance_snoc. simpl.
    assert (Hm : In m (s ++ [m])) by (apply in_or_app; right; now left).
    pose proof (Hmax' m Hm) as Hfm.
    assert (Hmf : not_before m f).
    { apply in_app_or in Hf'. destruct Hf' as [Hf' | [<- | []]].
      - apply key_leb_spec.
        apply (sorted_last_is_greatest LedgerEntry.key_leb s m Hs f Hf').
      - apply not_before_refl. }
    f_equal. apply Hkeys; auto; unfold not_before in *; lia.
  - apply select_last_entry_none in E. unfold party_entries. rewrite E.
    reflexivity.
Qed.

(** A creation whose entry comes after every stored entry of the party, in
    (transaction_date, created_at) order, keeps the balance recurrence. *)
Lemma create_entry_in_order_keeps_recurrence
    company party_type party_id entry_type debit credit transaction_date
    description reference_object now db e db' :
  balance_recurrence company party_type party_id db ->
  (forall a b,
     In a (party_entries company party_type party_id db) ->
     In b (party_entries company party_type party_id db) ->
     LedgerEntry.transaction_date a = LedgerEntry.transaction_date b ->
     LedgerEntry.created_at a = LedgerEntry.created_at b -> a = b) ->
  (forall a, In a (party_entries company party_type party_id db) ->
     LedgerEntry.transaction_date a <= transaction_date
     /\ LedgerEntry.created_at a <= now) ->
  LedgerService._create_entry company party_type party_id entry_type debit
    credit transaction_date description reference_object now db
  = (inr e, db') ->
  balance_recurrence company party_type party_id db'.
Proof.
  intros Hrec Hkeys Hlater Hcreate.
  pose proof (previous_balance_is_last_balance company party_type party_id
                db Hkeys) as Hprev.
  pose proof Hcreate as Hrun. apply atomic_inr_inv in Hrun.
  unfold bind, get_db, LedgerService.insert_after,
    LedgerEntry_objects_create in Hrun.
  destruct (violates_unique_reference_entry _ _); [discriminate|].
  injection Hrun as He Hdb.
  apply create_entry_inr in Hcreate.
  destruct Hcreate as [-> [E1 [E2 [E3 [_ [E5 [E6 [E7 [_ [_ E10]]]]]]]]]].
  assert (Hnow : LedgerEntry.created_at e = now) by (now rewrite <- He).
  unfold balance_recurrence, party_entries. simpl.
  rewrite filter_app. simpl.
  assert (Hpf : LedgerService.party_filter company party_type party_id e
                = true).
  { apply party_filter_true. auto. }
  rewrite Hpf.
  rewrite order_by_snoc.
  - fold (party_entries company party_type party_id db).
    apply recurrence_from_snoc. split; [exact Hrec|].
    rewrite E10, Hprev, E5, E6. reflexivity.
  - intros x Hx. apply key_leb_spec.
    assert (Hx' : In x (party_entries company party_type party_id db))
      by (apply order_by_In; exact Hx).
    destruct (Hlater x Hx') as [H1 H2].
    unfold not_before. rewrite E7, Hnow. lia.
Qed.

(** * Further properties of the ledger service *)

Unset Implicit Arguments.

(** ** A creation and the balance read back *)

(** The balance the two balance queries compute for a party: the running
    balance of the entry [select_last_entry] returns, 0 without entries. *)
Definition current_balance (company : nat) (party_type : PartyType)
    (party_id : nat) (db : DB) : Decimal :=
  Concurrent.previous_balance
    (LedgerService.select_last_entry company party_type party_id
       (ledger_entries db)).

Lemma get_customer_outstanding_current company customer_id db :
  LedgerService.get_customer_outstanding company customer_id db
  = current_balance company customer customer_id db.
Proof. reflexivity. Qed.

Lemma get_supplier_payable_current company supplier_id db :
  LedgerService.get_supplier_payable company supplier_id db
  = current_balance company supplier supplier_id db.
Proof. reflexivity. Qed.

(** The key ([transaction_date], [created_at]) comes strictly after every
    stored entry of the party. *)
Definition comes_after_party (company : nat) (party_type : PartyType)
    (party_id : nat) (db : DB) (transaction_date : Date) (now : DateTime)
    : Prop :=
  forall a, In a (ledger_entries db) ->
    LedgerService.party_filter company party_type party_id a = true ->
    LedgerEntry.transaction_date a < transaction_date
    \/ (LedgerEntry.transaction_date a = transaction_date
        /\ LedgerEntry.created_at a < now).

(** No stored entry has the reference and entry type of the new one. *)
Definition reference_is_free (db : DB) (entry_type : EntryType)
    (reference_object : option ModelInstance) : Prop :=
  forall o r, reference_object = Some o -> In r (ledger_entries db) ->
    ~ (LedgerEntry.reference_type r = Some (model_class o)
       /\ LedgerEntry.reference_id r = Some (pk o)
       /\ LedgerEntry.entry_type r = entry_type).

Section OrderBySnocFirst.
Context {A : Type}.
Variable leb : A -> A -> bool.

Lemma order_by_snoc_first l m :
  (forall x, In x l -> leb x m = false) ->
  order_by leb (l ++ [m]) = m :: order_by leb l.
Proof.
  induction l as [|x l IH]; simpl; intros H; [reflexivity|].
  rewrite IH by (intros y Hy; apply H; now right).
  simpl. now rewrite (H x (or_introl eq_refl)).
Qed.

End OrderBySnocFirst.

(** [_create_entry] returns when the reference is free. *)
Lemma create_entry_returns company party_type party_id entry_type debit
    credit transaction_date description reference_object now db :
  reference_is_free db entry_type reference_object ->
  exists e,
    LedgerService._create_entry company party_type party_id entry_type debit
      credit transaction_date description reference_object now db
    = (inr e, set_ledger db (ledger_entries db ++ [e]) (S (ledger_seq db)))
    /\ LedgerEntry.id e = ledger_seq db
    /\ LedgerEntry.created_at e = now.
Proof.
  intros Hfree.
  unfold LedgerService._create_entry, atomic, bind, get_db,
    LedgerService.insert_after, LedgerEntry_objects_create,
    violates_unique_reference_entry.
  rewrite (proj2 (existsb_false_iff _ _)).
  - eexists. split; [reflexivity|]. split; reflexivity.
  - intros r Hr.
    destruct (same_reference_entry r _) eqn:E; [|reflexivity].
    exfalso. apply same_reference_entry_true in E. simpl in E.
    destruct E as [E1 [E2 [E3 E4]]].
    destruct reference_object as [o|]; [|now rewrite E1 in E4].
    apply (Hfree o r eq_refl Hr). auto.
Qed.

(** After a creation that comes after the party's entries, the party's
    current balance is the new entry's. *)
Lemma current_balance_after_create company party_type party_id db e seq :
  LedgerService.party_filter company party_type party_id e = true ->
  comes_after_party company party_type party_id db
    (LedgerEntry.transaction_date e) (LedgerEntry.created_at e) ->
  current_balance company party_type party_id
    (set_ledger db (ledger_entries db ++ [e]) seq)
  = LedgerEntry.running_balance e.
Proof.
  intros Hpf Hafter. unfold current_balance, LedgerService.select_last_entry.
  simpl. rewrite filter_app. simpl. rewrite Hpf.
  rewrite order_by_snoc_first; [reflexivity|].
  intros x Hx. apply filter_In in Hx. destruct Hx as [Hx Hp].
  unfold LedgerEntry.key_geb, LedgerEntry.key_leb.
  destruct (Hafter x Hx Hp) as [H | [H1 H2]].
  - apply orb_false_iff. split.
    + apply Z.ltb_ge. lia.
    + apply andb_false_iff. left. apply Z.eqb_neq. lia.
  - apply orb_false_iff. split.
    + apply Z.ltb_ge. lia.
    + apply andb_false_iff. right. apply Z.leb_gt. lia.
Qed.

(** The balance moves by debit minus credit. *)
Lemma create_entry_moves_balance company party_type party_id entry_type debit
    credit transaction_date description reference_object now db :
  reference_is_free db entry_type reference_object ->
  comes_after_party company party_type party_id db transaction_date now ->
  exists e db',
    LedgerService._create_entry company party_type party_id entry_type debit
      credit transaction_date description reference_object now db
    = (inr e, db')
    /\ db' = set_ledger db (ledger_entries db ++ [e]) (S (ledger_seq db))
    /\ LedgerEntry.transaction_date e = transaction_date
    /\ LedgerEntry.created_at e = now
    /\ current_balance company party_type party_id db'
       = current_balance company party_type party_id db + debit - credit.
Proof.
  intros Hfree Hafter.
  destruct (create_entry_returns company party_type party_id entry_type debit
              credit transaction_date description reference_object now db
              Hfree)
    as [e [Hrun [_ Hnow]]].
  exists e, (set_ledger db (ledger_entries db ++ [e]) (S (ledger_seq db))).
  pose proof Hrun as Hfields. apply create_entry_inr in Hfields.
  destruct Hfields as [_ [E1 [E2 [E3 [_ [_ [_ [E7 [_ [_ E10]]]]]]]]]].
  split; [exact Hrun|]. split; [reflexivity|].
  split; [exact E7|]. split; [exact Hnow|].
  rewrite current_balance_after_create.
  - exact E10.
  - apply party_filter_true. auto.
  - now rewrite E7, Hnow.
Qed.

(** X1. An invoice entry dated after the customer's stored entries, for an
    invoice that has no invoice entry yet, is created, and
    [get_customer_outstanding] then returns the previous outstanding plus
    the invoice total. *)
Theorem invoice_entry_raises_outstanding
    (company : nat) (customer_ : Customer.t) (invoice_ : Invoice.t)
    (now : DateTime) (db : DB) :
  reference_is_free db invoice
    (Some (mkInstance InvoiceModel (Invoice.id invoice_))) ->
  comes_after_party company customer (Customer.id customer_) db
    (Invoice.date invoice_) now ->
  exists e db',
    LedgerService.create_customer_invoice_entry company customer_ invoice_
      now db = (inr e, db')
    /\ LedgerEntry.debit e = Invoice.total_amount invoice_
    /\ LedgerEntry.credit e = 0
    /\ LedgerService.get_customer_outstanding company (Customer.id customer_)
         db'
       = LedgerService.get_customer_outstanding company
           (Customer.id customer_) db
         + Invoice.total_amount invoice_.
Proof.
  intros Hfree Hafter.
  unfold LedgerService.create_customer_invoice_entry.
  destruct (create_entry_moves_balance company customer
              (Customer.id customer_) invoice
              (Invoice.total_amount invoice_) 0 (Invoice.date invoice_)
              ("Invoice " ++ Invoice.invoice_number invoice_)
              (Some (mkInstance InvoiceModel (Invoice.id invoice_))) now db
              Hfree Hafter)
    as [e [db' [Hrun [_ [_ [_ Hbal]]]]]].
  exists e, db'. split; [exact Hrun|].
  pose proof Hrun as Hf. apply create_entry_inr in Hf.
  destruct Hf as [_ [_ [_ [_ [_ [E5 [E6 _]]]]]]].
  split; [exact E5|]. split; [exact E6|].
  rewrite !get_customer_outstanding_current, Hbal. lia.
Qed.

Lemma invoice_entry_raises_outstanding_witness :
  exists e db',
    LedgerService.create_customer_invoice_entry 1 acme
      (Invoice.mk 9 1 "INV-9" 5 19730 sent 2500 false) 3000 db_one_invoice
    = (inr e, db')
    /\ LedgerEntry.debit e = 2500
    /\ LedgerEntry.credit e = 0
    /\ LedgerService.get_customer_outstanding 1 5 db'
       = LedgerService.get_customer_outstanding 1 5 db_one_invoice + 2500.
Proof.
  apply (invoice_entry_raises_outstanding 1 acme
           (Invoice.mk 9 1 "INV-9" 5 19730 sent 2500 false) 3000
           db_one_invoice).
  - intros o r Ho [<- | []] [_ [H _]]. injection Ho as <-. discriminate H.
  - intros a [<- | []] _. simpl. lia.
Defined.

(** X2. A payment entry dated after the customer's stored entries, whose
    reference object (if any) has no payment entry yet, is created, and
    [get_customer_outstanding] then returns the previous outstanding minus
    the amount; the balance may become negative. *)
Theorem payment_entry_lowers_outstanding
    (company : nat) (customer_ : Customer.t) (amount : Decimal)
    (payment_date : Date) (description : string)
    (reference_object : option ModelInstance) (now : DateTime) (db : DB) :
  reference_is_free db payment reference_object ->
  comes_after_party company customer (Customer.id customer_) db
    payment_date now ->
  exists e db',
    LedgerService.create_customer_payment_entry company customer_ amount
      payment_date description reference_object now db = (inr e, db')
    /\ LedgerEntry.debit e = 0
    /\ LedgerEntry.credit e = amount
    /\ LedgerService.get_customer_outstanding company (Customer.id customer_)
         db'
       = LedgerService.get_customer_outstanding company
           (Customer.id customer_) db
         - amount.
Proof.
  intros Hfree Hafter.
  unfold LedgerService.create_customer_payment_entry.
  destruct (create_entry_moves_balance company customer
              (Customer.id customer_) payment 0 amount payment_date
              (LedgerService.or_default description
                 ("Payment received from " ++ Customer.name customer_))
              reference_object now db Hfree Hafter)
    as [e [db' [Hrun [_ [_ [_ Hbal]]]]]].
  exists e, db'. split; [exact Hrun|].
  pose proof Hrun as Hf. apply create_entry_inr in Hf.
  destruct Hf as [_ [_ [_ [_ [_ [E5 [E6 _]]]]]]].
  split; [exact E5|]. split; [exact E6|].
  rewrite !get_customer_outstanding_current, Hbal. lia.
Qed.

(** Scenario B, overpaid: a payment of 160.00 against an outstanding of
    100.00 leaves -60.00. *)
Lemma payment_entry_lowers_outstanding_witness :
  exists e db',
    LedgerService.create_customer_payment_entry 1 acme 16000 19730 "" None
      3000 db_one_invoice = (inr e, db')
    /\ LedgerEntry.debit e = 0
    /\ LedgerEntry.credit e = 16000
    /\ LedgerService.get_customer_outstanding 1 5 db'
       = LedgerService.get_customer_outstanding 1 5 db_one_invoice - 16000.
Proof.
  apply (payment_entry_lowers_outstanding 1 acme 16000 19730 "" None 3000
           db_one_invoice).
  - intros o r Ho. discriminate Ho.
  - intros a [<- | []] _. simpl. lia.
Defined.

Lemma reference_is_free_None db entry_type : reference_is_free db entry_type None.
Proof. intros o r Ho. discriminate Ho. Qed.

Lemma comes_after_party_next company party_type party_id db e d1 now1 d2 now2
    seq :
  comes_after_party company party_type party_id db d1 now1 ->
  LedgerEntry.transaction_date e = d1 ->
  LedgerEntry.created_at e = now1 ->
  d1 < d2 \/ (d1 = d2 /\ now1 < now2) ->
  comes_after_party company party_type party_id
    (set_ledger db (ledger_entries db ++ [e]) seq) d2 now2.
Proof.
  intros Hafter Hd Hn Hlt a Ha Hp. simpl in Ha.
  apply in_app_or in Ha. destruct Ha as [Ha | [<- | []]].
  - destruct (Hafter a Ha Hp); lia.
  - lia.
Qed.

(** X3. A supplier purchase dated after the supplier's stored entries
    lowers [get_supplier_payable] by the amount (we owe more), and a
    supplier payment of the same amount that comes after it brings
    [get_supplier_payable] back to its value before the purchase. *)
Theorem supplier_purchase_then_payment
    (company : nat) (supplier_ : LedgerService.Supplier) (amount : Decimal)
    (purchase_date payment_date : Date) (now1 now2 : DateTime) (db : DB) :
  comes_after_party company supplier
    (LedgerService.supplier_id supplier_) db purchase_date now1 ->
  purchase_date < payment_date
  \/ (purchase_date = payment_date /\ now1 < now2) ->
  exists e1 db1 e2 db2,
    LedgerService.create_supplier_purchase_entry company supplier_ amount
      purchase_date "" None now1 db = (inr e1, db1)
    /\ LedgerService.create_supplier_payment_entry company supplier_ amount
         payment_date "" None now2 db1 = (inr e2, db2)
    /\ LedgerService.get_supplier_payable company
         (LedgerService.supplier_id supplier_) db1
       = LedgerService.get_supplier_payable company
           (LedgerService.supplier_id supplier_) db - amount
    /\ LedgerService.get_supplier_payable company
         (LedgerService.supplier_id supplier_) db2
       = LedgerService.get_supplier_payable company
           (LedgerService.supplier_id supplier_) db.
Proof.
  intros Hafter Hlt.
  unfold LedgerService.create_supplier_purchase_entry,
    LedgerService.create_supplier_payment_entry.
  destruct (create_entry_moves_balance company supplier
              (LedgerService.supplier_id supplier_) purchase 0 amount
              purchase_date
              (LedgerService.or_default ""
                 ("Purchase from " ++ LedgerService.supplier_name supplier_))
              None now1 db (reference_is_free_None db purchase) Hafter)
    as [e1 [db1 [Hrun1 [Hdb1 [Hd1 [Hn1 Hbal1]]]]]].
  assert (Hafter2 : comes_after_party company supplier
                      (LedgerService.supplier_id supplier_) db1
                      payment_date now2).
  { rewrite Hdb1.
    apply (comes_after_party_next company supplier
             (LedgerService.supplier_id supplier_) db e1 purchase_date now1
             payment_date now2); assumption. }
  destruct (create_entry_moves_balance company supplier
              (LedgerService.supplier_id supplier_) payment amount 0
              payment_date
              (LedgerService.or_default ""
                 ("Payment to " ++ LedgerService.supplier_name supplier_))
              None now2 db1 (reference_is_free_None db1 payment) Hafter2)
    as [e2 [db2 [Hrun2 [_ [_ [_ Hbal2]]]]]].
  exists e1, db1, e2, db2.
  split; [exact Hrun1|]. split; [exact Hrun2|].
  rewrite !get_supplier_payable_current, Hbal2, Hbal1. split; lia.
Qed.

Definition mills : LedgerService.Supplier := LedgerService.mkSupplier 3 "Mills".

Lemma supplier_purchase_then_payment_witness :
  exists e1 db1 e2 db2,
    LedgerService.create_supplier_purchase_entry 1 mills 4000 19730 "" None
      1000 empty_db = (inr e1, db1)
    /\ LedgerService.create_supplier_payment_entry 1 mills 4000 19730 "" None
         2000 db1 = (inr e2, db2)
    /\ LedgerService.get_supplier_payable 1 3 db1
       = LedgerService.get_supplier_payable 1 3 empty_db - 4000
    /\ LedgerService.get_supplier_payable 1 3 db2
       = LedgerService.get_supplier_payable 1 3 empty_db.
Proof.
  apply (supplier_purchase_then_payment 1 mills 4000 19730 19730 1000 2000
           empty_db).
  - intros a [].
  - right. split; [reflexivity | lia].
Defined.

(** X4. A manual adjustment dated after the party's stored entries is
    always created (it carries no reference, so no constraint can reject
    it); it is an entry of type adjustment without reference, and the
    party's balance moves up by the amount for a debit adjustment and down
    by the amount for a credit adjustment. *)
Theorem adjustment_entry_moves_balance
    (company : nat) (party_type : PartyType) (party_id : nat)
    (amount : Decimal) (is_debit : bool) (adjustment_date : Date)
    (description : string) (now : DateTime) (db : DB) :
  comes_after_party company party_type party_id db adjustment_date now ->
  exists e db',
    LedgerService.create_adjustment_entry company party_type party_id amount
      is_debit adjustment_date description now db = (inr e, db')
    /\ LedgerEntry.entry_type e = adjustment
    /\ LedgerEntry.reference_type e = None
    /\ LedgerEntry.reference_id e = None
    /\ current_balance company party_type party_id db'
       = current_balance company party_type party_id db
         + (if is_debit then amount else - amount).
Proof.
  intros Hafter. unfold LedgerService.create_adjustment_entry.
  destruct (create_entry_moves_balance company party_type party_id adjustment
              (if is_debit then amount else 0)
              (if is_debit then 0 else amount) adjustment_date description
              None now db (reference_is_free_None db adjustment) Hafter)
    as [e [db' [Hrun [_ [_ [_ Hbal]]]]]].
  exists e, db'. split; [exact Hrun|].
  pose proof Hrun as Hf. apply create_entry_inr in Hf.
  destruct Hf as [_ [_ [_ [_ [E4 [_ [_ [_ [E8 [E9 _]]]]]]]]]].
  split; [exact E4|]. split; [exact E8|]. split; [exact E9|].
  rewrite Hbal. destruct is_debit; lia.
Qed.

Lemma adjustment_entry_moves_balance_witness :
  exists e db',
    LedgerService.create_adjustment_entry 1 customer 5 1500 false 19730
      "discount" 3000 db_one_invoice = (inr e, db')
    /\ LedgerEntry.entry_type e = adjustment
    /\ LedgerEntry.reference_type e = None
    /\ LedgerEntry.reference_id e = None
    /\ current_balance 1 customer 5 db'
       = current_balance 1 customer 5 db_one_invoice + - 1500.
Proof.
  apply (adjustment_entry_moves_balance 1 customer 5 1500 false 19730
           "discount" 3000 db_one_invoice).
  intros a [<- | []] _. simpl. lia.
Defined.

(** ** Invariants of the ledger table *)

(** Every stored entry passes the model's validation: the field validators
    and [clean]. *)
Definition all_entries_valid (db : DB) : Prop :=
  forall e, In e (ledger_entries db) ->
    LedgerEntry.run_validators e = inr tt /\ LedgerEntry.clean e = inr tt.

Lemma valid_entry_iff e :
  LedgerEntry.run_validators e = inr tt /\ LedgerEntry.clean e = inr tt <->
  (0 < LedgerEntry.debit e /\ LedgerEntry.credit e = 0)
  \/ (LedgerEntry.debit e = 0 /\ 0 < LedgerEntry.credit e).
Proof.
  unfold LedgerEntry.run_validators, LedgerEntry.clean.
  destruct (Z.ltb_spec (LedgerEntry.debit e) 0),
           (Z.ltb_spec (LedgerEntry.credit e) 0),
           (Z.ltb_spec 0 (LedgerEntry.debit e)),
           (Z.ltb_spec 0 (LedgerEntry.credit e)),
           (Z.eqb_spec (LedgerEntry.debit e) 0),
           (Z.eqb_spec (LedgerEntry.credit e) 0);
    simpl; split; intros Hx; try lia;
    try (destruct Hx as [Hx1 Hx2]; discriminate);
    try (split; reflexivity).
Qed.

Lemma create_entry_keeps_valid company party_type party_id entry_type debit
    credit transaction_date description reference_object now db :
  (0 < debit /\ credit = 0) \/ (debit = 0 /\ 0 < credit) ->
  all_entries_valid db ->
  all_entries_valid
    (snd (LedgerService._create_entry company party_type party_id entry_type
            debit credit transaction_date description reference_object now
            db)).
Proof.
  intros Hxor Hvalid.
  destruct (LedgerService._create_entry company party_type party_id
              entry_type debit credit transaction_date description
              reference_object now db) as [[ex|e] db'] eqn:E.
  - unfold LedgerService._create_entry, atomic in E.
    destruct (bind _ _ db) as [[ex'|e'] d]; [|discriminate].
    injection E as _ <-. exact Hvalid.
  - pose proof E as Hf. apply create_entry_inr in Hf.
    destruct Hf as [-> [_ [_ [_ [_ [E5 [E6 _]]]]]]].
    simpl. intros x Hx. apply in_app_or in Hx.
    destruct Hx as [Hx | [<- | []]]; [now apply Hvalid|].
    apply valid_entry_iff. rewrite E5, E6. exact Hxor.
Qed.

(** X5. The public creation operations keep the ledger valid: when every
    stored entry passes the field validators and [LedgerEntry.clean], it
    still does after any of the five operations called with a positive
    amount (a positive invoice total), whether the call returns or
    raises. *)
Theorem positive_amounts_keep_entries_valid
    (company : nat) (customer_ : Customer.t) (invoice_ : Invoice.t)
    (supplier_ : LedgerService.Supplier) (party_type : PartyType)
    (party_id : nat) (amount : Decimal) (is_debit : bool) (date_ : Date)
    (description : string) (reference_object : option ModelInstance)
    (now : DateTime) (db : DB) :
  0 < amount ->
  0 < Invoice.total_amount invoice_ ->
  all_entries_valid db ->
  all_entries_valid
    (snd (LedgerService.create_customer_invoice_entry company customer_
            invoice_ now db))
  /\ all_entries_valid
       (snd (LedgerService.create_customer_payment_entry company customer_
               amount date_ description reference_object now db))
  /\ all_entries_valid
       (snd (LedgerService.create_supplier_purchase_entry company supplier_
               amount date_ description reference_object now db))
  /\ all_entries_valid
       (snd (LedgerService.create_supplier_payment_entry company supplier_
               amount date_ description reference_object now db))
  /\ all_entries_valid
       (snd (LedgerService.create_adjustment_entry company party_type
               party_id amount is_debit date_ description now db)).
Proof.
  intros Hamount Htotal Hvalid.
  split; [|split; [|split; [|split]]].
  - unfold LedgerService.create_customer_invoice_entry.
    apply create_entry_keeps_valid; auto.
  - unfold LedgerService.create_customer_payment_entry.
    apply create_entry_keeps_valid; auto.
  - unfold LedgerService.create_supplier_purchase_entry.
    apply create_entry_keeps_valid; auto.
  - unfold LedgerService.create_supplier_payment_entry.
    apply create_entry_keeps_valid; auto.
  - unfold LedgerService.create_adjustment_entry.
    apply create_entry_keeps_valid; [destruct is_debit; auto | exact Hvalid].
Qed.

Lemma positive_amounts_keep_entries_valid_witness :
  all_entries_valid
    (snd (LedgerService.create_customer_invoice_entry 1 acme
            (Invoice.mk 9 1 "INV-9" 5 19730 sent 2500 false) 3000
            db_one_invoice))
  /\ all_entries_valid
       (snd (LedgerService.create_customer_payment_entry 1 acme 4000 19730 ""
               None 3000 db_one_invoice))
  /\ all_entries_valid
       (snd (LedgerService.create_supplier_purchase_entry 1 mills 4000 19730
               "" None 3000 db_one_invoice))
  /\ all_entries_valid
       (snd (LedgerService.create_supplier_payment_entry 1 mills 4000 19730
               "" None 3000 db_one_invoice))
  /\ all_entries_valid
       (snd (LedgerService.create_adjustment_entry 1 customer 5 4000 true
               19730 "" 3000 db_one_invoice)).
Proof.
  apply (positive_amounts_keep_entries_valid 1 acme
           (Invoice.mk 9 1 "INV-9" 5 19730 sent 2500 false) mills customer 5
           4000 true 19730 "" None 3000 db_one_invoice).
  - lia.
  - simpl. lia.
  - intros e [<- | []]. split; reflexivity.
Defined.

(** [r'] is [r] with, at most, another running balance. *)
Definition same_but_balance (r r' : LedgerEntry.t) : Prop :=
  r' = LedgerEntry.set_running_balance r (LedgerEntry.running_balance r').

Lemma same_but_balance_refl r : same_but_balance r r.
Proof. unfold same_but_balance. now rewrite set_running_balance_same. Qed.

Lemma same_but_balance_trans a b c :
  same_but_balance a b -> same_but_balance b c -> same_but_balance a c.
Proof.
  unfold same_but_balance. intros Hab Hbc. rewrite Hbc at 1. rewrite Hab.
  reflexivity.
Qed.

Lemma Forall2_same_but_balance_refl rows : Forall2 same_but_balance rows rows.
Proof.
  induction rows; constructor; [apply same_but_balance_refl | assumption].
Qed.

Lemma Forall2_same_but_balance_trans l1 l2 l3 :
  Forall2 same_but_balance l1 l2 -> Forall2 same_but_balance l2 l3 ->
  Forall2 same_but_balance l1 l3.
Proof.
  intros H12. revert l3. induction H12 as [|a b l1 l2 Hab H12 IH];
    intros l3 H23; inversion H23; subst; constructor.
  - eapply same_but_balance_trans; eauto.
  - now apply IH.
Qed.

(** A computation that writes to the database nothing but running
    balances of ledger rows. *)
Definition writes_balances_only {A : Type} (m : M A) : Prop :=
  forall db r db', m db = (r, db') ->
    Forall2 same_but_balance (ledger_entries db) (ledger_entries db')
    /\ db' = set_ledger db (ledger_entries db') (ledger_seq db).

Lemma recalculate_loop_writes_balances_only entries prev :
  writes_balances_only (LedgerService.recalculate_loop entries prev).
Proof.
  revert prev. induction entries as [|e rest IH]; intros prev db r db' H.
  - simpl in H. injection H as _ <-. split.
    + apply Forall2_same_but_balance_refl.
    + now rewrite set_ledger_same.
  - simpl in H. unfold bind in H.
    destruct (LedgerEntry.running_balance e =? _).
    + unfold ret at 1 in H. exact (IH _ _ _ _ H).
    + unfold LedgerEntry_save_running_balance at 1 in H.
      destruct (IH _ _ _ _ H) as [H1 H2]. simpl in H1, H2. split.
      * eapply Forall2_same_but_balance_trans; [|exact H1].
        clear. induction (ledger_entries db) as [|x l IHl]; simpl;
          constructor; [|exact IHl].
        destruct (Nat.eqb _ _); [reflexivity | apply same_but_balance_refl].
      * rewrite H2. reflexivity.
Qed.

Lemma recalculate_party_balance_writes_balances_only company party_type
    party_id :
  writes_balances_only
    (LedgerService.recalculate_party_balance company party_type party_id).
Proof.
  intros db r db' H. unfold LedgerService.recalculate_party_balance in H.
  unfold atomic, bind, get_db in H.
  destruct (LedgerService.recalculate_loop _ 0 db) as [[ex|b] d] eqn:E.
  - injection H as _ <-. split.
    + apply Forall2_same_but_balance_refl.
    + now rewrite set_ledger_same.
  - injection H as _ <-.
    exact (recalculate_loop_writes_balances_only _ _ _ _ _ E).
Qed.

Lemma Forall2_same_but_balance_map (f : LedgerEntry.t -> nat) l l' :
  (forall r v, f (LedgerEntry.set_running_balance r v) = f r) ->
  Forall2 same_but_balance l l' -> map f l' = map f l.
Proof.
  intros Hf. induction 1 as [|a b l l' Hab H IH]; simpl; [reflexivity|].
  rewrite IH. f_equal. rewrite Hab. apply Hf.
Qed.

(** At most one entry per (reference_type, reference_id, entry_type) among
    the entries that have a reference: the constraint
    [unique_reference_entry] as a property of the table. *)
Fixpoint references_unique (rows : list LedgerEntry.t) : Prop :=
  match rows with
  | [] => True
  | a :: rest =>
      (forall b, In b rest -> same_reference_entry a b = false)
      /\ references_unique rest
  end.

Lemma references_unique_snoc rows e :
  references_unique rows ->
  (forall a, In a rows -> same_reference_entry a e = false) ->
  references_unique (rows ++ [e]).
Proof.
  induction rows as [|x rows IH]; simpl; intros Hu Hnew.
  - split; [intros b [] | exact I].
  - destruct Hu as [Hx Hu]. split.
    + intros b Hb. apply in_app_or in Hb.
      destruct Hb as [Hb | [<- | []]]; [now apply Hx | apply Hnew; now left].
    + apply IH; [exact Hu | intros a Ha; apply Hnew; now right].
Qed.

Lemma same_reference_entry_balance a b a' b' :
  same_but_balance a a' -> same_but_balance b b' ->
  same_reference_entry a' b' = same_reference_entry a b.
Proof. unfold same_but_balance. intros -> ->. reflexivity. Qed.

Lemma Forall2_In_right {A B : Type} (R : A -> B -> Prop) l l' b :
  Forall2 R l l' -> In b l' -> exists a, In a l /\ R a b.
Proof.
  induction 1 as [|x y l l' Hxy H IH]; simpl; [contradiction|].
  intros [<- | Hb].
  - exists x. auto.
  - destruct (IH Hb) as [a [Ha Hab]]. exists a. auto.
Qed.

Lemma references_unique_same_but_balance l l' :
  Forall2 same_but_balance l l' -> references_unique l ->
  references_unique l'.
Proof.
  induction 1 as [|a a' l l' Ha H IH]; simpl; [auto|].
  intros [Hx Hu]. split; [|now apply IH].
  intros b' Hb'.
  destruct (Forall2_In_right _ _ _ b' H Hb') as [b [Hb Hbb]].
  rewrite (same_reference_entry_balance a b a' b' Ha Hbb). now apply Hx.
Qed.

(** X6. Reference uniqueness is an invariant of the service: when the
    ledger holds at most one entry per (reference_type, reference_id,
    entry_type) among the entries with a reference, it still does after any
    call of [_create_entry] and after any call of
    [recalculate_party_balance], whether the call returns or raises. *)
Theorem reference_uniqueness_is_kept
    (company : nat) (party_type : PartyType) (party_id : nat)
    (entry_type : EntryType) (debit credit : Decimal)
    (transaction_date : Date) (description : string)
    (reference_object : option ModelInstance) (now : DateTime) (db : DB) :
  references_unique (ledger_entries db) ->
  references_unique
    (ledger_entries
       (snd (LedgerService._create_entry company party_type party_id
               entry_type debit credit transaction_date description
               reference_object now db)))
  /\ references_unique
       (ledger_entries
          (snd (LedgerService.recalculate_party_balance company party_type
                  party_id db))).
Proof.
  intros Hu. split.
  - unfold LedgerService._create_entry, atomic, bind, get_db,
      LedgerService.insert_after, LedgerEntry_objects_create.
    destruct (violates_unique_reference_entry _ _) eqn:V; simpl;
      [exact Hu|].
    apply references_unique_snoc; [exact Hu|].
    apply existsb_false_iff. exact V.
  - destruct (LedgerService.recalculate_party_balance company party_type
                party_id db) as [r db'] eqn:E.
    destruct (recalculate_party_balance_writes_balances_only company
                party_type party_id db r db' E) as [H _].
    simpl. eapply references_unique_same_but_balance; eauto.
Qed.

Lemma reference_uniqueness_is_kept_witness :
  references_unique
    (ledger_entries
       (snd (LedgerService._create_entry 1 customer 5 invoice 2500 0 19730
               "Invoice INV-9" (Some (mkInstance InvoiceModel 9)) 3000
               drifted_ledger)))
  /\ references_unique
       (ledger_entries
          (snd (LedgerService.recalculate_party_balance 1 customer 5
                  drifted_ledger))).
Proof.
  apply (reference_uniqueness_is_kept 1 customer 5 invoice 2500 0 19730
           "Invoice INV-9" (Some (mkInstance InvoiceModel 9)) 3000
           drifted_ledger).
  simpl. repeat split; intros b Hb; simpl in Hb;
    repeat (destruct Hb as [<- | Hb]; [reflexivity|]); contradiction.
Defined.

(** Primary keys identify the ledger rows and the sequence is ahead of
    them. *)
Definition ledger_keys_fresh (db : DB) : Prop :=
  unique_ledger_pks db
  /\ forall e, In e (ledger_entries db) ->
               (LedgerEntry.id e < ledger_seq db)%nat.

(** X7. Distinct primary keys below the sequence are an invariant of the
    service: [_create_entry] hands the new row the sequence value and
    advances the sequence when it returns, restores the database when it
    raises, and [recalculate_party_balance] changes no primary key. *)
Theorem ledger_keys_stay_fresh
    (company : nat) (party_type : PartyType) (party_id : nat)
    (entry_type : EntryType) (debit credit : Decimal)
    (transaction_date : Date) (description : string)
    (reference_object : option ModelInstance) (now : DateTime) (db : DB) :
  ledger_keys_fresh db ->
  ledger_keys_fresh
    (snd (LedgerService._create_entry company party_type party_id entry_type
            debit credit transaction_date description reference_object now
            db))
  /\ ledger_keys_fresh
       (snd (LedgerService.recalculate_party_balance company party_type
               party_id db)).
Proof.
  intros [Hnd Hlt]. split.
  - unfold LedgerService._create_entry, atomic, bind, get_db,
      LedgerService.insert_after, LedgerEntry_objects_create.
    destruct (violates_unique_reference_entry _ _); simpl;
      [split; assumption|].
    split.
    + unfold unique_ledger_pks. simpl. rewrite map_app. simpl.
      eapply Permutation_NoDup; [apply Permutation_cons_append|].
      constructor; [|exact Hnd].
      intros Hin. apply in_map_iff in Hin. destruct Hin as [x [Hx Hin]].
      pose proof (Hlt x Hin). lia.
    + simpl. intros e He. apply in_app_or in He.
      destruct He as [He | [<- | []]]; [pose proof (Hlt e He); lia|].
      simpl. lia.
  - destruct (LedgerService.recalculate_party_balance company party_type
                party_id db) as [r db'] eqn:E.
    destruct (recalculate_party_balance_writes_balances_only company
                party_type party_id db r db' E) as [H Hdb].
    simpl. split.
    + unfold unique_ledger_pks.
      rewrite (Forall2_same_but_balance_map LedgerEntry.id _ _
                 (fun r v => eq_refl) H).
      exact Hnd.
    + intros e He.
      destruct (Forall2_In_right _ _ _ e H He) as [a [Ha Hae]].
      rewrite Hdb. simpl. rewrite Hae. simpl. now apply Hlt.
Qed.

Lemma ledger_keys_stay_fresh_witness :
  ledger_keys_fresh
    (snd (LedgerService._create_entry 1 customer 5 invoice 2500 0 19730
            "Invoice INV-9" (Some (mkInstance InvoiceModel 9)) 3000
            drifted_ledger))
  /\ ledger_keys_fresh
       (snd (LedgerService.recalculate_party_balance 1 customer 5
               drifted_ledger)).
Proof.
  apply (ledger_keys_stay_fresh 1 customer 5 invoice 2500 0 19730
           "Invoice INV-9" (Some (mkInstance InvoiceModel 9)) 3000
           drifted_ledger).
  split.
  - unfold unique_ledger_pks. simpl.
    repeat (constructor; [simpl; lia|]). constructor.
  - simpl. intros e [<- | [<- | [<- | []]]]; simpl; lia.
Defined.

(** ** Recalculation: what it repairs and what it leaves alone *)

Lemma last_balance_rebalance prev entries :
  last_balance prev (rebalance prev entries) = prev + net_movement entries.
Proof.
  revert prev. induction entries as [|e es IH]; intros prev.
  - unfold net_movement, last_balance. simpl. lia.
  - unfold net_movement, last_balance in *. simpl. rewrite IH. lia.
Qed.

(** X8. In a ledger with distinct primary keys,
    [recalculate_party_balance] returns without raising and leaves the
    party's entries, in (transaction_date, created_at) order, satisfying the
    balance recurrence from 0, whatever balances were stored before. *)
Theorem recalculation_repairs_recurrence
    (company : nat) (party_type : PartyType) (party_id : nat) (db : DB) :
  unique_ledger_pks db ->
  exists final_balance db',
    LedgerService.recalculate_party_balance company party_type party_id db
    = (inr final_balance, db')
    /\ balance_recurrence company party_type party_id db'
    /\ final_balance
       = last_balance 0 (party_entries company party_type party_id db').
Proof.
  intros Hnd.
  pose proof (recalculate_party_balance_spec company party_type party_id Hnd)
    as Hspec.
  pose proof (recalculation_restores_recurrence company party_type party_id
                Hnd) as Hrec.
  pose proof (party_entries_after_recalculation company party_type party_id
                Hnd) as Hes.
  rewrite Hspec in Hrec, Hes. simpl in Hrec, Hes.
  eexists. eexists. split; [exact Hspec|]. split; [exact Hrec|].
  rewrite Hes, last_balance_rebalance. lia.
Qed.

Lemma recalculation_repairs_recurrence_witness :
  exists final_balance db',
    LedgerService.recalculate_party_balance 1 customer 5 drifted_ledger
    = (inr final_balance, db')
    /\ balance_recurrence 1 customer 5 db'
    /\ final_balance = last_balance 0 (party_entries 1 customer 5 db').
Proof.
  apply (recalculation_repairs_recurrence 1 customer 5 drifted_ledger).
  unfold unique_ledger_pks. simpl.
  repeat (constructor; [simpl; lia|]). constructor.
Defined.

Lemma balance_of_Some_in entries prev pk b :
  balance_of entries prev pk = Some b ->
  exists e, In e entries /\ LedgerEntry.id e = pk.
Proof.
  revert prev. induction entries as [|e rest IH]; simpl; intros prev H;
    [discriminate|].
  destruct (Nat.eqb_spec (LedgerEntry.id e) pk) as [E|E].
  - exists e. auto.
  - destruct (IH _ H) as [x [Hx Hid]]. exists x. auto.
Qed.

Lemma Forall2_map_right {A : Type} (R : A -> A -> Prop) (f : A -> A) l :
  (forall x, In x l -> R x (f x)) -> Forall2 R l (map f l).
Proof.
  induction l as [|x l IH]; simpl; intros H; constructor.
  - apply H. now left.
  - apply IH. intros y Hy. apply H. now right.
Qed.

(** X9. In a ledger with distinct primary keys,
    [recalculate_party_balance] writes nothing but running balances of the
    party's own rows: row by row, the ledger after the call has the same
    rows in the same order, a row of another party (or company) is
    unchanged, a row of the party differs at most in [running_balance], and
    every other table and the sequences are as before. *)
Theorem recalculation_touches_only_party_balances
    (company : nat) (party_type : PartyType) (party_id : nat) (db : DB) :
  unique_ledger_pks db ->
  let db' :=
    snd (LedgerService.recalculate_party_balance company party_type party_id
           db) in
  Forall2
    (fun r r' =>
       same_but_balance r r'
       /\ (LedgerService.party_filter company party_type party_id r = false ->
           r' = r))
    (ledger_entries db) (ledger_entries db')
  /\ db' = set_ledger db (ledger_entries db') (ledger_seq db).
Proof.
  intros Hnd db'. unfold db'.
  rewrite (recalculate_party_balance_spec company party_type party_id Hnd).
  simpl. split; [|reflexivity].
  apply Forall2_map_right. intros r Hr. unfold with_balance.
  destruct (balance_of _ 0 (LedgerEntry.id r)) as [b|] eqn:E.
  - split; [reflexivity|]. intros Hpf. exfalso.
    apply balance_of_Some_in in E. destruct E as [e [He Hid]].
    unfold party_entries in He. apply order_by_In in He.
    apply filter_In in He. destruct He as [He Hpe].
    assert (e = r)
      by (apply (NoDup_map_In_inj LedgerEntry.id (ledger_entries db));
          auto).
    subst e. congruence.
  - split; [apply same_but_balance_refl | reflexivity].
Qed.

Lemma recalculation_touches_only_party_balances_witness :
  Forall2
    (fun r r' =>
       same_but_balance r r'
       /\ (LedgerService.party_filter 1 customer 5 r = false -> r' = r))
    (ledger_entries drifted_ledger)
    (ledger_entries
       (snd (LedgerService.recalculate_party_balance 1 customer 5
               drifted_ledger)))
  /\ snd (LedgerService.recalculate_party_balance 1 customer 5
            drifted_ledger)
     = set_ledger drifted_ledger
         (ledger_entries
            (snd (LedgerService.recalculate_party_balance 1 customer 5
                    drifted_ledger)))
         (ledger_seq drifted_ledger).
Proof.
  apply (recalculation_touches_only_party_balances 1 customer 5
           drifted_ledger).
  unfold unique_ledger_pks. simpl.
  repeat (constructor; [simpl; lia|]). constructor.
Defined.

(** Distinct (transaction_date, created_at) keys among a party's entries. *)
Definition distinct_keys (company : nat) (party_type : PartyType)
    (party_id : nat) (db : DB) : Prop :=
  forall a b,
    In a (party_entries company party_type party_id db) ->
    In b (party_entries company party_type party_id db) ->
    LedgerEntry.transaction_date a = LedgerEntry.transaction_date b ->
    LedgerEntry.created_at a = LedgerEntry.created_at b -> a = b.

(** X10. After [recalculate_party_balance] for a customer whose entries
    have distinct primary keys and distinct (transaction_date, created_at)
    keys, [get_customer_outstanding] returns the balance the recalculation
    returned: the sum over the customer's entries of debit minus credit. *)
Theorem outstanding_after_recalculation
    (company customer_id : nat) (db : DB) :
  unique_ledger_pks db ->
  distinct_keys company customer customer_id db ->
  let result :=
    LedgerService.recalculate_party_balance company customer customer_id db in
  fst result
  = inr (LedgerService.get_customer_outstanding company customer_id
           (snd result))
  /\ LedgerService.get_customer_outstanding company customer_id (snd result)
     = net_movement
         (filter (LedgerService.party_filter company customer customer_id)
                 (ledger_entries db)).
Proof.
  intros Hnd Hkeys result.
  assert (Hout :
    LedgerService.get_customer_outstanding company customer_id (snd result)
    = net_movement (party_entries company customer customer_id db)).
  { rewrite get_customer_outstanding_current. unfold current_balance.
    rewrite previous_balance_is_last_balance.
    - unfold result.
      rewrite (party_entries_after_recalculation company customer
                 customer_id Hnd).
      rewrite last_balance_rebalance. lia.
    - unfold result.
      rewrite (party_entries_after_recalculation company customer
                 customer_id Hnd).
      rewrite <- (map_with_balance_rebalance 0
                    (party_entries company customer customer_id db))
        by (now apply party_entries_unique).
      intros a' b' Ha' Hb' Hd Hc.
      apply in_map_iff in Ha'. destruct Ha' as [a [<- Ha]].
      apply in_map_iff in Hb'. destruct Hb' as [b [<- Hb]].
      f_equal. apply Hkeys; auto.
      + revert Hd. unfold with_balance.
        destruct (balance_of _ 0 (LedgerEntry.id a)),
                 (balance_of _ 0 (LedgerEntry.id b)); simpl; auto.
      + revert Hc. unfold with_balance.
        destruct (balance_of _ 0 (LedgerEntry.id a)),
                 (balance_of _ 0 (LedgerEntry.id b)); simpl; auto. }
  split.
  - rewrite Hout. unfold result.
    now rewrite (recalculate_party_balance_spec company customer customer_id
                   Hnd).
  - rewrite Hout. unfold net_movement, party_entries.
    apply Sum_perm, order_by_perm.
Qed.

Lemma outstanding_after_recalculation_witness :
  fst (LedgerService.recalculate_party_balance 1 customer 5 drifted_ledger)
  = inr (LedgerService.get_customer_outstanding 1 5
           (snd (LedgerService.recalculate_party_balance 1 customer 5
                   drifted_ledger)))
  /\ LedgerService.get_customer_outstanding 1 5
       (snd (LedgerService.recalculate_party_balance 1 customer 5
               drifted_ledger))
     = net_movement
         (filter (LedgerService.party_filter 1 customer 5)
                 (ledger_entries drifted_ledger)).
Proof.
  apply (outstanding_after_recalculation 1 5 drifted_ledger).
  - unfold unique_ledger_pks. simpl.
    repeat (constructor; [simpl; lia|]). constructor.
  - intros a b Ha Hb. vm_compute in Ha, Hb.
    destruct Ha as [<- | [<- | []]], Hb as [<- | [<- | []]];
      simpl; intros Hd Hc; try reflexivity; discriminate.
Defined.

(** X11. A creation that comes after the party's stored entries keeps the
    balance recurrence: when the party's entries satisfy the recurrence and
    have distinct (transaction_date, created_at) keys, the new entry's
    transaction date and creation time are not before those of any stored
    entry of the party, and its reference is free, [_create_entry] returns
    and the party's entries, with the new one, satisfy the recurrence. *)
Theorem creation_in_order_keeps_recurrence
    (company : nat) (party_type : PartyType) (party_id : nat)
    (entry_type : EntryType) (debit credit : Decimal)
    (transaction_date : Date) (description : string)
    (reference_object : option ModelInstance) (now : DateTime) (db : DB) :
  balance_recurrence company party_type party_id db ->
  distinct_keys company party_type party_id db ->
  (forall a, In a (party_entries company party_type party_id db) ->
     LedgerEntry.transaction_date a <= transaction_date
     /\ LedgerEntry.created_at a <= now) ->
  reference_is_free db entry_type reference_object ->
  exists e db',
    LedgerService._create_entry company party_type party_id entry_type debit
      credit transaction_date description reference_object now db
    = (inr e, db')
    /\ balance_recurrence company party_type party_id db'.
Proof.
  intros Hrec Hkeys Hlater Hfree.
  destruct (create_entry_returns company party_type party_id entry_type debit
              credit transaction_date description reference_object now db
              Hfree) as [e [Hrun _]].
  eexists. eexists. split; [exact Hrun|].
  eapply create_entry_in_order_keeps_recurrence;
    [exact Hrec | exact Hkeys | exact Hlater | exact Hrun].
Qed.

Lemma creation_in_order_keeps_recurrence_witness :
  exists e db',
    LedgerService._create_entry 1 customer 5 payment 0 6000 19730
      "Payment received from Acme" None 3000 db_one_invoice = (inr e, db')
    /\ balance_recurrence 1 customer 5 db'.
Proof.
  apply (creation_in_order_keeps_recurrence 1 customer 5 payment 0 6000 19730
           "Payment received from Acme" None 3000 db_one_invoice).
  - unfold balance_recurrence. vm_compute. auto.
  - intros a b Ha Hb. vm_compute in Ha, Hb.
    destruct Ha as [<- | []], Hb as [<- | []]. reflexivity.
  - intros a Ha. vm_compute in Ha. destruct Ha as [<- | []]. simpl. lia.
  - apply reference_is_free_None.
Defined.

(** ** The ledger statement *)

(** [get_entry_type_display] *)
Definition get_entry_type_display (e : LedgerEntry.t) : string :=
  match LedgerEntry.entry_type e with
  | invoice => "Invoice"
  | payment => "Payment"
  | purchase => "Purchase"
  | adjustment => "Adjustment"
  end.

(** One dictionary of the list [get_ledger_statement] returns. The
    ['reference'] value is the object the generic foreign key points to; it
    is given here by the two columns that identify it. *)
Record StatementLine : Type := mkLine {
  line_date : Date;
  line_description : string;
  line_entry_type : string;
  line_debit : Decimal;
  line_credit : Decimal;
  line_balance : Decimal;
  line_reference : option (ContentType * nat)
}.

Definition statement_line (e : LedgerEntry.t) : StatementLine :=
  mkLine (LedgerEntry.transaction_date e) (LedgerEntry.description e)
    (get_entry_type_display e) (LedgerEntry.debit e) (LedgerEntry.credit e)
    (LedgerEntry.running_balance e)
    (match LedgerEntry.reference_type e, LedgerEntry.reference_id e with
     | Some ct, Some i => Some (ct, i)
     | _, _ => None
     end).

(** [LedgerService.get_ledger_statement]; a bound that is [None] is not
    applied. *)
Definition get_ledger_statement (company : nat) (party_type : PartyType)
    (party_id : nat) (start_date end_date : option Date) (db : DB)
    : list StatementLine :=
  let queryset :=
    filter (LedgerService.party_filter company party_type party_id)
           (ledger_entries db) in
  let queryset :=
    match start_date with
    | Some s => filter (fun e => s <=? LedgerEntry.transaction_date e) queryset
    | None => queryset
    end in
  let queryset :=
    match end_date with
    | Some t => filter (fun e => LedgerEntry.transaction_date e <=? t) queryset
    | None => queryset
    end in
  let entries := order_by LedgerEntry.key_leb queryset in
  map statement_line entries.

(** The date window of a statement. *)
Definition in_window (start_date end_date : option Date) (d : Date) : bool :=
  match start_date with Some s => s <=? d | None => true end
  && match end_date with Some t => d <=? t | None => true end.

Section OrderByFilter.
Context {A : Type}.
Variables (leb : A -> A -> bool) (p : A -> bool).
Hypothesis leb_trans :
  forall a b c, leb a b = true -> leb b c = true -> leb a c = true.
Hypothesis leb_total : forall a b, leb a b = false -> leb b a = true.

Lemma insert_ordered_below x s :
  (forall z, In z s -> leb x z = true) -> insert_ordered leb x s = x :: s.
Proof.
  destruct s as [|y s]; simpl; intros H; [reflexivity|].
  now rewrite (H y (or_introl eq_refl)).
Qed.

Lemma filter_insert_ordered x s :
  StronglySorted (fun a b => leb a b = true) s ->
  filter p (insert_ordered leb x s)
  = if p x then insert_ordered leb x (filter p s) else filter p s.
Proof.
  induction 1 as [|y s Hs IH Hall]; simpl.
  - destruct (p x); reflexivity.
  - destruct (leb x y) eqn:Hxy; simpl.
    + destruct (p x) eqn:Hpx; [|reflexivity].
      symmetry. apply insert_ordered_below.
      intros z Hz.
      assert (Hin : In z (y :: s)).
      { destruct (p y); [|apply filter_In in Hz; right; tauto].
        destruct Hz as [<- | Hz]; [now left |].
        apply filter_In in Hz. right. tauto. }
      destruct Hin as [<- | Hin]; [exact Hxy|].
      rewrite Forall_forall in Hall.
      apply leb_trans with y; [exact Hxy | now apply Hall].
    + rewrite IH. destruct (p y) eqn:Hpy, (p x) eqn:Hpx; simpl;
        rewrite ?Hxy; reflexivity.
Qed.

Lemma order_by_filter l :
  order_by leb (filter p l) = filter p (order_by leb l).
Proof.
  induction l as [|x l IH]; simpl; [reflexivity|].
  rewrite filter_insert_ordered
    by (apply order_by_sorted; [exact leb_total | exact leb_trans]).
  destruct (p x); simpl; now rewrite IH.
Qed.

End OrderByFilter.

Lemma filter_filter {A : Type} (p q : A -> bool) l :
  filter p (filter q l) = filter (fun x => q x && p x) l.
Proof.
  induction l as [|x l IH]; simpl; [reflexivity|].
  destruct (q x); simpl; [destruct (p x); now rewrite IH | exact IH].
Qed.

Lemma filter_all {A : Type} (l : list A) : filter (fun _ => true) l = l.
Proof. induction l as [|x l IH]; simpl; [reflexivity | now rewrite IH]. Qed.

Lemma filter_map_lines (q : StatementLine -> bool) l :
  filter q (map statement_line l)
  = map statement_line (filter (fun e => q (statement_line e)) l).
Proof.
  induction l as [|x l IH]; simpl; [reflexivity|].
  destruct (q (statement_line x)); simpl; now rewrite IH.
Qed.

(** X12. A statement over a date window is the full statement with the
    lines outside the window left out: the lines inside keep their order
    and their stored balances, nothing is recomputed for the window. A
    bound that is absent does not restrict. *)
Theorem statement_window_is_a_filter
    (company : nat) (party_type : PartyType) (party_id : nat)
    (start_date end_date : option Date) (db : DB) :
  get_ledger_statement company party_type party_id start_date end_date db
  = filter (fun l => in_window start_date end_date (line_date l))
      (get_ledger_statement company party_type party_id None None db).
Proof.
  unfold get_ledger_statement. cbv zeta.
  rewrite filter_map_lines. f_equal. simpl.
  rewrite <- (order_by_filter LedgerEntry.key_leb _ key_leb_trans
                key_leb_total).
  f_equal. unfold in_window.
  destruct start_date as [s|], end_date as [t|]; simpl.
  - rewrite filter_filter. reflexivity.
  - apply filter_ext. intros e. now rewrite andb_true_r.
  - reflexivity.
  - symmetry. apply filter_all.
Qed.

(** The balance recurrence read off the lines of a statement. *)
Fixpoint lines_recurrence (prev : Decimal) (lines : list StatementLine)
    : Prop :=
  match lines with
  | [] => True
  | l :: rest =>
      line_balance l = prev + line_debit l - line_credit l
      /\ lines_recurrence (line_balance l) rest
  end.

(** The balance on the last line of a statement, [prev] for no line. *)
Definition closing_balance (prev : Decimal) (lines : list StatementLine)
    : Decimal :=
  fold_left (fun _ l => line_balance l) lines prev.

Lemma full_statement_is_party_entries company party_type party_id db :
  get_ledger_statement company party_type party_id None None db
  = map statement_line (party_entries company party_type party_id db).
Proof. reflexivity. Qed.

Lemma lines_recurrence_map prev entries :
  lines_recurrence prev (map statement_line entries)
  <-> recurrence_from prev entries.
Proof.
  revert prev. induction entries as [|e rest IH]; simpl; intros prev.
  - tauto.
  - rewrite IH. tauto.
Qed.

Lemma closing_balance_map prev entries :
  closing_balance prev (map statement_line entries)
  = last_balance prev entries.
Proof.
  unfold closing_balance, last_balance. revert prev.
  induction entries as [|e rest IH]; simpl; intros prev; [reflexivity|].
  apply IH.
Qed.

(** X13. For a customer whose entries satisfy the balance recurrence and
    have distinct (transaction_date, created_at) keys, the statement
    without date bounds lists the entries by date ascending, every line's
    balance is the previous line's balance plus debit minus credit (from 0),
    and the balance on the last line is what [get_customer_outstanding]
    returns. *)
Theorem full_statement_closes_on_outstanding
    (company customer_id : nat) (db : DB) :
  balance_recurrence company customer customer_id db ->
  distinct_keys company customer customer_id db ->
  let statement :=
    get_ledger_statement company customer customer_id None None db in
  StronglySorted (fun a b => line_date a <= line_date b) statement
  /\ lines_recurrence 0 statement
  /\ closing_balance 0 statement
     = LedgerService.get_customer_outstanding company customer_id db.
Proof.
  intros Hrec Hkeys statement. unfold statement.
  rewrite full_statement_is_party_entries. split; [|split].
  - assert (Hs : StronglySorted
                   (fun a b => LedgerEntry.key_leb a b = true)
                   (party_entries company customer customer_id db)).
    { unfold party_entries.
      apply order_by_sorted; [exact key_leb_total | exact key_leb_trans]. }
    induction Hs as [|e es Hs IH Hall]; simpl; constructor.
    + exact IH.
    + rewrite Forall_forall in *. intros l Hl.
      apply in_map_iff in Hl. destruct Hl as [x [<- Hx]].
      pose proof (Hall x Hx) as Hle. apply key_leb_spec in Hle.
      unfold not_before in Hle. simpl. lia.
  - apply lines_recurrence_map. exact Hrec.
  - rewrite closing_balance_map, get_customer_outstanding_current.
    unfold current_balance. symmetry.
    now apply previous_balance_is_last_balance.
Qed.

Definition settled_ledger : DB :=
  mkDB
    [ LedgerEntry.mk 1 1 customer 5 invoice 10000 0 10000
        (Some InvoiceModel) (Some 7%nat) "Invoice INV-7" 19724 1000;
      LedgerEntry.mk 2 1 customer 5 payment 0 6000 4000
        None None "Payment received from Acme" 19728 2000;
      LedgerEntry.mk 3 1 customer 6 invoice 2500 0 2500
        (Some InvoiceModel) (Some 8%nat) "Invoice INV-8" 19725 3000 ]
    4 [Customer.mk 5 1 "Acme" false; Customer.mk 6 1 "Bolt" false]
    [] [] 1 [] 1.

Lemma full_statement_closes_on_outstanding_witness :
  StronglySorted (fun a b => line_date a <= line_date b)
    (get_ledger_statement 1 customer 5 None None settled_ledger)
  /\ lines_recurrence 0
       (get_ledger_statement 1 customer 5 None None settled_ledger)
  /\ closing_balance 0
       (get_ledger_statement 1 customer 5 None None settled_ledger)
     = LedgerService.get_customer_outstanding 1 5 settled_ledger.
Proof.
  apply (full_statement_closes_on_outstanding 1 5 settled_ledger).
  - unfold balance_recurrence. vm_compute. auto.
  - intros a b Ha Hb. vm_compute in Ha, Hb.
    destruct Ha as [<- | [<- | []]], Hb as [<- | [<- | []]];
      simpl; intros Hd Hc; try reflexivity; discriminate.
Defined.

(** The statement of the window that starts on day 19726 opens on the
    stored balance 40.00, although the window holds one credit of 60.00. *)
Example statement_window_keeps_balances :
  map (fun l => (line_date l, line_credit l, line_balance l))
      (get_ledger_statement 1 customer 5 (Some 19726) None settled_ledger)
  = [(19728, 6000, 4000)].
Proof. reflexivity. Qed.

(** ** What the two listings never show *)

Lemma first_In {A : Type} (l : list A) x : first l = Some x -> In x l.
Proof. destruct l; simpl; [discriminate|]. intros H. injection H as ->. now left. Qed.

Lemma entry_at_latest_In company party_type info rows e :
  LedgerService.entry_at_latest company party_type info rows = Some e ->
  In e rows
  /\ LedgerService.party_filter company party_type
       (LedgerService.info_party_id info) e = true.
Proof.
  unfold LedgerService.entry_at_latest. intros H.
  apply first_In in H. apply order_by_In in H. apply filter_In in H.
  destruct H as [Hin H]. rewrite !andb_true_iff in H. tauto.
Qed.

Lemma latest_entries_party_ids_unique company party_type rows :
  NoDup (map LedgerService.info_party_id
           (LedgerService.latest_entries company party_type rows)).
Proof.
  unfold LedgerService.latest_entries. rewrite map_map. simpl.
  rewrite map_id. apply NoDup_nodup.
Qed.

Lemma NoDup_flat_map_keys {A B : Type} (key : A -> nat) (f : A -> list B)
    (g : B -> nat) l :
  NoDup (map key l) ->
  (forall x b, In b (f x) -> f x = [b] /\ g b = key x) ->
  NoDup (map g (flat_map f l)).
Proof.
  intros Hnd Hf. induction l as [|x l IH]; simpl; [constructor|].
  inversion Hnd as [|? ? Hnotin Hnd']; subst.
  rewrite map_app. destruct (f x) as [|b rest] eqn:E; simpl.
  - now apply IH.
  - destruct (Hf x b) as [Hone Hkey]; [rewrite E; now left|].
    rewrite E in Hone. injection Hone as ->. simpl.
    constructor; [|now apply IH].
    intros Hin. apply in_map_iff in Hin. destruct Hin as [b' [Hg Hb']].
    apply in_flat_map in Hb'. destruct Hb' as [y [Hy Hb']].
    destruct (Hf y b' Hb') as [_ Hkey'].
    apply Hnotin. rewrite <- Hkey, <- Hg, Hkey'. now apply in_map.
Qed.

Lemma payable_row_In company db info r :
  In r (LedgerService.payable_row company db info) ->
  LedgerService.payable_row company db info = [r]
  /\ LedgerService.payable_supplier_id r = LedgerService.info_party_id info
  /\ exists e,
       In e (ledger_entries db)
       /\ LedgerService.party_filter company supplier
            (LedgerService.info_party_id info) e = true
       /\ LedgerEntry.running_balance e < 0
       /\ LedgerService.payable_balance r = - LedgerEntry.running_balance e.
Proof.
  unfold LedgerService.payable_row.
  destruct (LedgerService.entry_at_latest company supplier info
              (ledger_entries db)) as [e|] eqn:E; [|contradiction].
  destruct (Z.ltb_spec (LedgerEntry.running_balance e) 0) as [Hneg|Hpos];
    [|contradiction].
  intros [<- | []]. split; [reflexivity|]. split; [reflexivity|].
  apply entry_at_latest_In in E. exists e. simpl.
  repeat split; try tauto. lia.
Qed.

(** X14. [get_all_payable_suppliers] returns a list sorted by balance,
    descending, in which no supplier appears twice, and every row shows a
    positive balance: the negated running balance of one of that supplier's
    entries in the company, an entry whose running balance is negative. A
    supplier that is owed nothing, or that owes us, is not listed. *)
Theorem payable_suppliers_listing (company : nat) (db : DB) :
  let listing := LedgerService.get_all_payable_suppliers company db in
  StronglySorted
    (fun a b => LedgerService.payable_balance b
                <= LedgerService.payable_balance a) listing
  /\ NoDup (map LedgerService.payable_supplier_id listing)
  /\ forall r, In r listing ->
       0 < LedgerService.payable_balance r
       /\ exists e,
            In e (ledger_entries db)
            /\ LedgerEntry.company e = company
            /\ LedgerEntry.party_type e = supplier
            /\ LedgerEntry.party_id e = LedgerService.payable_supplier_id r
            /\ LedgerEntry.running_balance e < 0
            /\ LedgerService.payable_balance r
               = - LedgerEntry.running_balance e.
Proof.
  intros listing. unfold listing, LedgerService.get_all_payable_suppliers.
  split; [|split].
  - eapply StronglySorted_weaken; [| apply order_by_sorted].
    + intros a b H. apply Z.leb_le. exact H.
    + intros a b. simpl. rewrite Z.leb_gt, Z.leb_le. lia.
    + intros a b c. simpl. rewrite !Z.leb_le. lia.
  - eapply Permutation_NoDup.
    + apply Permutation_map, Permutation_sym, order_by_perm.
    + apply (NoDup_flat_map_keys LedgerService.info_party_id).
      * apply latest_entries_party_ids_unique.
      * intros x b Hb. apply payable_row_In in Hb. tauto.
  - intros r Hr. apply order_by_In in Hr. apply in_flat_map in Hr.
    destruct Hr as [info [_ Hr]]. apply payable_row_In in Hr.
    destruct Hr as [_ [Hid [e [He [Hpf [Hneg Hbal]]]]]].
    apply party_filter_true in Hpf. destruct Hpf as [Hc [Ht Hp]].
    split; [lia|]. exists e. rewrite Hid. tauto.
Qed.

(** X15. [get_all_outstanding_customers] returns a list in which no
    customer appears twice, and every row shows a positive balance (the
    running balance of one of that customer's entries in the company)
    together with the id and the name of a live Customer row of the
    company. A customer whose balance is zero or negative (overpaid) is not
    listed. *)
Theorem outstanding_customers_rows (company : nat) (db : DB) :
  let listing := LedgerService.get_all_outstanding_customers company db in
  NoDup (map LedgerService.customer_id listing)
  /\ forall r, In r listing ->
       0 < LedgerService.balance r
       /\ (exists c,
             In c (customers db)
             /\ Customer.is_deleted c = false
             /\ Customer.company c = company
             /\ Customer.id c = LedgerService.customer_id r
             /\ Customer.name c = LedgerService.customer_name r)
       /\ exists e,
            In e (ledger_entries db)
            /\ LedgerEntry.company e = company
            /\ LedgerEntry.party_type e = customer
            /\ LedgerEntry.party_id e = LedgerService.customer_id r
            /\ LedgerEntry.running_balance e = LedgerService.balance r.
Proof.
  intros listing. unfold listing. split.
  - unfold LedgerService.get_all_outstanding_customers.
    eapply Permutation_NoDup.
    + apply Permutation_map, Permutation_sym, order_by_perm.
    + apply (NoDup_flat_map_keys LedgerService.info_party_id).
      * apply latest_entries_party_ids_unique.
      * intros x b Hb. pose proof Hb as Hb'.
        apply outstanding_row_In in Hb'.
        destruct Hb' as [Hid [e [c [He [Hpos [Hget ->]]]]]].
        split; [|exact Hid].
        unfold LedgerService.outstanding_row in *.
        rewrite He, Hget in *. apply Z.ltb_lt in Hpos. rewrite Hpos in *.
        reflexivity.
  - intros r Hr. apply get_all_outstanding_customers_In in Hr.
    destruct Hr as [info [_ Hr]]. apply outstanding_row_In in Hr.
    destruct Hr as [Hid [e [c [He [Hpos [Hget ->]]]]]].
    apply Customer_objects_get_spec in Hget.
    apply entry_at_latest_In in He. destruct He as [He Hpf].
    apply party_filter_true in Hpf. simpl in *.
    split; [exact Hpos|]. split.
    + exists c. tauto.
    + exists e. destruct Hget as [_ [_ [Hcid _]]]. rewrite Hcid. tauto.
Qed.

(** * Further properties of payment recording *)

(** ** How much the FIFO branch allocates *)

(** The invoices the FIFO branch walks through, for a company and a
    customer: [PaymentCreateView.unpaid_invoices] of any payment of
    theirs. *)
Definition open_invoices (company customer_id : nat) (db : DB)
    : list Invoice.t :=
  order_by (fun a b => Invoice.date a <=? Invoice.date b)
    (filter (fun i => negb (Invoice.is_deleted i)
                      && Nat.eqb (Invoice.company i) company
                      && Nat.eqb (Invoice.customer i) customer_id
                      && InvoiceStatus_eqb (Invoice.status i) sent)
            (invoices db)).




Lemma Sum_cons {A : Type} (f : A -> Decimal) x l :
  Sum f (x :: l) = f x + Sum f l.
Proof. reflexivity. Qed.


Lemma fifo_spec_amounts remaining l i amt :
  In (i, amt) (fifo_spec remaining l) ->
  0 < amt /\ exists out, In (i, out) l /\ amt <= out.
Proof.
  revert remaining. induction l as [|[j out] l IH]; intros remaining; simpl;
    [contradiction|].
  destruct (Z.leb_spec remaining 0) as [H0|H0]; [contradiction|].
  destruct (Z.leb_spec out 0) as [Ho|Ho].
  - intros H. destruct (IH _ H) as [Hp [o [Ho' Hle]]].
    split; [exact Hp|]. exists o. auto.
  - intros [H | H].
    + injection H as <- <-. split; [lia|]. exists out. split; [now left|lia].
    + destruct (IH _ H) as [Hp [o [Ho' Hle]]].
      split; [exact Hp|]. exists o. auto.
Qed.



Lemma filter_none {A : Type} (p : A -> bool) l :
  (forall x, In x l -> p x = false) -> filter p l = [].
Proof.
  induction l as [|x l IH]; simpl; intros H; [reflexivity|].
  rewrite (H x (or_introl eq_refl)). apply IH. intros y Hy. apply H. now right.
Qed.



Lemma filter_invoice_allocation_rows payment_id seq l k :
  Sum PaymentAllocation.amount
    (filter (fun a => Nat.eqb (PaymentAllocation.invoice a) k)
            (allocation_rows payment_id seq l))
  = Sum snd (filter (fun x => Nat.eqb (fst x) k) l).
Proof.
  revert seq. induction l as [|[i a] l IH]; intros seq; simpl;
    [reflexivity|].
  destruct (Nat.eqb i k); simpl; now rewrite IH.
Qed.

Lemma fifo_spec_keys remaining l k :
  ~ In k (map fst l) ->
  filter (fun x => Nat.eqb (fst x) k) (fifo_spec remaining l) = [].
Proof.
  intros Hk. apply filter_none. intros [i amt] Hin. simpl.
  apply Nat.eqb_neq. intros <-. apply Hk.
  apply fifo_spec_amounts in Hin. destruct Hin as [_ [out [Hout _]]].
  apply in_map_iff. exists (i, out). auto.
Qed.

Lemma fifo_spec_per_invoice remaining l k out :
  NoDup (map fst l) -> In (k, out) l ->
  0 <= Sum snd (filter (fun x => Nat.eqb (fst x) k) (fifo_spec remaining l))
    <= Z.max 0 out.
Proof.
  revert remaining. induction l as [|[j o] l IH]; intros remaining Hnd Hin;
    [contradiction|].
  simpl in Hnd. inversion Hnd as [|? ? Hnotin Hnd']; subst.
  cbn [fifo_spec].
  destruct (Z.leb_spec remaining 0) as [H0|H0]; [simpl; lia|].
  destruct Hin as [Heq | Hin].
  - injection Heq as -> ->.
    destruct (Z.leb_spec out 0) as [Ho|Ho].
    + rewrite fifo_spec_keys by exact Hnotin. simpl. lia.
    + cbn [filter fst]. rewrite Nat.eqb_refl, Sum_cons.
      rewrite fifo_spec_keys by exact Hnotin. cbn [snd]. simpl. lia.
  - assert (Hjk : j <> k).
    { intros ->. apply Hnotin. apply in_map_iff. exists (k, out). auto. }
    destruct (Z.leb_spec o 0) as [Ho|Ho]; [now apply IH|].
    cbn [filter fst]. apply Nat.eqb_neq in Hjk. rewrite Hjk. now apply IH.
Qed.

(** X17. In the FIFO branch no invoice becomes over-allocated: for every
    invoice, the sum of its allocations after the recording is at least
    what it was and at most the greater of what it was and the invoice
    total. *)
Theorem fifo_never_overpays_an_invoice
    (company : nat) (form : PaymentCreateView.Form) (number : string)
    (now : DateTime) (db : DB) :
  PaymentCreateView.form_invoice form = None ->
  PaymentCreateView.manual form = [] ->
  (forall q, In q (payments db) -> Payment.payment_number q <> number) ->
  (forall a, In a (allocations db) ->
             PaymentAllocation.payment a <> payment_seq db) ->
  NoDup (map Invoice.id (invoices db)) ->
  (forall e, In e (ledger_entries db) ->
             ~ (LedgerEntry.reference_type e = Some PaymentModel
                /\ LedgerEntry.reference_id e = Some (payment_seq db)
                /\ LedgerEntry.entry_type e = payment)) ->
  exists p db',
    PaymentCreateView.form_valid company form number now db = (inr p, db')
    /\ forall i, In i (invoices db) ->
         invoice_paid_total (Invoice.id i) db
         <= invoice_paid_total (Invoice.id i) db'
         <= Z.max (invoice_paid_total (Invoice.id i) db)
                  (Invoice.total_amount i).
Proof.
  intros Hinv Hman Hnum Halloc Hinvs Hledger.
  destruct (form_valid_fifo company form now db Hinv Hman Hnum Halloc Hinvs
              Hledger) as [p [db' [Hrun [Hp Hallocs]]]].
  exists p, db'. split; [exact Hrun|].
  intros i Hi.
  assert (Hpaid :
    invoice_paid_total (Invoice.id i) db'
    = invoice_paid_total (Invoice.id i) db
      + Sum snd
          (filter (fun x => Nat.eqb (fst x) (Invoice.id i))
             (fifo_spec (PaymentCreateView.form_amount form)
                (map (outstanding_of db)
                     (PaymentCreateView.unpaid_invoices p db))))).
  { unfold invoice_paid_total at 1. rewrite Hallocs, filter_app, Sum_app.
    now rewrite filter_invoice_allocation_rows. }
  assert (Hkeys : map fst (map (outstanding_of db)
                             (PaymentCreateView.unpaid_invoices p db))
                  = map Invoice.id (PaymentCreateView.unpaid_invoices p db)).
  { rewrite map_map. reflexivity. }
  pose proof (unpaid_invoices_unique p db Hinvs) as Hnd.
  destruct (in_dec Nat.eq_dec (Invoice.id i)
              (map Invoice.id (PaymentCreateView.unpaid_invoices p db)))
    as [Hin|Hnotin].
  - apply in_map_iff in Hin. destruct Hin as [i' [Hid Hi']].
    assert (i' = i).
    { apply (NoDup_map_In_inj Invoice.id (invoices db)); auto.
      apply unpaid_invoices_In in Hi'. tauto. }
    subst i'.
    pose proof (fifo_spec_per_invoice (PaymentCreateView.form_amount form)
                  (map (outstanding_of db)
                       (PaymentCreateView.unpaid_invoices p db))
                  (Invoice.id i)
                  (Invoice.total_amount i
                   - invoice_paid_total (Invoice.id i) db)) as Hbound.
    rewrite Hkeys in Hbound. specialize (Hbound Hnd).
    assert (Hmem : In (Invoice.id i,
                       Invoice.total_amount i
                       - invoice_paid_total (Invoice.id i) db)
                      (map (outstanding_of db)
                           (PaymentCreateView.unpaid_invoices p db))).
    { apply in_map_iff. exists i. auto. }
    specialize (Hbound Hmem). rewrite Hpaid. lia.
  - rewrite Hpaid, fifo_spec_keys by (rewrite Hkeys; exact Hnotin).
    simpl. lia.
Qed.

Lemma fifo_never_overpays_an_invoice_witness :
  exists p db',
    PaymentCreateView.form_valid 1 payment_of_150 "PAY-20240105-0001" 5000
      two_open_invoices = (inr p, db')
    /\ forall i, In i (invoices two_open_invoices) ->
         invoice_paid_total (Invoice.id i) two_open_invoices
         <= invoice_paid_total (Invoice.id i) db'
         <= Z.max (invoice_paid_total (Invoice.id i) two_open_invoices)
                  (Invoice.total_amount i).
Proof.
  apply (fifo_never_overpays_an_invoice 1 payment_of_150
           "PAY-20240105-0001" 5000 two_open_invoices).
  - reflexivity.
  - reflexivity.
  - intros q [].
  - intros a [].
  - simpl. repeat (constructor; [simpl; lia|]). constructor.
  - intros e [].
Defined.

(** ** [PaymentAllocation.clean] and the bounds it stands for *)

Lemma filter_exclude_none (l : list PaymentAllocation.t) :
  filter (exclude_pk None) l = l.
Proof. apply filter_all. Qed.

(** X18. When [PaymentAllocation.clean] accepts a new allocation (one that
    was never saved), the payment and the invoice belong to the same
    customer and company, and saving the allocation with
    [PaymentAllocation.objects.create] leaves the payment's allocations
    summing to at most the payment amount and the invoice's allocations
    summing to at most the invoice total. *)
Theorem clean_allocation_respects_bounds
    (payment_ : Payment.t) (invoice_ : Invoice.t) (amount : Decimal)
    (db : DB) :
  PaymentAllocation_clean None payment_ invoice_ amount db = inr tt ->
  Payment.customer payment_ = Invoice.customer invoice_
  /\ Payment.company payment_ = Invoice.company invoice_
  /\ forall row db',
       PaymentAllocation_objects_create payment_ invoice_ amount db
       = (inr row, db') ->
       allocated_amount payment_ db' <= Payment.amount payment_
       /\ invoice_paid_total (Invoice.id invoice_) db'
          <= Invoice.total_amount invoice_.
Proof.
  unfold PaymentAllocation_clean.
  destruct (Nat.eqb_spec (Payment.customer payment_)
              (Invoice.customer invoice_)) as [Hcust|]; [|discriminate].
  destruct (Nat.eqb_spec (Payment.company payment_)
              (Invoice.company invoice_)) as [Hcomp|]; [|discriminate].
  cbv zeta. rewrite !filter_exclude_none.
  destruct (Z.ltb_spec (Payment.amount payment_)
              (Sum PaymentAllocation.amount
                 (filter (fun a => Nat.eqb (PaymentAllocation.payment a)
                                     (Payment.id payment_))
                         (allocations db)) + amount)) as [|Hsum];
    [discriminate|].
  destruct (Z.ltb_spec
              (Invoice.total_amount invoice_
               - Sum PaymentAllocation.amount
                   (filter (fun a => Nat.eqb (PaymentAllocation.invoice a)
                                       (Invoice.id invoice_))
                           (allocations db))) amount) as [|Hout];
    [discriminate|].
  intros _. split; [exact Hcust|]. split; [exact Hcomp|].
  intros row db'. unfold PaymentAllocation_objects_create.
  destruct (existsb _ _); [discriminate|].
  intros H. injection H as <- <-.
  unfold allocated_amount, invoice_paid_total. simpl.
  rewrite !filter_app, !Sum_app. simpl. rewrite !Nat.eqb_refl. simpl.
  split; lia.
Qed.

Definition one_open_invoice : DB :=
  mkDB [] 1 [acme]
    [Invoice.mk 1 1 "INV-A" 5 19720 sent 10000 false]
    [payment_1] 2 [PaymentAllocation.mk 1 1 1 3000] 2.

Lemma clean_allocation_respects_bounds_witness :
  Payment.customer payment_1
  = Invoice.customer (Invoice.mk 1 1 "INV-A" 5 19720 sent 10000 false)
  /\ Payment.company payment_1
     = Invoice.company (Invoice.mk 1 1 "INV-A" 5 19720 sent 10000 false)
  /\ forall row db',
       PaymentAllocation_objects_create payment_1
         (Invoice.mk 1 1 "INV-A" 5 19720 sent 10000 false) 7000
         (set_allocations one_open_invoice [] 1)
       = (inr row, db') ->
       allocated_amount payment_1 db' <= Payment.amount payment_1
       /\ invoice_paid_total
            (Invoice.id (Invoice.mk 1 1 "INV-A" 5 19720 sent 10000 false)) db'
          <= Invoice.total_amount
               (Invoice.mk 1 1 "INV-A" 5 19720 sent 10000 false).
Proof.
  apply (clean_allocation_respects_bounds payment_1
           (Invoice.mk 1 1 "INV-A" 5 19720 sent 10000 false) 7000
           (set_allocations one_open_invoice [] 1)).
  reflexivity.
Defined.

(** The same allocation on top of the 30.00 already allocated is rejected
    by [clean]: 30.00 + 80.00 exceeds the payment of 100.00. *)
Example clean_rejects_over_allocation :
  PaymentAllocation_clean None payment_1
    (Invoice.mk 1 1 "INV-A" 5 19720 sent 10000 false) 8000 one_open_invoice
  = inl (ValidationError "Total allocations cannot exceed payment amount").
Proof. reflexivity. Qed.

(** ** The selected invoice *)




(** ** Which invoices a recording marks as paid *)

(** A computation that leaves one component of the database as it was,
    whether it returns or raises. *)
Definition keeps {A B : Type} (proj : DB -> B) (m : M A) : Prop :=
  forall db r db', m db = (r, db') -> proj db' = proj db.

Lemma keeps_ret {A B : Type} (proj : DB -> B) (a : A) : keeps proj (ret a).
Proof. intros db r db' H. injection H as _ <-. reflexivity. Qed.

Lemma keeps_bind {A B C : Type} (proj : DB -> C) (m : M A) (k : A -> M B) :
  keeps proj m -> (forall a, keeps proj (k a)) -> keeps proj (bind m k).
Proof.
  intros Hm Hk db r db'. unfold bind.
  destruct (m db) as [[ex|a] db1] eqn:E; intros H.
  - injection H as _ <-. eapply Hm; eauto.
  - rewrite (Hk a _ _ _ H). eapply Hm; eauto.
Qed.

Lemma keeps_get {A B : Type} (proj : DB -> B) (k : DB -> M A) :
  (forall d, keeps proj (k d)) -> keeps proj (bind get_db k).
Proof.
  intros Hk. apply keeps_bind; [|exact Hk].
  intros db r db' H. injection H as _ <-. reflexivity.
Qed.

Lemma keeps_atomic {A B : Type} (proj : DB -> B) (m : M A) :
  keeps proj m -> keeps proj (atomic m).
Proof.
  intros Hm db r db'. unfold atomic.
  destruct (m db) as [[ex|a] d] eqn:E; intros H; injection H as _ <-.
  - reflexivity.
  - eapply Hm; eauto.
Qed.

Lemma keeps_invoices_Payment_save company customer_id number date amount
    method :
  keeps invoices (Payment_save company customer_id number date amount method).
Proof.
  intros db r db'. unfold Payment_save.
  destruct (existsb _ _); intros H; injection H as _ <-; reflexivity.
Qed.

Lemma keeps_invoices_allocation_create p inv amount :
  keeps invoices (PaymentAllocation_objects_create p inv amount).
Proof.
  intros db r db'. unfold PaymentAllocation_objects_create.
  destruct (existsb _ _); intros H; injection H as _ <-; reflexivity.
Qed.

Lemma keeps_invoices_allocate_selected p selected l :
  keeps invoices (PaymentCreateView.allocate_selected p selected l).
Proof.
  unfold PaymentCreateView.allocate_selected.
  destruct selected as [inv|]; [|apply keeps_ret].
  apply keeps_get. intros d. cbv zeta.
  destruct (0 <? _); [|apply keeps_ret].
  apply keeps_bind; [apply keeps_invoices_allocation_create|].
  intros _. apply keeps_ret.
Qed.

Lemma keeps_invoices_allocate_manual company p selected items l :
  keeps invoices
    (PaymentCreateView.allocate_manual company p selected items l).
Proof.
  revert l. induction items as [|[invoice_id amount] rest IH]; intros l; simpl.
  - apply keeps_ret.
  - destruct (PaymentCreateView.is_selected selected invoice_id); [apply IH|].
    destruct (0 <? amount); [|apply IH].
    apply keeps_get. intros d.
    destruct (Invoice_objects_get _ _ _ d); [|apply IH].
    apply keeps_bind; [apply keeps_invoices_allocation_create|].
    intros _. apply IH.
Qed.

Lemma keeps_invoices_allocate_fifo p invs remaining :
  keeps invoices (PaymentCreateView.allocate_fifo p invs remaining).
Proof.
  revert remaining. induction invs as [|inv rest IH]; intros remaining; simpl.
  - apply keeps_ret.
  - destruct (remaining <=? 0); [apply keeps_ret|].
    apply keeps_get. intros d. cbv zeta.
    destruct (_ <=? 0); [apply IH|].
    apply keeps_bind; [apply keeps_invoices_allocation_create|].
    intros _. apply IH.
Qed.

Lemma keeps_create_entry {B : Type} (proj : DB -> B) company party_type
    party_id entry_type debit credit transaction_date description
    reference_object now :
  (forall db rows seq, proj (set_ledger db rows seq) = proj db) ->
  keeps proj
    (LedgerService._create_entry company party_type party_id entry_type debit
       credit transaction_date description reference_object now).
Proof.
  intros Hproj db r db'.
  unfold LedgerService._create_entry, atomic, bind, get_db,
    LedgerService.insert_after, LedgerEntry_objects_create.
  destruct (violates_unique_reference_entry _ _); intros H;
    injection H as _ <-; [reflexivity | apply Hproj].
Qed.

(** The invoice as the status loop leaves it: marked paid when the
    payment allocated to it and its allocations cover its total. *)
Definition mark_paid (allocs : list PaymentAllocation.t) (db : DB)
    (i : Invoice.t) : Invoice.t :=
  if (Invoice.total_amount i <=? invoice_paid_total (Invoice.id i) db)
     && existsb (fun a => Nat.eqb (PaymentAllocation.invoice a)
                            (Invoice.id i)) allocs
  then Invoice.set_status i paid
  else i.

Lemma set_status_same i s : Invoice.status i = s -> Invoice.set_status i s = i.
Proof. intros <-. now destruct i. Qed.

Lemma set_invoices_same db : set_invoices db (invoices db) = db.
Proof. now destruct db. Qed.

Lemma update_invoice_statuses_marks allocs db :
  NoDup (map Invoice.id (invoices db)) ->
  PaymentCreateView.update_invoice_statuses allocs db
  = (inr tt, set_invoices db (map (mark_paid allocs db) (invoices db))).
Proof.
  revert db. induction allocs as [|a rest IH]; intros db Hnd.
  - simpl. unfold ret. f_equal.
    rewrite <- (set_invoices_same db) at 1. f_equal.
    rewrite <- (map_id (invoices db)) at 1. apply map_ext.
    intros i. unfold mark_paid. simpl. now rewrite andb_false_r.
  - simpl. unfold bind at 1, get_db at 1.
    destruct (find _ (invoices db)) as [inv|] eqn:Hfind.
    + apply find_some in Hfind. destruct Hfind as [Hinv Hid].
      apply Nat.eqb_eq in Hid. cbv zeta. unfold bind.
      destruct ((Invoice.total_amount inv
                 <=? invoice_paid_total (Invoice.id inv) db)
                && negb (InvoiceStatus_eqb (Invoice.status inv) paid))
        eqn:Hc.
      * unfold Invoice_save at 1. cbv beta iota.
        apply andb_true_iff in Hc. destruct Hc as [Hcov _].
        rewrite IH.
        -- f_equal. unfold set_invoices. simpl. f_equal. rewrite map_map.
           apply map_ext_in. intros i Hi. unfold mark_paid. simpl.
           change (invoice_paid_total ?k
                     (mkDB (ledger_entries db) (ledger_seq db) (customers db)
                        _ (payments db) (payment_seq db) (allocations db)
                        (allocation_seq db)))
             with (invoice_paid_total k db).
           destruct (Nat.eqb_spec (Invoice.id i) (Invoice.id inv)) as [E|E].
           ++ assert (i = inv)
                by (apply (NoDup_map_In_inj Invoice.id (invoices db)); auto).
              subst i. simpl. rewrite Hcov, <- Hid, Nat.eqb_refl. simpl.
              destruct (existsb _ rest); reflexivity.
           ++ rewrite <- Hid.
              destruct (Nat.eqb_spec (Invoice.id inv) (Invoice.id i));
                [congruence | reflexivity].
        -- simpl. rewrite map_map.
           erewrite map_ext; [exact Hnd|].
           intros i. simpl. destruct (Nat.eqb_spec (Invoice.id i)
                                        (Invoice.id inv)); simpl; congruence.
      * unfold ret at 1. rewrite IH by exact Hnd. f_equal. f_equal.
        apply map_ext_in. intros i Hi. unfold mark_paid. simpl.
        rewrite <- Hid.
        destruct (Nat.eqb_spec (Invoice.id inv) (Invoice.id i)) as [E|E];
          [|reflexivity].
        assert (i = inv)
          by (apply (NoDup_map_In_inj Invoice.id (invoices db)); auto).
        subst i. simpl.
        destruct (Invoice.total_amount inv
                  <=? invoice_paid_total (Invoice.id inv) db) eqn:Hcov;
          simpl; [|reflexivity].
        simpl in Hc. apply negb_false_iff in Hc.
        assert (Hpaid : Invoice.status inv = paid)
          by (destruct (Invoice.status inv); simpl in Hc; congruence).
        rewrite (set_status_same inv paid Hpaid).
        destruct (existsb _ rest); reflexivity.
    + rewrite IH by exact Hnd. f_equal. f_equal.
      apply map_ext_in. intros i Hi. unfold mark_paid. simpl.
      pose proof (find_none _ _ Hfind i Hi) as Hne. simpl in Hne.
      rewrite Nat.eqb_sym, Hne. reflexivity.
Qed.

Lemma mark_paid_same_allocations allocs d1 d2 i :
  allocations d1 = allocations d2 -> mark_paid allocs d1 i = mark_paid allocs d2 i.
Proof.
  intros H. unfold mark_paid, invoice_paid_total. now rewrite H.
Qed.

Lemma existsb_filter {A : Type} (f g : A -> bool) l :
  existsb g (filter f l) = existsb (fun a => f a && g a) l.
Proof.
  induction l as [|a l IH]; simpl; [reflexivity|].
  destruct (f a); simpl; now rewrite IH.
Qed.

(** X20. [PaymentCreateView.form_valid], steps 1 to 5: when a recording
    succeeds on a table of invoices with distinct primary keys, the invoice
    table afterwards is the one before with exactly those invoices marked
    paid to which the new payment has an allocation and whose allocations
    (of all payments) now reach the invoice total; no other invoice and no
    other field changes, and no status other than paid is ever written. *)
Theorem recording_marks_covered_invoices_paid
    (company : nat) (form : PaymentCreateView.Form) (number : string)
    (now : DateTime) (db : DB) (p : Payment.t) (db' : DB) :
  NoDup (map Invoice.id (invoices db)) ->
  PaymentCreateView.form_valid company form number now db = (inr p, db') ->
  invoices db'
  = map (fun i =>
           if (Invoice.total_amount i
               <=? invoice_paid_total (Invoice.id i) db')
              && existsb (fun a =>
                            Nat.eqb (PaymentAllocation.payment a)
                              (Payment.id p)
                            && Nat.eqb (PaymentAllocation.invoice a)
                                 (Invoice.id i))
                         (allocations db')
           then Invoice.set_status i paid
           else i)
        (invoices db).
Proof.
  intros Hnd H. unfold PaymentCreateView.form_valid in H.
  apply atomic_inr_inv in H.
  apply bind_inr_inv in H. destruct H as [self [d1 [Hsave H]]].
  apply bind_inr_inv in H. destruct H as [l1 [d2 [Hsel H]]].
  apply bind_inr_inv in H. destruct H as [l2 [d3 [Hman H]]].
  apply bind_inr_inv in H. destruct H as [rem [d4 [Hfifo H]]].
  apply bind_inr_inv in H. destruct H as [entry [d5 [Hentry H]]].
  apply bind_inr_inv in H. destruct H as [d5' [d5'' [Hget H]]].
  injection Hget as <- <-.
  apply bind_inr_inv in H. destruct H as [u [d6 [Hupd H]]].
  injection H as <- <-.
  pose proof (keeps_invoices_Payment_save _ _ _ _ _ _ _ _ _ Hsave) as I1.
  pose proof (keeps_invoices_allocate_selected _ _ _ _ _ _ Hsel) as I2.
  pose proof (keeps_invoices_allocate_manual _ _ _ _ _ _ _ _ Hman) as I3.
  assert (I4 : invoices d4 = invoices d3).
  { destruct (negb (PaymentCreateView.allocations_made l2)).
    - apply bind_inr_inv in Hfifo. destruct Hfifo as [d [d' [Hg Hf]]].
      injection Hg as <- <-.
      exact (keeps_invoices_allocate_fifo _ _ _ _ _ _ Hf).
    - now injection Hfifo as _ <-. }
  assert (I5 : invoices d5 = invoices d4).
  { unfold LedgerService.create_customer_payment_entry in Hentry.
    refine (keeps_create_entry invoices _ _ _ _ _ _ _ _ _ _ _ _ _ _ Hentry).
    reflexivity. }
  assert (I : invoices d5 = invoices db) by congruence.
  assert (Hnd5 : NoDup (map Invoice.id (invoices d5)))
    by (rewrite I; exact Hnd).
  rewrite (update_invoice_statuses_marks _ d5 Hnd5) in Hupd.
  injection Hupd as _ Hd6. subst d6. simpl. rewrite I.
  apply map_ext. intros i.
  rewrite (mark_paid_same_allocations _ d5
             (set_invoices d5
                (map (mark_paid
                        (filter (fun a => Nat.eqb (PaymentAllocation.payment a)
                                            (Payment.id self))
                                (allocations d5)) d5) (invoices db))))
    by reflexivity.
  unfold mark_paid. now rewrite existsb_filter.
Qed.

(** Scenario D: the payment of 150.00 covers invoice A (100.00), which
    becomes paid, and half of invoice B (80.00), which stays sent. *)
Lemma recording_marks_covered_invoices_paid_witness :
  exists p db',
    PaymentCreateView.form_valid 1 payment_of_150 "PAY-20240105-0001" 5000
      two_open_invoices = (inr p, db')
    /\ invoices db'
       = map (fun i =>
                if (Invoice.total_amount i
                    <=? invoice_paid_total (Invoice.id i) db')
                   && existsb (fun a =>
                                 Nat.eqb (PaymentAllocation.payment a)
                                   (Payment.id p)
                                 && Nat.eqb (PaymentAllocation.invoice a)
                                      (Invoice.id i))
                              (allocations db')
                then Invoice.set_status i paid
                else i)
             (invoices two_open_invoices)
    /\ map Invoice.status (invoices db') = [sent; paid].
Proof.
  eexists. eexists. split; [vm_compute; reflexivity|]. split.
  - apply (recording_marks_covered_invoices_paid 1 payment_of_150
             "PAY-20240105-0001" 5000 two_open_invoices).
    + simpl. repeat (constructor; [simpl; lia|]). constructor.
    + vm_compute. reflexivity.
  - reflexivity.
Defined.

(** * The ledger audit command *)

(** [apps/ledger/management/commands/audit_ledger.py]. *)

Module AuditLedger.

Definition row_eq_dec (a b : nat * Date * DateTime) : {a = b} + {a <> b}.
Proof.
  decide equality; [apply Z.eq_dec|].
  decide equality; [apply Z.eq_dec | apply Nat.eq_dec].
Defined.

(** Lines 58-61: [values_list('party_id', flat=True).distinct()]. The
    default ordering of [LedgerEntry] (transaction_date, created_at) stays
    in force and its columns join the SELECT DISTINCT: the rows are distinct
    as triples (party_id, transaction_date, created_at), so a party is
    listed once for each distinct pair of dates among its entries. The
    queryset is fetched once, before the loop. *)
Definition party_ids (company : nat) (party_type : PartyType) (db : DB)
    : list nat :=
  map (fun row => fst (fst row))
    (nodup row_eq_dec
       (map (fun e => (LedgerEntry.party_id e,
                       LedgerEntry.transaction_date e,
                       LedgerEntry.created_at e))
          (order_by LedgerEntry.key_leb
             (filter (fun e =>
                        Nat.eqb (LedgerEntry.company e) company
                        && PartyType_eqb (LedgerEntry.party_type e)
                             party_type)
                     (ledger_entries db))))).

(** Lines 71-83: the walk over the party's entries; it returns
    [has_error]. *)
Fixpoint audit_entries (entries : list LedgerEntry.t)
    (expected_balance : Decimal) (has_error : bool) : bool :=
  match entries with
  | [] => has_error
  | entry :: rest =>
      let expected_balance :=
        expected_balance + LedgerEntry.debit entry
        - LedgerEntry.credit entry in
      audit_entries rest expected_balance
        (if LedgerEntry.running_balance entry =? expected_balance
         then has_error
         else true)
  end.

(** Lines 63-90: the loop over the party ids; [errors] counts the
    parties with a mismatch. *)
Fixpoint audit_loop (company : nat) (party_type : PartyType)
    (fix_errors : bool) (ids : list nat) (errors : nat) : M nat :=
  match ids with
  | [] => ret errors
  | party_id :: rest =>
      (db <- get_db ;;
       let entries :=
         order_by LedgerEntry.key_leb
           (filter (LedgerService.party_filter company party_type party_id)
                   (ledger_entries db)) in
       let has_error := audit_entries entries 0 false in
       (if has_error && fix_errors
        then (_ <- LedgerService.recalculate_party_balance company
                     party_type party_id ;;
              ret tt)
        else ret tt) ;;;
       audit_loop company party_type fix_errors rest
         (if has_error then S errors else errors))%txn
  end.

Definition _audit_party (company : nat) (party_type : PartyType)
    (fix_errors : bool) : M nat :=
  (db <- get_db ;;
   audit_loop company party_type fix_errors
     (party_ids company party_type db) 0)%txn.

End AuditLedger.

(** The walk finds no mismatch exactly when the stored balances satisfy
    the recurrence. *)
Lemma audit_entries_false_iff entries prev has_error :
  AuditLedger.audit_entries entries prev has_error = false
  <-> has_error = false /\ recurrence_from prev entries.
Proof.
  revert prev has_error.
  induction entries as [|e rest IH]; simpl; intros prev has_error.
  - tauto.
  - rewrite IH.
    destruct (Z.eqb_spec (LedgerEntry.running_balance e)
                (prev + LedgerEntry.debit e - LedgerEntry.credit e))
      as [E|E].
    + rewrite E. tauto.
    + split; [intros [? _]; discriminate | intros [_ [? _]]; contradiction].
Qed.

Lemma party_has_error_false_iff company party_type party_id db :
  AuditLedger.audit_entries (party_entries company party_type party_id db)
    0 false = false
  <-> balance_recurrence company party_type party_id db.
Proof.
  rewrite audit_entries_false_iff. unfold balance_recurrence. tauto.
Qed.

Lemma party_ids_In company party_type db party_id :
  In party_id (AuditLedger.party_ids company party_type db)
  <-> exists e, In e (ledger_entries db)
                /\ LedgerService.party_filter company party_type party_id e
                   = true.
Proof.
  unfold AuditLedger.party_ids. rewrite in_map_iff. split.
  - intros [row [Hfst Hrow]]. apply nodup_In in Hrow.
    apply in_map_iff in Hrow. destruct Hrow as [e [He Hin]].
    apply order_by_In in Hin. apply filter_In in Hin.
    destruct Hin as [Hin Hf]. exists e. split; [exact Hin|].
    unfold LedgerService.party_filter. rewrite Hf. subst row. simpl in Hfst.
    rewrite Hfst. apply Nat.eqb_refl.
  - intros [e [Hin Hf]]. unfold LedgerService.party_filter in Hf.
    apply andb_true_iff in Hf. destruct Hf as [Hf Hp].
    apply Nat.eqb_eq in Hp.
    exists (LedgerEntry.party_id e, LedgerEntry.transaction_date e,
            LedgerEntry.created_at e).
    split; [exact Hp|]. apply nodup_In. apply in_map_iff. exists e.
    split; [reflexivity|]. apply order_by_In. apply filter_In. auto.
Qed.

(** A party that is not listed has no entry. *)
Lemma party_entries_not_listed company party_type db party_id :
  ~ In party_id (AuditLedger.party_ids company party_type db) ->
  party_entries company party_type party_id db = [].
Proof.
  intros Hn. unfold party_entries.
  destruct (filter _ (ledger_entries db)) as [|e l] eqn:E; [reflexivity|].
  exfalso. apply Hn. apply party_ids_In. exists e.
  apply filter_In. rewrite E. now left.
Qed.

(** Without [--fix] the loop writes nothing and counts the listed ids
    whose entries show a mismatch. *)
Lemma audit_loop_report company party_type ids errors db :
  AuditLedger.audit_loop company party_type false ids errors db
  = (inr (Nat.add errors
            (List.length
               (filter (fun party_id =>
                          AuditLedger.audit_entries
                            (party_entries company party_type party_id db)
                            0 false)
                       ids))),
     db).
Proof.
  revert errors. induction ids as [|p rest IH]; intros errors; simpl.
  - unfold ret. now rewrite Nat.add_0_r.
  - unfold bind at 1, get_db at 1. cbv zeta.
    fold (party_entries company party_type p db).
    rewrite andb_false_r. unfold bind, ret at 1. rewrite IH.
    destruct (AuditLedger.audit_entries _ 0 false); simpl;
      [now rewrite Nat.add_succ_r | reflexivity].
Qed.

Lemma filter_length_zero {A : Type} (f : A -> bool) l :
  List.length (filter f l) = 0%nat <-> forall a, In a l -> f a = false.
Proof.
  induction l as [|x l IH]; simpl.
  - split; [intros _ a [] | reflexivity].
  - destruct (f x) eqn:E; simpl.
    + split; [discriminate|]. intros H. specialize (H x (or_introl eq_refl)).
      congruence.
    + rewrite IH. split.
      * intros H a [<- | Ha]; auto.
      * intros H a Ha. apply H. now right.
Qed.

(** X21. [_audit_party] without [--fix]: the command returns without
    raising, leaves the database as it was, and reports zero errors exactly
    when, for every party of the type in the company, the stored running
    balances satisfy the recurrence from 0 along (transaction_date,
    created_at). *)
Theorem audit_reports_zero_iff_balanced
    (company : nat) (party_type : PartyType) (db : DB) :
  exists errors,
    AuditLedger._audit_party company party_type false db = (inr errors, db)
    /\ (errors = 0%nat
        <-> forall party_id,
              balance_recurrence company party_type party_id db).
Proof.
  unfold AuditLedger._audit_party, bind, get_db.
  rewrite audit_loop_report. eexists. split; [reflexivity|].
  simpl. rewrite filter_length_zero. split.
  - intros H party_id.
    destruct (in_dec Nat.eq_dec party_id
                (AuditLedger.party_ids company party_type db)) as [Hin|Hn].
    + apply party_has_error_false_iff. now apply H.
    + unfold balance_recurrence.
      rewrite (party_entries_not_listed _ _ _ _ Hn). exact I.
  - intros H party_id _. apply party_has_error_false_iff. apply H.
Qed.

(** ** The audit with [--fix] *)

Lemma with_balance_id entries prev row :
  LedgerEntry.id (with_balance entries prev row) = LedgerEntry.id row.
Proof.
  unfold with_balance.
  destruct (balance_of entries prev (LedgerEntry.id row)); reflexivity.
Qed.

(** A recalculation leaves the rows of every other party as they are. *)
Lemma with_balance_other_party company party_type party_id db row :
  unique_ledger_pks db ->
  In row (ledger_entries db) ->
  LedgerService.party_filter company party_type party_id row = false ->
  with_balance (party_entries company party_type party_id db) 0 row = row.
Proof.
  intros Hnd Hrow Hpf. unfold with_balance.
  destruct (balance_of _ 0 (LedgerEntry.id row)) as [b|] eqn:E;
    [|reflexivity].
  exfalso. apply balance_of_Some_in in E. destruct E as [e [He Hid]].
  unfold party_entries in He. apply order_by_In in He.
  apply filter_In in He. destruct He as [He Hpe].
  assert (e = row)
    by (apply (NoDup_map_In_inj LedgerEntry.id (ledger_entries db)); auto).
  subst e. congruence.
Qed.

Lemma recalculation_keeps_unique_pks company party_type party_id db :
  unique_ledger_pks db ->
  unique_ledger_pks
    (snd (LedgerService.recalculate_party_balance company party_type
            party_id db)).
Proof.
  intros Hnd. rewrite recalculate_party_balance_spec by exact Hnd.
  unfold unique_ledger_pks in *. simpl. rewrite map_map.
  erewrite map_ext; [exact Hnd|]. intros r. apply with_balance_id.
Qed.

Lemma party_entries_of_another_party company party_type party_id other db :
  unique_ledger_pks db ->
  other <> party_id ->
  party_entries company party_type other
    (snd (LedgerService.recalculate_party_balance company party_type
            party_id db))
  = party_entries company party_type other db.
Proof.
  intros Hnd Hne. rewrite recalculate_party_balance_spec by exact Hnd.
  simpl. unfold party_entries at 1. simpl.
  rewrite filter_map_commute
    by (intros a; apply party_filter_with_balance).
  rewrite order_by_map by (intros a b; apply key_leb_with_balance).
  fold (party_entries company party_type other db).
  rewrite <- (map_id (party_entries company party_type other db)) at 2.
  apply map_ext_in. intros r Hr.
  unfold party_entries in Hr. apply order_by_In in Hr.
  apply filter_In in Hr. destruct Hr as [Hr Hpf].
  apply with_balance_other_party; [exact Hnd | exact Hr |].
  unfold LedgerService.party_filter in *.
  apply andb_true_iff in Hpf. destruct Hpf as [Hcp Hid].
  apply Nat.eqb_eq in Hid. rewrite Hcp, Hid. simpl.
  now apply Nat.eqb_neq.
Qed.

(** What the audit may write: the running balance of a row of the
    audited company and party type. *)
Definition audit_frame (company : nat) (party_type : PartyType)
    (r r' : LedgerEntry.t) : Prop :=
  same_but_balance r r'
  /\ (Nat.eqb (LedgerEntry.company r) company
      && PartyType_eqb (LedgerEntry.party_type r) party_type = false ->
      r' = r).

Lemma audit_frame_refl company party_type rows :
  Forall2 (audit_frame company party_type) rows rows.
Proof.
  induction rows; constructor; [|assumption].
  split; [apply same_but_balance_refl | reflexivity].
Qed.

Lemma audit_frame_trans company party_type l1 l2 l3 :
  Forall2 (audit_frame company party_type) l1 l2 ->
  Forall2 (audit_frame company party_type) l2 l3 ->
  Forall2 (audit_frame company party_type) l1 l3.
Proof.
  intros H12. revert l3. induction H12 as [|a b l1 l2 Hab H12 IH];
    intros l3 H23; inversion H23 as [|? c ? l3' Hbc H23']; subst;
    constructor; [|now apply IH].
  destruct Hab as [Sab Fab], Hbc as [Sbc Fbc]. split.
  - eapply same_but_balance_trans; eauto.
  - intros Hf. pose proof (Fab Hf) as Hb. subst b. now apply Fbc.
Qed.

Lemma recalculation_audit_frame company party_type party_id db :
  unique_ledger_pks db ->
  Forall2 (audit_frame company party_type) (ledger_entries db)
    (ledger_entries
       (snd (LedgerService.recalculate_party_balance company party_type
               party_id db))).
Proof.
  intros Hnd. rewrite recalculate_party_balance_spec by exact Hnd. simpl.
  apply Forall2_map_right. intros r Hr. split.
  - unfold with_balance.
    destruct (balance_of _ 0 (LedgerEntry.id r));
      [reflexivity | apply same_but_balance_refl].
  - intros Hf. apply with_balance_other_party; [exact Hnd | exact Hr |].
    unfold LedgerService.party_filter. now rewrite Hf.
Qed.

(** The loop with [--fix], from a ledger with distinct primary keys. *)
Lemma audit_loop_fix company party_type ids errors db :
  unique_ledger_pks db ->
  exists errors' db',
    AuditLedger.audit_loop company party_type true ids errors db
    = (inr errors', db')
    /\ unique_ledger_pks db'
    /\ (forall party_id,
          In party_id ids
          \/ balance_recurrence company party_type party_id db ->
          balance_recurrence company party_type party_id db')
    /\ Forall2 (audit_frame company party_type) (ledger_entries db)
         (ledger_entries db')
    /\ db' = set_ledger db (ledger_entries db') (ledger_seq db).
Proof.
  revert errors db. induction ids as [|p rest IH]; intros errors db Hnd.
  - exists errors, db. simpl. split; [reflexivity|]. split; [exact Hnd|].
    split; [intros q [[]|H]; exact H|].
    split; [apply audit_frame_refl | now rewrite set_ledger_same].
  - simpl. unfold bind at 1, get_db at 1. cbv zeta.
    fold (party_entries company party_type p db).
    destruct (AuditLedger.audit_entries
                (party_entries company party_type p db) 0 false) eqn:Herr.
    + simpl andb. cbv iota.
      pose proof (recalculate_party_balance_spec company party_type p Hnd)
        as Hspec.
      pose proof (recalculation_keeps_unique_pks company party_type p db Hnd)
        as Hnd1.
      pose proof (recalculation_restores_recurrence company party_type p Hnd)
        as Hrec.
      pose proof (recalculation_audit_frame company party_type p db Hnd)
        as Hframe.
      pose proof (fun q => @party_entries_of_another_party company party_type
                             p q db Hnd) as Hother.
      rewrite Hspec in Hnd1, Hrec, Hframe, Hother.
      simpl snd in Hnd1, Hrec, Hframe, Hother.
      set (db1 := set_ledger db
                    (map (with_balance
                            (party_entries company party_type p db) 0)
                         (ledger_entries db))
                    (ledger_seq db)) in *.
      destruct (IH (S errors) db1 Hnd1) as [n [db' [Hrun [Hnd' [Hall [Hf Hdb']]]]]].
      exists n, db'. split.
      * unfold bind. rewrite Hspec. fold db1. unfold ret at 1.
        exact Hrun.
      * split; [exact Hnd'|]. split; [|split].
        -- intros q Hq. apply Hall.
           destruct (Nat.eq_dec q p) as [->|Hne]; [right; exact Hrec|].
           destruct Hq as [[Hq|Hq]|Hq]; [congruence | now left |].
           right. unfold balance_recurrence in *.
           now rewrite (Hother q Hne).
        -- eapply audit_frame_trans; [exact Hframe | exact Hf].
        -- rewrite Hdb'. reflexivity.
    + simpl andb. cbv iota. unfold bind, ret at 1.
      destruct (IH errors db Hnd) as [n [db' [Hrun [Hnd' [Hall [Hf Hdb']]]]]].
      exists n, db'. split; [exact Hrun|]. split; [exact Hnd'|].
      split; [|split; assumption].
      intros q Hq. apply Hall.
      destruct Hq as [[Hq|Hq]|Hq]; [|now left | now right].
      subst q. right. now apply party_has_error_false_iff.
Qed.

Lemma audit_party_fix company party_type db :
  unique_ledger_pks db ->
  exists errors db',
    AuditLedger._audit_party company party_type true db = (inr errors, db')
    /\ unique_ledger_pks db'
    /\ (forall party_id, balance_recurrence company party_type party_id db')
    /\ Forall2 (audit_frame company party_type) (ledger_entries db)
         (ledger_entries db')
    /\ db' = set_ledger db (ledger_entries db') (ledger_seq db).
Proof.
  intros Hnd. unfold AuditLedger._audit_party, bind, get_db.
  destruct (audit_loop_fix company party_type
              (AuditLedger.party_ids company party_type db) 0 db Hnd)
    as [n [db' [Hrun [Hnd' [Hall [Hf Hdb']]]]]].
  exists n, db'. split; [exact Hrun|]. split; [exact Hnd'|].
  split; [|split; assumption].
  intros q. apply Hall.
  destruct (in_dec Nat.eq_dec q (AuditLedger.party_ids company party_type db))
    as [Hin|Hn]; [now left|].
  right. unfold balance_recurrence.
  rewrite (party_entries_not_listed _ _ _ _ Hn). exact I.
Qed.

Lemma audit_clean_report company party_type db :
  (forall party_id, balance_recurrence company party_type party_id db) ->
  AuditLedger._audit_party company party_type false db = (inr 0%nat, db).
Proof.
  intros H. unfold AuditLedger._audit_party, bind, get_db.
  rewrite audit_loop_report. simpl.
  rewrite (proj2 (filter_length_zero _ _)); [reflexivity|].
  intros q _. apply party_has_error_false_iff. apply H.
Qed.

(** X22. [_audit_party] with [--fix], on a ledger whose rows have distinct
    primary keys: the command returns without raising, afterwards every
    party of the type in the company satisfies the balance recurrence, and
    an audit run right after reports zero errors and writes nothing. *)
Theorem audit_fix_then_audit_is_clean
    (company : nat) (party_type : PartyType) (db : DB) :
  unique_ledger_pks db ->
  exists errors db',
    AuditLedger._audit_party company party_type true db = (inr errors, db')
    /\ (forall party_id, balance_recurrence company party_type party_id db')
    /\ AuditLedger._audit_party company party_type false db'
       = (inr 0%nat, db')
    /\ AuditLedger._audit_party company party_type true db'
       = (inr 0%nat, db').
Proof.
  intros Hnd.
  destruct (audit_party_fix company party_type db Hnd)
    as [n [db' [Hrun [Hnd' [Hall _]]]]].
  exists n, db'. split; [exact Hrun|]. split; [exact Hall|].
  split; [now apply audit_clean_report|].
  unfold AuditLedger._audit_party, bind, get_db.
  generalize (AuditLedger.party_ids company party_type db').
  intros ids. induction ids as [|p rest IH]; [reflexivity|].
  simpl. unfold bind at 1, get_db at 1. cbv zeta.
  fold (party_entries company party_type p db').
  rewrite (proj2 (party_has_error_false_iff company party_type p db')
             (Hall p)).
  simpl. unfold bind, ret at 1. exact IH.
Qed.

(** The drifted ledger: the audit with [--fix] finds the one party whose
    balances are off and repairs it. *)
Lemma audit_fix_then_audit_is_clean_witness :
  exists errors db',
    AuditLedger._audit_party 1 customer true drifted_ledger
    = (inr errors, db')
    /\ (forall party_id, balance_recurrence 1 customer party_id db')
    /\ AuditLedger._audit_party 1 customer false db' = (inr 0%nat, db')
    /\ AuditLedger._audit_party 1 customer true db' = (inr 0%nat, db').
Proof.
  apply (audit_fix_then_audit_is_clean 1 customer drifted_ledger).
  unfold unique_ledger_pks. simpl.
  repeat (constructor; [simpl; lia|]). constructor.
Defined.



(** * Two manual amounts for one invoice *)

(** A computation that, on this database, raises [IntegrityError]. *)
Definition raises_integrity_error {A : Type} (m : M A) (db : DB) : Prop :=
  exists msg db', m db = (inl (IntegrityError msg), db').

Lemma bind_raises {A B : Type} (m : M A) (k : A -> M B) db :
  raises_integrity_error m db -> raises_integrity_error (bind m k) db.
Proof.
  intros [msg [db' H]]. exists msg, db'. unfold bind. now rewrite H.
Qed.

Lemma bind_then_raises {A B : Type} (m : M A) (k : A -> M B) db a db1 :
  m db = (inr a, db1) -> raises_integrity_error (k a) db1 ->
  raises_integrity_error (bind m k) db.
Proof.
  intros Hm [msg [db' H]]. exists msg, db'. unfold bind. now rewrite Hm.
Qed.

Lemma get_db_raises {A : Type} (k : DB -> M A) db :
  raises_integrity_error (k db) db -> raises_integrity_error (bind get_db k) db.
Proof. intros [msg [db' H]]. exists msg, db'. exact H. Qed.

(** [PaymentAllocation.objects.create] either raises [IntegrityError] and
    writes nothing, or appends the row. *)
Lemma allocation_create_cases p inv amount db :
  raises_integrity_error (PaymentAllocation_objects_create p inv amount) db
  \/ exists row,
       PaymentAllocation_objects_create p inv amount db
       = (inr row,
          set_allocations db (allocations db ++ [row])
            (S (allocation_seq db)))
       /\ PaymentAllocation.payment row = Payment.id p
       /\ PaymentAllocation.invoice row = Invoice.id inv.
Proof.
  unfold raises_integrity_error, PaymentAllocation_objects_create.
  destruct (existsb _ (allocations db)).
  - left. eexists. eexists. reflexivity.
  - right. eexists. split; [reflexivity|]. split; reflexivity.
Qed.

(** Once the payment has an allocation to the invoice, a later manual
    amount for that invoice makes the loop raise. *)
Lemma allocate_manual_raises_on_allocated company p selected inv k amount
    items l db :
  In (k, amount) items ->
  0 < amount ->
  PaymentCreateView.is_selected selected k = false ->
  Invoice_objects_get k company (Payment.customer p) db = Some inv ->
  existsb (fun a => Nat.eqb (PaymentAllocation.payment a) (Payment.id p)
                    && Nat.eqb (PaymentAllocation.invoice a) (Invoice.id inv))
          (allocations db) = true ->
  raises_integrity_error
    (PaymentCreateView.allocate_manual company p selected items l) db.
Proof.
  intros Hin Hpos Hsel. revert l db Hin.
  induction items as [|[k' a'] rest IH]; intros l db Hin Hget Hex;
    [contradiction|].
  simpl.
  destruct Hin as [Heq|Hin].
  - injection Heq as -> ->. rewrite Hsel.
    rewrite (proj2 (Z.ltb_lt 0 amount) Hpos).
    apply get_db_raises. rewrite Hget.
    apply bind_raises. unfold raises_integrity_error,
      PaymentAllocation_objects_create. rewrite Hex.
    eexists. eexists. reflexivity.
  - destruct (PaymentCreateView.is_selected selected k'); [now apply IH|].
    destruct (0 <? a'); [|now apply IH].
    apply get_db_raises.
    destruct (Invoice_objects_get k' company (Payment.customer p) db)
      as [inv'|]; [|now apply IH].
    destruct (allocation_create_cases p inv' a' db) as [Hr|[row [Hrun _]]].
    + now apply bind_raises.
    + eapply bind_then_raises; [exact Hrun|].
      apply IH; [exact Hin | exact Hget |].
      simpl. rewrite existsb_app, Hex. reflexivity.
Qed.

(** Two positive manual amounts for one invoice of the customer, the
    invoice not being the selected one: the loop raises. *)
Lemma allocate_manual_raises_on_duplicate company p selected inv k a1 a2
    pre rest l db :
  In (k, a2) rest ->
  0 < a1 -> 0 < a2 ->
  PaymentCreateView.is_selected selected k = false ->
  Invoice_objects_get k company (Payment.customer p) db = Some inv ->
  raises_integrity_error
    (PaymentCreateView.allocate_manual company p selected
       (pre ++ (k, a1) :: rest) l) db.
Proof.
  intros Hin H1 H2 Hsel. revert l db.
  induction pre as [|[k' a'] pre IH]; intros l db Hget; simpl.
  - rewrite Hsel, (proj2 (Z.ltb_lt 0 a1) H1).
    apply get_db_raises. rewrite Hget.
    destruct (allocation_create_cases p inv a1 db)
      as [Hr|[row [Hrun [Hp Hi]]]].
    + now apply bind_raises.
    + eapply bind_then_raises; [exact Hrun|].
      apply (allocate_manual_raises_on_allocated company p selected inv k a2);
        auto.
      simpl. rewrite existsb_app. simpl. rewrite Hp, Hi, !Nat.eqb_refl.
      simpl. apply orb_true_r.
  - destruct (PaymentCreateView.is_selected selected k'); [now apply IH|].
    destruct (0 <? a'); [|now apply IH].
    apply get_db_raises.
    destruct (Invoice_objects_get k' company (Payment.customer p) db)
      as [inv'|]; [|now apply IH].
    destruct (allocation_create_cases p inv' a' db) as [Hr|[row [Hrun _]]].
    + now apply bind_raises.
    + eapply bind_then_raises; [exact Hrun|]. now apply IH.
Qed.

Lemma allocate_selected_cases p selected l db :
  raises_integrity_error (PaymentCreateView.allocate_selected p selected l) db
  \/ exists l' db',
       PaymentCreateView.allocate_selected p selected l db = (inr l', db')
       /\ invoices db' = invoices db.
Proof.
  destruct (PaymentCreateView.allocate_selected p selected l db)
    as [[ex|l'] db'] eqn:E.
  - left. assert (Hex : exists msg, ex = IntegrityError msg).
    { unfold PaymentCreateView.allocate_selected in E.
      destruct selected as [inv|]; [|discriminate].
      unfold bind, get_db, PaymentAllocation_objects_create in E.
      cbv zeta in E.
      destruct (0 <? _); [|discriminate].
      destruct (existsb _ (allocations db)); [|discriminate].
      injection E as <- _. eexists. reflexivity. }
    destruct Hex as [msg ->]. exists msg, db'. exact E.
  - right. exists l', db'. split; [reflexivity|].
    exact (keeps_invoices_allocate_selected _ _ _ _ _ _ E).
Qed.

(** X24. [PaymentCreateView.form_valid], lines 82-110 under the
    [transaction.atomic] of line 49: when the manual inputs carry two
    positive amounts for the same invoice of the customer (and that invoice
    is not the one selected in the form), the recording raises
    [IntegrityError] and the database is left exactly as it was: no
    payment, no allocation and no ledger entry is kept. *)
Theorem duplicate_manual_amount_rolls_back
    (company : nat) (form : PaymentCreateView.Form) (number : string)
    (now : DateTime) (db : DB) (inv : Invoice.t) (k : nat) (a1 a2 : Decimal)
    (pre rest : list (nat * Decimal)) :
  PaymentCreateView.manual form = pre ++ (k, a1) :: rest ->
  In (k, a2) rest ->
  0 < a1 -> 0 < a2 ->
  PaymentCreateView.is_selected (PaymentCreateView.form_invoice form) k
  = false ->
  Invoice_objects_get k company
    (Customer.id (PaymentCreateView.form_customer form)) db = Some inv ->
  exists msg,
    PaymentCreateView.form_valid company form number now db
    = (inl (IntegrityError msg), db).
Proof.
  intros Hman Hin H1 H2 Hsel Hget.
  assert (Hbody : forall (m : M Payment.t),
            raises_integrity_error m db ->
            exists msg, atomic m db = (inl (IntegrityError msg), db)).
  { intros m [msg [db' Hm]]. exists msg. unfold atomic. now rewrite Hm. }
  unfold PaymentCreateView.form_valid. apply Hbody. clear Hbody.
  destruct (Payment_save company
              (Customer.id (PaymentCreateView.form_customer form)) number
              (PaymentCreateView.form_payment_date form)
              (PaymentCreateView.form_amount form)
              (PaymentCreateView.form_payment_method form) db)
    as [[ex|self] d1] eqn:Hsave.
  - apply bind_raises.
    assert (Hex : exists msg, ex = IntegrityError msg).
    { unfold Payment_save in Hsave.
      destruct (existsb _ (payments db)); [|discriminate].
      injection Hsave as <- _. eexists. reflexivity. }
    destruct Hex as [msg ->]. exists msg, d1. exact Hsave.
  - eapply bind_then_raises; [exact Hsave|].
    pose proof (keeps_invoices_Payment_save _ _ _ _ _ _ _ _ _ Hsave) as I1.
    apply Payment_save_inr in Hsave. destruct Hsave as [Hself _].
    destruct (allocate_selected_cases self
                (PaymentCreateView.form_invoice form)
                (PaymentCreateView.mkLocals false 0) d1)
      as [Hr|[l1 [d2 [Hrun I2]]]].
    + now apply bind_raises.
    + eapply bind_then_raises; [exact Hrun|].
      apply bind_raises. rewrite Hman.
      apply (allocate_manual_raises_on_duplicate company self
               (PaymentCreateView.form_invoice form) inv k a1 a2); auto.
      unfold Invoice_objects_get in *. rewrite I2, I1, Hself. exact Hget.
Qed.

(** Invoice A (id 1) receives the manual amounts 30.00 and 20.00 under two
    form keys: nothing of the payment of 100.00 is recorded. *)
Definition payment_of_100_twice_for_A : PaymentCreateView.Form :=
  PaymentCreateView.mkForm acme None 19730 10000 cash
    [(1%nat, 3000); (1%nat, 2000)].

Lemma duplicate_manual_amount_rolls_back_witness :
  exists msg,
    PaymentCreateView.form_valid 1 payment_of_100_twice_for_A
      "PAY-20240105-0001" 5000 two_open_invoices
    = (inl (IntegrityError msg), two_open_invoices).
Proof.
  apply (duplicate_manual_amount_rolls_back 1 payment_of_100_twice_for_A
           "PAY-20240105-0001" 5000 two_open_invoices
           (Invoice.mk 1 1 "INV-A" 5 19720 sent 10000 false) 1 3000 2000
           [] [(1%nat, 2000)]).
  - reflexivity.
  - now left.
  - lia.
  - lia.
  - reflexivity.
  - reflexivity.
Defined.

(** * Recording a payment against an invoice *)

(** [RecordPaymentView] of [apps/invoices/views.py] with
    [RecordPaymentForm] of [apps/invoices/payment_forms.py]. *)

Module RecordPaymentView.

(** The posted fields; [post_invoice] is the primary key chosen in the
    invoice field. *)
Record Post : Type := mkPost {
  post_invoice : nat;
  post_amount : Decimal;
  post_payment_date : Date;
  post_notes : string
}.

Record CleanedData : Type := mkCleaned {
  cleaned_invoice : Invoice.t;
  cleaned_amount : Decimal;
  cleaned_payment_date : Date;
  cleaned_notes : string
}.

(** [RecordPaymentForm]: the invoice is looked up in the queryset of lines
    38-42 (no invoice has status 'overdue', it is not among
    [STATUS_CHOICES]), the amount has [min_value] 0.01 and at most 10
    digits, 2 of them decimal places, and [clean] rejects an amount above
    the invoice total. [None] stands for an invalid form. *)
Definition cleaned_data (company : nat) (post : Post) (db : DB)
    : option CleanedData :=
  match find (fun i => Nat.eqb (Invoice.id i) (post_invoice post))
             (filter (fun i => negb (Invoice.is_deleted i)
                               && Nat.eqb (Invoice.company i) company
                               && InvoiceStatus_eqb (Invoice.status i) sent)
                     (invoices db)) with
  | Some inv =>
      if (1 <=? post_amount post)
         && (post_amount post <? 10000000000)
         && negb (Invoice.total_amount inv <? post_amount post)
      then Some (mkCleaned inv (post_amount post) (post_payment_date post)
                   (post_notes post))
      else None
  | None => None
  end.

Definition payment_description (inv : Invoice.t) (notes : string) : string :=
  ("Payment for Invoice " ++ Invoice.invoice_number inv)
  ++ match notes with
     | EmptyString => ""
     | _ => " - " ++ notes
     end.

(** [form_valid]; [invoice_customer] is the row [invoice.customer], which
    the foreign key guarantees. *)
Definition form_valid (company : nat) (cd : CleanedData)
    (invoice_customer : Customer.t) (now : DateTime) : M unit :=
  atomic
    (_ <- LedgerService.create_customer_payment_entry company
            invoice_customer (cleaned_amount cd) (cleaned_payment_date cd)
            (payment_description (cleaned_invoice cd) (cleaned_notes cd))
            None now ;;
     let total_paid := cleaned_amount cd in
     if Invoice.total_amount (cleaned_invoice cd) <=? total_paid
     then Invoice_save (Invoice.set_status (cleaned_invoice cd) paid)
     else ret tt)%txn.

End RecordPaymentView.

Lemma cleaned_data_Some company post db cd :
  RecordPaymentView.cleaned_data company post db = Some cd ->
  In (RecordPaymentView.cleaned_invoice cd) (invoices db)
  /\ Invoice.id (RecordPaymentView.cleaned_invoice cd)
     = RecordPaymentView.post_invoice post
  /\ Invoice.status (RecordPaymentView.cleaned_invoice cd) = sent
  /\ RecordPaymentView.cleaned_amount cd = RecordPaymentView.post_amount post
  /\ 1 <= RecordPaymentView.cleaned_amount cd
     <= Invoice.total_amount (RecordPaymentView.cleaned_invoice cd).
Proof.
  unfold RecordPaymentView.cleaned_data.
  destruct (find _ _) as [inv|] eqn:Hfind; [|discriminate].
  destruct (_ && _) eqn:Hok; [|discriminate].
  intros H. injection H as <-. simpl.
  apply find_some in Hfind. destruct Hfind as [Hin Hid].
  apply filter_In in Hin. destruct Hin as [Hin Hq].
  apply Nat.eqb_eq in Hid.
  apply andb_true_iff in Hq. destruct Hq as [_ Hst].
  apply andb_true_iff in Hok. destruct Hok as [Hmin Hmax].
  apply andb_true_iff in Hmin. destruct Hmin as [Hmin _].
  apply Z.leb_le in Hmin. apply negb_true_iff, Z.ltb_ge in Hmax.
  repeat split; auto; try lia.
  destruct (Invoice.status inv); simpl in Hst; congruence.
Qed.

(** X25. [RecordPaymentView.form_valid] on a valid [RecordPaymentForm],
    the payment coming after the customer's stored entries and the invoice
    table having distinct primary keys: the view returns without raising,
    [get_customer_outstanding] drops by the amount, the chosen invoice is
    marked paid exactly when this one amount equals the invoice total (amounts
    of earlier payments are not added up) and no other invoice changes, and
    no [Payment] or [PaymentAllocation] row is written, so the allocations
    of an invoice marked paid here are as before. *)
Theorem record_payment_marks_paid_on_full_amount
    (company : nat) (post : RecordPaymentView.Post)
    (cd : RecordPaymentView.CleanedData) (invoice_customer : Customer.t)
    (now : DateTime) (db : DB) :
  RecordPaymentView.cleaned_data company post db = Some cd ->
  Customer.id invoice_customer
  = Invoice.customer (RecordPaymentView.cleaned_invoice cd) ->
  comes_after_party company customer (Customer.id invoice_customer) db
    (RecordPaymentView.post_payment_date post) now ->
  NoDup (map Invoice.id (invoices db)) ->
  exists db',
    RecordPaymentView.form_valid company cd invoice_customer now db
    = (inr tt, db')
    /\ LedgerService.get_customer_outstanding company
         (Customer.id invoice_customer) db'
       = LedgerService.get_customer_outstanding company
           (Customer.id invoice_customer) db
         - RecordPaymentView.post_amount post
    /\ invoices db'
       = map (fun i =>
                if Nat.eqb (Invoice.id i) (RecordPaymentView.post_invoice post)
                   && (RecordPaymentView.post_amount post
                       =? Invoice.total_amount i)
                then Invoice.set_status i paid
                else i)
             (invoices db)
    /\ payments db' = payments db
    /\ allocations db' = allocations db.
Proof.
  intros Hcd Hcust Hafter Hnd.
  pose proof (cleaned_data_Some company post db cd Hcd)
    as [Hin [Hid [_ [Hamount Hrange]]]].
  assert (Hdate : RecordPaymentView.cleaned_payment_date cd
                  = RecordPaymentView.post_payment_date post).
  { unfold RecordPaymentView.cleaned_data in Hcd.
    destruct (find _ _); [|discriminate].
    destruct (_ && _); [|discriminate]. now injection Hcd as <-. }
  unfold RecordPaymentView.form_valid,
    LedgerService.create_customer_payment_entry.
  rewrite Hdate, Hamount in *.
  destruct (create_entry_moves_balance company customer
              (Customer.id invoice_customer) payment 0
              (RecordPaymentView.post_amount post)
              (RecordPaymentView.post_payment_date post)
              (LedgerService.or_default
                 (RecordPaymentView.payment_description
                    (RecordPaymentView.cleaned_invoice cd)
                    (RecordPaymentView.cleaned_notes cd))
                 ("Payment received from " ++ Customer.name invoice_customer))
              None now db (reference_is_free_None db payment) Hafter)
    as [e [d1 [Hrun [Hd1 [_ [_ Hbal]]]]]].
  set (inv := RecordPaymentView.cleaned_invoice cd) in *.
  assert (Hrows : forall i, In i (invoices db) ->
            Nat.eqb (Invoice.id i) (RecordPaymentView.post_invoice post)
            = true -> i = inv).
  { intros i Hi E. apply Nat.eqb_eq in E.
    apply (NoDup_map_In_inj Invoice.id (invoices db)); auto. congruence. }
  destruct (Z.leb_spec (Invoice.total_amount inv)
              (RecordPaymentView.post_amount post)) as [Hfull|Hpart].
  - exists (set_invoices d1
              (map (fun i => if Nat.eqb (Invoice.id i)
                                  (Invoice.id (Invoice.set_status inv paid))
                             then Invoice.set_status inv paid else i)
                   (invoices d1))).
    split; [|split; [|split; [|split]]].
    + apply atomic_inr. run_step Hrun. reflexivity.
    + rewrite !get_customer_outstanding_current in *.
      unfold current_balance in *. simpl. rewrite Hbal. lia.
    + rewrite Hd1. simpl. apply map_ext_in. intros i Hi. rewrite Hid.
      destruct (Nat.eqb (Invoice.id i) (RecordPaymentView.post_invoice post))
        eqn:E; simpl; [|reflexivity].
      rewrite (Hrows i Hi E).
      rewrite (proj2 (Z.eqb_eq _ _)) by lia. reflexivity.
    + rewrite Hd1. reflexivity.
    + rewrite Hd1. reflexivity.
  - exists d1. split; [|split; [|split; [|split]]].
    + apply atomic_inr. run_step Hrun. reflexivity.
    + rewrite !get_customer_outstanding_current in *.
      unfold current_balance in *. rewrite Hbal. lia.
    + rewrite Hd1. simpl.
      rewrite <- (map_id (invoices db)) at 1. apply map_ext_in.
      intros i Hi.
      destruct (Nat.eqb (Invoice.id i) (RecordPaymentView.post_invoice post))
        eqn:E; simpl; [|reflexivity].
      rewrite (Hrows i Hi E).
      rewrite (proj2 (Z.eqb_neq _ _)) by lia. reflexivity.
    + rewrite Hd1. reflexivity.
    + rewrite Hd1. reflexivity.
Qed.

(** Invoice A of 100.00 receives 40.00 and then 60.00: the customer's
    ledger balance is settled, and the invoice is still sent. *)
Definition invoice_A_entry : DB :=
  mkDB [ LedgerEntry.mk 1 1 customer 5 invoice 10000 0 10000
           (Some InvoiceModel) (Some 1%nat) "Invoice INV-A" 19720 1000 ]
    2 [acme]
    [ Invoice.mk 1 1 "INV-A" 5 19720 sent 10000 false ]
    [] 1 [] 1.

Lemma record_payment_marks_paid_on_full_amount_witness :
  exists db',
    RecordPaymentView.form_valid 1
      (RecordPaymentView.mkCleaned
         (Invoice.mk 1 1 "INV-A" 5 19720 sent 10000 false) 4000 19730 "")
      acme 5000 invoice_A_entry
    = (inr tt, db')
    /\ LedgerService.get_customer_outstanding 1 (Customer.id acme) db'
       = LedgerService.get_customer_outstanding 1 (Customer.id acme)
           invoice_A_entry
         - RecordPaymentView.post_amount
             (RecordPaymentView.mkPost 1 4000 19730 "")
    /\ invoices db'
       = map (fun i =>
                if Nat.eqb (Invoice.id i)
                     (RecordPaymentView.post_invoice
                        (RecordPaymentView.mkPost 1 4000 19730 ""))
                   && (RecordPaymentView.post_amount
                         (RecordPaymentView.mkPost 1 4000 19730 "")
                       =? Invoice.total_amount i)
                then Invoice.set_status i paid
                else i)
             (invoices invoice_A_entry)
    /\ payments db' = payments invoice_A_entry
    /\ allocations db' = allocations invoice_A_entry.
Proof.
  apply (record_payment_marks_paid_on_full_amount 1
           (RecordPaymentView.mkPost 1 4000 19730 "")).
  - reflexivity.
  - reflexivity.
  - intros a [<- | []] _. simpl. lia.
  - simpl. repeat (constructor; [simpl; lia|]). constructor.
Defined.

Example partial_payments_leave_invoice_sent :
  let cd amount date :=
    RecordPaymentView.mkCleaned
      (Invoice.mk 1 1 "INV-A" 5 19720 sent 10000 false) amount date "" in
  let db1 :=
    snd (RecordPaymentView.form_valid 1 (cd 4000 19730) acme 5000
           invoice_A_entry) in
  let db2 :=
    snd (RecordPaymentView.form_valid 1 (cd 6000 19731) acme 6000 db1) in
  LedgerService.get_customer_outstanding 1 5 db2 = 0
  /\ map Invoice.status (invoices db2) = [sent].
Proof. split; reflexivity. Qed.

(** * The ledger entries of the invoice views *)

(** [InvoiceCreateView.form_valid] and [InvoiceUpdateView.form_valid] of
    [apps/invoices/views.py], in the branch where the item formset is
    valid. [self_object] is the invoice as [form.save()] and
    [calculate_total()] leave it, [invoice_customer] the row
    [self.object.customer], [now1] and [now2] the clock at the first and
    the second entry the view may create. *)

(** [existing_entry.delete()] *)
Definition LedgerEntry_delete (entry : LedgerEntry.t) : M unit :=
  fun db =>
    (inr tt,
     set_ledger db
       (filter (fun r => negb (Nat.eqb (LedgerEntry.id r)
                                 (LedgerEntry.id entry)))
               (ledger_entries db))
       (ledger_seq db)).

(** [existing_entry.debit = v] on an in-memory row *)
Definition LedgerEntry_set_debit (e : LedgerEntry.t) (v : Decimal)
    : LedgerEntry.t :=
  LedgerEntry.mk (LedgerEntry.id e) (LedgerEntry.company e)
    (LedgerEntry.party_type e) (LedgerEntry.party_id e)
    (LedgerEntry.entry_type e) v (LedgerEntry.credit e)
    (LedgerEntry.running_balance e) (LedgerEntry.reference_type e)
    (LedgerEntry.reference_id e) (LedgerEntry.description e)
    (LedgerEntry.transaction_date e) (LedgerEntry.created_at e).

(** [existing_entry.save()]: an UPDATE of every column of the row with
    that primary key; no validator runs. *)
Definition LedgerEntry_save (entry : LedgerEntry.t) : M unit :=
  fun db =>
    (inr tt,
     set_ledger db
       (map (fun r => if Nat.eqb (LedgerEntry.id r) (LedgerEntry.id entry)
                      then entry else r)
            (ledger_entries db))
       (ledger_seq db)).

Module InvoiceViews.

(** The filter both views use to find the ledger entry of the invoice:
    company, party_type='customer', party_id, reference_type__model=
    'invoice', reference_id. *)
Definition invoice_entry_filter (self_object : Invoice.t)
    (invoice_customer : Customer.t) (e : LedgerEntry.t) : bool :=
  Nat.eqb (LedgerEntry.company e) (Invoice.company self_object)
  && PartyType_eqb (LedgerEntry.party_type e) customer
  && Nat.eqb (LedgerEntry.party_id e) (Customer.id invoice_customer)
  && match LedgerEntry.reference_type e with
     | Some InvoiceModel => true
     | _ => false
     end
  && option_nat_eqb (LedgerEntry.reference_id e)
       (Some (Invoice.id self_object)).

(** [.exists()] *)
Definition existing (self_object : Invoice.t) (invoice_customer : Customer.t)
    (db : DB) : bool :=
  existsb (invoice_entry_filter self_object invoice_customer)
    (ledger_entries db).

(** [.first()], under the default ordering of [LedgerEntry] *)
Definition existing_entry (self_object : Invoice.t)
    (invoice_customer : Customer.t) (db : DB) : option LedgerEntry.t :=
  first (order_by LedgerEntry.key_leb
           (filter (invoice_entry_filter self_object invoice_customer)
                   (ledger_entries db))).

Definition payment_description (self_object : Invoice.t) : string :=
  "Payment for Invoice " ++ Invoice.invoice_number self_object.

Definition create_payment_entry (self_object : Invoice.t)
    (invoice_customer : Customer.t) (now : DateTime) : M LedgerEntry.t :=
  LedgerService.create_customer_payment_entry (Invoice.company self_object)
    invoice_customer (Invoice.total_amount self_object)
    (Invoice.date self_object) (payment_description self_object) None now.

Definition recalculate (self_object : Invoice.t)
    (invoice_customer : Customer.t) : M unit :=
  (_ <- LedgerService.recalculate_party_balance (Invoice.company self_object)
          customer (Customer.id invoice_customer) ;;
   ret tt)%txn.


(** [InvoiceUpdateView.form_valid], lines 193-255: cases 1 and 2. *)
Definition update_sent_entry (old_status : InvoiceStatus)
    (self_object : Invoice.t) (invoice_customer : Customer.t)
    (now1 : DateTime) : M unit :=
  if InvoiceStatus_eqb old_status sent
     && InvoiceStatus_eqb (Invoice.status self_object) cancelled
  then
    (db <- get_db ;;
     match existing_entry self_object invoice_customer db with
     | Some entry =>
         LedgerEntry_delete entry ;;;
         recalculate self_object invoice_customer
     | None => ret tt
     end)%txn
  else if InvoiceStatus_eqb (Invoice.status self_object) sent then
    (db <- get_db ;;
     match existing_entry self_object invoice_customer db with
     | Some entry =>
         if negb (LedgerEntry.debit entry
                  =? Invoice.total_amount self_object)
         then
           LedgerEntry_save
             (LedgerEntry_set_debit entry (Invoice.total_amount self_object))
           ;;; recalculate self_object invoice_customer
         else ret tt
     | None =>
         if 0 <? Invoice.total_amount self_object then
           (_ <- LedgerService.create_customer_invoice_entry
                   (Invoice.company self_object) invoice_customer
                   self_object now1 ;;
            ret tt)
         else ret tt
     end)%txn
  else ret tt.

(** Lines 257-285: case 3. *)
Definition update_paid_entries (old_status : InvoiceStatus)
    (self_object : Invoice.t) (invoice_customer : Customer.t)
    (now1 now2 : DateTime) : M unit :=
  if InvoiceStatus_eqb (Invoice.status self_object) paid then
    (db <- get_db ;;
     (if negb (existing self_object invoice_customer db)
         && (0 <? Invoice.total_amount self_object)
      then (_ <- LedgerService.create_customer_invoice_entry
                   (Invoice.company self_object) invoice_customer
                   self_object now1 ;;
            ret tt)
      else ret tt) ;;;
     (if negb (InvoiceStatus_eqb old_status paid)
      then (_ <- create_payment_entry self_object invoice_customer now2 ;;
            ret tt)
      else ret tt))%txn
  else ret tt.

(** [InvoiceUpdateView.form_valid]: [old_status] is the status the row
    held before; [form.save()] and [calculate_total()] write the row, the
    ledger cases follow, all inside [transaction.atomic()]. *)
Definition update_form_valid (old_status : InvoiceStatus)
    (self_object : Invoice.t) (invoice_customer : Customer.t)
    (now1 now2 : DateTime) : M unit :=
  atomic
    (Invoice_save self_object ;;;
     update_sent_entry old_status self_object invoice_customer now1 ;;;
     update_paid_entries old_status self_object invoice_customer now1 now2)%txn.

End InvoiceViews.


Lemma invoice_entry_filter_true self_object invoice_customer e :
  InvoiceViews.invoice_entry_filter self_object invoice_customer e = true ->
  LedgerService.party_filter (Invoice.company self_object) customer
    (Customer.id invoice_customer) e = true
  /\ LedgerEntry.reference_type e = Some InvoiceModel
  /\ LedgerEntry.reference_id e = Some (Invoice.id self_object).
Proof.
  unfold InvoiceViews.invoice_entry_filter, LedgerService.party_filter.
  rewrite !andb_true_iff. intros [[[[H1 H2] H3] H4] H5].
  split; [now rewrite H1, H2, H3|].
  destruct (LedgerEntry.reference_type e) as [[| |n]|]; try discriminate.
  split; [reflexivity|].
  destruct (LedgerEntry.reference_id e) as [k|]; [|discriminate].
  simpl in H5. apply Nat.eqb_eq in H5. now subst k.
Qed.






(** ** An invoice whose entry belongs to another customer *)

Lemma existing_entry_None self_object invoice_customer db :
  InvoiceViews.existing self_object invoice_customer db = false ->
  InvoiceViews.existing_entry self_object invoice_customer db = None.
Proof.
  intros H. unfold InvoiceViews.existing in H.
  unfold InvoiceViews.existing_entry.
  rewrite (filter_none _ (ledger_entries db)); [reflexivity|].
  now apply existsb_false_iff.
Qed.

(** The invoice entry cannot be created while an entry of type invoice
    refers to the invoice. *)
Lemma invoice_entry_rejected company invoice_customer self_object now db r :
  In r (ledger_entries db) ->
  LedgerEntry.reference_type r = Some InvoiceModel ->
  LedgerEntry.reference_id r = Some (Invoice.id self_object) ->
  LedgerEntry.entry_type r = invoice ->
  LedgerService.create_customer_invoice_entry company invoice_customer
    self_object now db
  = (inl (IntegrityError "unique_reference_entry"), db).
Proof.
  intros Hin Hct Hrid Hty.
  unfold LedgerService.create_customer_invoice_entry,
    LedgerService._create_entry, atomic, bind, get_db,
    LedgerService.insert_after, LedgerEntry_objects_create.
  simpl.
  erewrite violates_unique_reference_entry_In; [reflexivity | exact Hin |].
  unfold same_reference_entry. simpl. rewrite Hct, Hrid, Hty. simpl.
  now rewrite Nat.eqb_refl.
Qed.

(** X27. [InvoiceUpdateView.form_valid] for an invoice saved as sent or
    paid with a positive total, when the ledger holds no entry of the
    invoice for the invoice's (current) customer but holds an invoice entry
    that refers to it, as after the customer of a sent invoice was changed in
    the form: the view looks for the entry under the new customer, finds
    none, tries to create one, the unique constraint on (reference_type,
    reference_id, entry_type) rejects it, and [transaction.atomic] rolls
    everything back: [IntegrityError], and the database, the invoice row
    included, is as before. *)
Theorem reassigned_invoice_update_is_rejected
    (old_status : InvoiceStatus) (self_object : Invoice.t)
    (invoice_customer : Customer.t) (now1 now2 : DateTime) (db : DB)
    (r : LedgerEntry.t) :
  Invoice.status self_object = sent \/ Invoice.status self_object = paid ->
  0 < Invoice.total_amount self_object ->
  InvoiceViews.existing self_object invoice_customer db = false ->
  In r (ledger_entries db) ->
  LedgerEntry.reference_type r = Some InvoiceModel ->
  LedgerEntry.reference_id r = Some (Invoice.id self_object) ->
  LedgerEntry.entry_type r = invoice ->
  InvoiceViews.update_form_valid old_status self_object invoice_customer
    now1 now2 db
  = (inl (IntegrityError "unique_reference_entry"), db).
Proof.
  intros Hst Hpos Hex Hin Hct Hrid Hty.
  unfold InvoiceViews.update_form_valid, atomic.
  unfold bind at 1. unfold Invoice_save at 1. cbv beta iota.
  set (d0 := set_invoices db _).
  assert (Hex0 : InvoiceViews.existing self_object invoice_customer d0
                 = false) by exact Hex.
  assert (Hin0 : In r (ledger_entries d0)) by exact Hin.
  pose proof (invoice_entry_rejected (Invoice.company self_object)
                invoice_customer self_object now1 d0 r Hin0 Hct Hrid Hty)
    as Hrej.
  apply Z.ltb_lt in Hpos.
  destruct Hst as [Hst|Hst].
  - unfold bind at 1. unfold InvoiceViews.update_sent_entry.
    rewrite Hst. cbn [InvoiceStatus_eqb]. rewrite andb_false_r.
    unfold bind at 1, get_db at 1.
    rewrite (existing_entry_None self_object invoice_customer d0 Hex0).
    rewrite Hpos. unfold bind at 1. rewrite Hrej. reflexivity.
  - unfold bind at 1. unfold InvoiceViews.update_sent_entry.
    rewrite Hst. cbn [InvoiceStatus_eqb]. rewrite andb_false_r.
    unfold ret at 1. unfold InvoiceViews.update_paid_entries.
    rewrite Hst. cbn [InvoiceStatus_eqb].
    unfold bind at 1, get_db at 1. rewrite Hex0, Hpos. cbn [negb andb].
    unfold bind at 1. unfold bind at 1. rewrite Hrej. reflexivity.
Qed.

(** Invoice A (entry under customer 5) is saved with customer 6. *)
Lemma reassigned_invoice_update_is_rejected_witness :
  InvoiceViews.update_form_valid sent
    (Invoice.mk 1 1 "INV-A" 6 19720 sent 10000 false)
    (Customer.mk 6 1 "Bolt" false) 5000 5001 invoice_A_entry
  = (inl (IntegrityError "unique_reference_entry"), invoice_A_entry).
Proof.
  apply (reassigned_invoice_update_is_rejected sent
           (Invoice.mk 1 1 "INV-A" 6 19720 sent 10000 false)
           (Customer.mk 6 1 "Bolt" false) 5000 5001 invoice_A_entry
           (LedgerEntry.mk 1 1 customer 5 invoice 10000 0 10000
              (Some InvoiceModel) (Some 1%nat) "Invoice INV-A" 19720 1000)).
  - now left.
  - simpl. lia.
  - reflexivity.
  - now left.
  - reflexivity.
  - reflexivity.
  - reflexivity.
Defined.

(** ** Cancelling and editing a sent invoice *)

Lemma recurrence_last_balance prev entries :
  recurrence_from prev entries ->
  last_balance prev entries = prev + net_movement entries.
Proof.
  revert prev. induction entries as [|e es IH]; intros prev H.
  - unfold net_movement, last_balance. simpl. lia.
  - destruct H as [Hb Hrest]. specialize (IH _ Hrest).
    unfold net_movement, last_balance in *. simpl. rewrite IH. lia.
Qed.

(** The balance read for a party whose entries satisfy the recurrence is
    the sum of its movements. *)
Lemma current_balance_of_balanced company party_type party_id db :
  distinct_keys company party_type party_id db ->
  balance_recurrence company party_type party_id db ->
  current_balance company party_type party_id db
  = net_movement (party_entries company party_type party_id db).
Proof.
  intros Hkeys Hrec. unfold current_balance.
  rewrite previous_balance_is_last_balance by exact Hkeys.
  rewrite (recurrence_last_balance 0 _ Hrec). lia.
Qed.

Lemma with_balance_keys entries prev a :
  LedgerEntry.transaction_date (with_balance entries prev a)
  = LedgerEntry.transaction_date a
  /\ LedgerEntry.created_at (with_balance entries prev a)
     = LedgerEntry.created_at a.
Proof.
  unfold with_balance.
  destruct (balance_of entries prev (LedgerEntry.id a)); split; reflexivity.
Qed.

(** A recalculation keeps the (transaction_date, created_at) keys
    distinct. *)
Lemma recalculation_keeps_distinct_keys company party_type party_id db :
  unique_ledger_pks db ->
  distinct_keys company party_type party_id db ->
  distinct_keys company party_type party_id
    (snd (LedgerService.recalculate_party_balance company party_type
            party_id db)).
Proof.
  intros Hnd Hkeys. unfold distinct_keys.
  rewrite (party_entries_after_recalculation company party_type party_id
             Hnd).
  rewrite <- (map_with_balance_rebalance 0
                (party_entries company party_type party_id db))
    by (now apply party_entries_unique).
  intros a' b' Ha' Hb' Hd Hc.
  apply in_map_iff in Ha'. destruct Ha' as [a [<- Ha]].
  apply in_map_iff in Hb'. destruct Hb' as [b [<- Hb]].
  destruct (with_balance_keys
              (party_entries company party_type party_id db) 0 a)
    as [Da Ca].
  destruct (with_balance_keys
              (party_entries company party_type party_id db) 0 b)
    as [Db Cb].
  f_equal. apply Hkeys; auto; congruence.
Qed.

(** After a recalculation the balance read for the party is the sum of
    its movements. *)
Lemma current_balance_after_recalculation company party_type party_id db :
  unique_ledger_pks db ->
  distinct_keys company party_type party_id db ->
  current_balance company party_type party_id
    (snd (LedgerService.recalculate_party_balance company party_type
            party_id db))
  = net_movement (party_entries company party_type party_id db).
Proof.
  intros Hnd Hkeys.
  rewrite current_balance_of_balanced.
  - rewrite (party_entries_after_recalculation company party_type party_id
               Hnd).
    apply net_movement_rebalance.
  - now apply recalculation_keeps_distinct_keys.
  - now apply recalculation_restores_recurrence.
Qed.

Lemma filter_keeps_all {A : Type} (p : A -> bool) l :
  (forall x, In x l -> p x = true) -> filter p l = l.
Proof.
  induction l as [|x l IH]; simpl; intros H; [reflexivity|].
  rewrite (H x (or_introl eq_refl)). f_equal. apply IH.
  intros y Hy. apply H. now right.
Qed.

(** Removing the row with a primary key from a list of distinct rows takes
    its movement out of the sum. *)
Lemma net_movement_without entries e :
  NoDup (map LedgerEntry.id entries) ->
  In e entries ->
  net_movement entries
  = (LedgerEntry.debit e - LedgerEntry.credit e)
    + net_movement
        (filter (fun r => negb (Nat.eqb (LedgerEntry.id r)
                                  (LedgerEntry.id e)))
                entries).
Proof.
  unfold net_movement.
  induction entries as [|x l IH]; simpl; intros Hnd Hin; [contradiction|].
  inversion Hnd as [|? ? Hnotin Hnd']; subst.
  destruct Hin as [->|Hin].
  - rewrite Nat.eqb_refl. simpl. f_equal.
    rewrite (filter_keeps_all _ l); [reflexivity|].
    intros r Hr. apply negb_true_iff, Nat.eqb_neq. intros E.
    apply Hnotin. rewrite <- E. now apply in_map.
  - destruct (Nat.eqb_spec (LedgerEntry.id x) (LedgerEntry.id e)) as [E|E].
    + exfalso. apply Hnotin. rewrite E. now apply in_map.
    + simpl. rewrite (IH Hnd' Hin). lia.
Qed.

Lemma existing_entry_Some self_object invoice_customer db entry :
  InvoiceViews.existing_entry self_object invoice_customer db = Some entry ->
  In entry (ledger_entries db)
  /\ In entry
       (party_entries (Invoice.company self_object) customer
          (Customer.id invoice_customer) db)
  /\ LedgerEntry.reference_type entry = Some InvoiceModel
  /\ LedgerEntry.reference_id entry = Some (Invoice.id self_object).
Proof.
  intros H. unfold InvoiceViews.existing_entry in H.
  apply first_In in H. apply order_by_In in H. apply filter_In in H.
  destruct H as [Hin Hf]. apply invoice_entry_filter_true in Hf.
  destruct Hf as [Hpf [Hct Hrid]].
  split; [exact Hin|]. split; [|split; assumption].
  unfold party_entries. apply order_by_In. apply filter_In. auto.
Qed.

Lemma party_entries_after_delete company party_type party_id db entry :
  party_entries company party_type party_id
    (set_ledger db
       (filter (fun r => negb (Nat.eqb (LedgerEntry.id r)
                                 (LedgerEntry.id entry)))
               (ledger_entries db))
       (ledger_seq db))
  = filter (fun r => negb (Nat.eqb (LedgerEntry.id r) (LedgerEntry.id entry)))
      (party_entries company party_type party_id db).
Proof.
  unfold party_entries. simpl.
  rewrite <- (order_by_filter LedgerEntry.key_leb _ key_leb_trans
                key_leb_total).
  f_equal. rewrite !filter_filter. apply filter_ext. intros r.
  apply andb_comm.
Qed.

(** Case 1 of the update view on any database: the entry is deleted and
    the customer's balances are recalculated. *)
Lemma cancel_sent_entry self_object invoice_customer now1 db entry :
  Invoice.status self_object = cancelled ->
  InvoiceViews.existing_entry self_object invoice_customer db = Some entry ->
  unique_ledger_pks db ->
  distinct_keys (Invoice.company self_object) customer
    (Customer.id invoice_customer) db ->
  balance_recurrence (Invoice.company self_object) customer
    (Customer.id invoice_customer) db ->
  exists db',
    InvoiceViews.update_sent_entry sent self_object invoice_customer now1 db
    = (inr tt, db')
    /\ db' = set_ledger db (ledger_entries db') (ledger_seq db)
    /\ map LedgerEntry.id (ledger_entries db')
       = map LedgerEntry.id
           (filter (fun r => negb (Nat.eqb (LedgerEntry.id r)
                                     (LedgerEntry.id entry)))
                   (ledger_entries db))
    /\ balance_recurrence (Invoice.company self_object) customer
         (Customer.id invoice_customer) db'
    /\ current_balance (Invoice.company self_object) customer
         (Customer.id invoice_customer) db'
       = current_balance (Invoice.company self_object) customer
           (Customer.id invoice_customer) db
         - (LedgerEntry.debit entry - LedgerEntry.credit entry).
Proof.
  intros Hst Hex Hnd Hkeys Hrec.
  destruct (existing_entry_Some self_object invoice_customer db entry Hex)
    as [Hin [Hparty _]].
  set (company := Invoice.company self_object) in *.
  set (pid := Customer.id invoice_customer) in *.
  set (ne := fun r => negb (Nat.eqb (LedgerEntry.id r)
                              (LedgerEntry.id entry))).
  set (d1 := set_ledger db (filter ne (ledger_entries db)) (ledger_seq db)).
  assert (Hnd1 : unique_ledger_pks d1).
  { unfold unique_ledger_pks, d1. simpl. now apply NoDup_map_filter. }
  assert (Hpe1 : party_entries company customer pid d1
                 = filter ne (party_entries company customer pid db))
    by apply party_entries_after_delete.
  assert (Hkeys1 : distinct_keys company customer pid d1).
  { unfold distinct_keys. rewrite Hpe1. intros a b Ha Hb.
    apply filter_In in Ha, Hb. apply Hkeys; tauto. }
  pose proof (recalculate_party_balance_spec company customer pid Hnd1)
    as Hspec.
  pose proof (recalculation_restores_recurrence company customer pid Hnd1)
    as Hrec2.
  pose proof (current_balance_after_recalculation company customer pid d1
                Hnd1 Hkeys1) as Hbal2.
  set (d2 := set_ledger d1
               (map (with_balance (party_entries company customer pid d1) 0)
                    (ledger_entries d1))
               (ledger_seq d1)) in *.
  assert (Hsnd : snd (LedgerService.recalculate_party_balance company
                        customer pid d1) = d2)
    by (rewrite Hspec; reflexivity).
  rewrite Hsnd in Hrec2, Hbal2.
  exists d2. split; [|split; [|split; [|split]]].
  - unfold InvoiceViews.update_sent_entry. rewrite Hst.
    cbn [InvoiceStatus_eqb andb].
    unfold bind at 1, get_db at 1. rewrite Hex.
    unfold bind at 1. unfold LedgerEntry_delete at 1. cbv beta iota.
    fold ne. fold d1. unfold InvoiceViews.recalculate, bind.
    fold company. fold pid. rewrite Hspec. reflexivity.
  - reflexivity.
  - simpl. rewrite map_map. apply map_ext. intros r. apply with_balance_id.
  - exact Hrec2.
  - rewrite Hbal2, Hpe1.
    rewrite (current_balance_of_balanced company customer pid db Hkeys Hrec).
    rewrite (net_movement_without
               (party_entries company customer pid db) entry).
    + fold ne. lia.
    + now apply party_entries_unique.
    + exact Hparty.
Qed.

(** X28. [InvoiceUpdateView.form_valid], case 1: a sent invoice is saved
    as cancelled while the ledger, with distinct primary keys, distinct
    (transaction_date, created_at) keys for the customer and the customer's
    balances in order, holds an entry of the invoice. The view returns
    without raising, that entry (the first one in date order) is deleted and
    every other ledger row is kept, the customer's entries again satisfy the
    balance recurrence, and [get_customer_outstanding] is lower by the
    deleted entry's debit minus credit. *)
Theorem cancelling_sent_invoice_voids_entry
    (self_object : Invoice.t) (invoice_customer : Customer.t)
    (now1 now2 : DateTime) (db : DB) (entry : LedgerEntry.t) :
  Invoice.status self_object = cancelled ->
  InvoiceViews.existing_entry self_object invoice_customer db = Some entry ->
  unique_ledger_pks db ->
  distinct_keys (Invoice.company self_object) customer
    (Customer.id invoice_customer) db ->
  balance_recurrence (Invoice.company self_object) customer
    (Customer.id invoice_customer) db ->
  exists db',
    InvoiceViews.update_form_valid sent self_object invoice_customer now1
      now2 db = (inr tt, db')
    /\ map LedgerEntry.id (ledger_entries db')
       = map LedgerEntry.id
           (filter (fun r => negb (Nat.eqb (LedgerEntry.id r)
                                     (LedgerEntry.id entry)))
                   (ledger_entries db))
    /\ balance_recurrence (Invoice.company self_object) customer
         (Customer.id invoice_customer) db'
    /\ LedgerService.get_customer_outstanding (Invoice.company self_object)
         (Customer.id invoice_customer) db'
       = LedgerService.get_customer_outstanding
           (Invoice.company self_object) (Customer.id invoice_customer) db
         - (LedgerEntry.debit entry - LedgerEntry.credit entry).
Proof.
  intros Hst Hex Hnd Hkeys Hrec.
  set (d0 := set_invoices db
               (map (fun i => if Nat.eqb (Invoice.id i)
                                   (Invoice.id self_object)
                              then self_object else i)
                    (invoices db))).
  destruct (cancel_sent_entry self_object invoice_customer now1 d0 entry
              Hst Hex Hnd Hkeys Hrec)
    as [db' [Hrun [_ [Hids [Hrec' Hbal]]]]].
  exists db'. split; [|split; [|split]].
  - unfold InvoiceViews.update_form_valid. apply atomic_inr.
    unfold bind at 1. unfold Invoice_save at 1. cbv beta iota. fold d0.
    unfold bind. rewrite Hrun.
    unfold InvoiceViews.update_paid_entries. rewrite Hst. reflexivity.
  - exact Hids.
  - exact Hrec'.
  - rewrite !get_customer_outstanding_current. exact Hbal.
Qed.

(** Customer 5 with invoice A (100.00) and invoice C (40.00), both sent
    and entered in the ledger. *)
Definition two_invoice_entries : DB :=
  mkDB [ LedgerEntry.mk 1 1 customer 5 invoice 10000 0 10000
           (Some InvoiceModel) (Some 1%nat) "Invoice INV-A" 19720 1000;
         LedgerEntry.mk 2 1 customer 5 invoice 4000 0 14000
           (Some InvoiceModel) (Some 3%nat) "Invoice INV-C" 19722 2000 ]
    3 [acme]
    [ Invoice.mk 1 1 "INV-A" 5 19720 sent 10000 false;
      Invoice.mk 3 1 "INV-C" 5 19722 sent 4000 false ]
    [] 1 [] 1.

Lemma two_invoice_entries_distinct_keys :
  distinct_keys 1 customer 5 two_invoice_entries.
Proof.
  intros a b Ha Hb. vm_compute in Ha, Hb.
  destruct Ha as [<- | [<- | []]], Hb as [<- | [<- | []]];
    simpl; intros Hd Hc; try reflexivity; discriminate.
Defined.

Lemma two_invoice_entries_unique_pks : unique_ledger_pks two_invoice_entries.
Proof.
  unfold unique_ledger_pks. simpl.
  repeat (constructor; [simpl; lia|]). constructor.
Defined.

Lemma two_invoice_entries_balanced :
  balance_recurrence 1 customer 5 two_invoice_entries.
Proof. vm_compute. repeat split. Defined.

Lemma cancelling_sent_invoice_voids_entry_witness :
  exists db',
    InvoiceViews.update_form_valid sent
      (Invoice.mk 1 1 "INV-A" 5 19720 cancelled 10000 false) acme 5000 5001
      two_invoice_entries = (inr tt, db')
    /\ map LedgerEntry.id (ledger_entries db')
       = map LedgerEntry.id
           (filter (fun r => negb (Nat.eqb (LedgerEntry.id r) 1))
                   (ledger_entries two_invoice_entries))
    /\ balance_recurrence 1 customer 5 db'
    /\ LedgerService.get_customer_outstanding 1 5 db'
       = LedgerService.get_customer_outstanding 1 5 two_invoice_entries
         - (10000 - 0).
Proof.
  apply (cancelling_sent_invoice_voids_entry
           (Invoice.mk 1 1 "INV-A" 5 19720 cancelled 10000 false) acme 5000
           5001 two_invoice_entries
           (LedgerEntry.mk 1 1 customer 5 invoice 10000 0 10000
              (Some InvoiceModel) (Some 1%nat) "Invoice INV-A" 19720 1000)).
  - reflexivity.
  - reflexivity.
  - exact two_invoice_entries_unique_pks.
  - exact two_invoice_entries_distinct_keys.
  - exact two_invoice_entries_balanced.
Defined.

(** The row as [existing_entry.save()] leaves it after the debit was set. *)
Definition with_debit (pk : nat) (v : Decimal) (r : LedgerEntry.t)
    : LedgerEntry.t :=
  if Nat.eqb (LedgerEntry.id r) pk then LedgerEntry_set_debit r v else r.

Lemma with_debit_id pk v r :
  LedgerEntry.id (with_debit pk v r) = LedgerEntry.id r.
Proof. unfold with_debit. destruct (Nat.eqb _ _); reflexivity. Qed.

Lemma with_debit_party company party_type party_id pk v r :
  LedgerService.party_filter company party_type party_id (with_debit pk v r)
  = LedgerService.party_filter company party_type party_id r.
Proof. unfold with_debit. destruct (Nat.eqb _ _); reflexivity. Qed.

Lemma with_debit_key_leb pk v a b :
  LedgerEntry.key_leb (with_debit pk v a) (with_debit pk v b)
  = LedgerEntry.key_leb a b.
Proof.
  unfold with_debit.
  destruct (Nat.eqb (LedgerEntry.id a) pk), (Nat.eqb (LedgerEntry.id b) pk);
    reflexivity.
Qed.

Lemma net_movement_with_debit entries e v :
  NoDup (map LedgerEntry.id entries) ->
  In e entries ->
  net_movement (map (with_debit (LedgerEntry.id e) v) entries)
  = net_movement entries + (v - LedgerEntry.debit e).
Proof.
  unfold net_movement.
  induction entries as [|x l IH]; simpl; intros Hnd Hin; [contradiction|].
  inversion Hnd as [|? ? Hnotin Hnd']; subst.
  destruct Hin as [->|Hin].
  - assert (Hx : with_debit (LedgerEntry.id e) v e = LedgerEntry_set_debit e v)
      by (unfold with_debit; now rewrite Nat.eqb_refl).
    rewrite Hx. simpl.
    rewrite (map_ext_in (with_debit (LedgerEntry.id e) v) (fun r => r)).
    + rewrite map_id. lia.
    + intros r Hr. unfold with_debit.
      destruct (Nat.eqb_spec (LedgerEntry.id r) (LedgerEntry.id e)) as [E|E];
        [|reflexivity].
      exfalso. apply Hnotin. rewrite <- E. now apply in_map.
  - assert (Hx : with_debit (LedgerEntry.id e) v x = x).
    { unfold with_debit.
      destruct (Nat.eqb_spec (LedgerEntry.id x) (LedgerEntry.id e)) as [E|E];
        [|reflexivity].
      exfalso. apply Hnotin. rewrite E. now apply in_map. }
    rewrite Hx, (IH Hnd' Hin). lia.
Qed.

(** Case 2 of the update view on any database, the invoice having an
    entry. *)
Lemma edit_sent_entry old_status self_object invoice_customer now1 db entry :
  Invoice.status self_object = sent ->
  InvoiceViews.existing_entry self_object invoice_customer db = Some entry ->
  unique_ledger_pks db ->
  distinct_keys (Invoice.company self_object) customer
    (Customer.id invoice_customer) db ->
  balance_recurrence (Invoice.company self_object) customer
    (Customer.id invoice_customer) db ->
  exists db',
    InvoiceViews.update_sent_entry old_status self_object invoice_customer
      now1 db = (inr tt, db')
    /\ map LedgerEntry.id (ledger_entries db')
       = map LedgerEntry.id (ledger_entries db)
    /\ (exists e', In e' (ledger_entries db')
                   /\ LedgerEntry.id e' = LedgerEntry.id entry
                   /\ LedgerEntry.debit e' = Invoice.total_amount self_object)
    /\ balance_recurrence (Invoice.company self_object) customer
         (Customer.id invoice_customer) db'
    /\ current_balance (Invoice.company self_object) customer
         (Customer.id invoice_customer) db'
       = current_balance (Invoice.company self_object) customer
           (Customer.id invoice_customer) db
         + (Invoice.total_amount self_object - LedgerEntry.debit entry).
Proof.
  intros Hst Hex Hnd Hkeys Hrec.
  destruct (existing_entry_Some self_object invoice_customer db entry Hex)
    as [Hin [Hparty _]].
  set (company := Invoice.company self_object) in *.
  set (pid := Customer.id invoice_customer) in *.
  set (total := Invoice.total_amount self_object) in *.
  assert (Hrun0 :
    InvoiceViews.update_sent_entry old_status self_object invoice_customer
      now1 db
    = (if negb (LedgerEntry.debit entry =? total)
       then (LedgerEntry_save (LedgerEntry_set_debit entry total) ;;;
             InvoiceViews.recalculate self_object invoice_customer)%txn
       else ret tt) db).
  { unfold InvoiceViews.update_sent_entry. rewrite Hst.
    cbn [InvoiceStatus_eqb]. rewrite andb_false_r.
    unfold bind at 1, get_db at 1. rewrite Hex. reflexivity. }
  rewrite Hrun0. clear Hrun0.
  destruct (Z.eqb_spec (LedgerEntry.debit entry) total) as [Heq|Hne];
    cbn [negb].
  - exists db. split; [reflexivity|]. split; [reflexivity|].
    split; [exists entry; auto|]. split; [exact Hrec | lia].
  - set (upd := with_debit (LedgerEntry.id entry) total).
    set (d1 := set_ledger db (map upd (ledger_entries db)) (ledger_seq db)).
    assert (Hsave :
      LedgerEntry_save (LedgerEntry_set_debit entry total) db = (inr tt, d1)).
    { unfold LedgerEntry_save, d1. f_equal. f_equal.
      apply map_ext_in. intros r Hr. unfold upd, with_debit. simpl.
      destruct (Nat.eqb_spec (LedgerEntry.id r) (LedgerEntry.id entry))
        as [E|E]; [|reflexivity].
      assert (r = entry)
        by (apply (NoDup_map_In_inj LedgerEntry.id (ledger_entries db));
            auto).
      now subst r. }
    assert (Hnd1 : unique_ledger_pks d1).
    { unfold unique_ledger_pks, d1. simpl. rewrite map_map.
      erewrite map_ext; [exact Hnd|]. intros r. apply with_debit_id. }
    assert (Hpe1 : party_entries company customer pid d1
                   = map upd (party_entries company customer pid db)).
    { unfold party_entries, d1. simpl.
      rewrite filter_map_commute by (intros a; apply with_debit_party).
      rewrite order_by_map by (intros a b; apply with_debit_key_leb).
      reflexivity. }
    assert (Hkeys1 : distinct_keys company customer pid d1).
    { unfold distinct_keys. rewrite Hpe1. intros a' b' Ha' Hb' Hd Hc.
      apply in_map_iff in Ha'. destruct Ha' as [a [<- Ha]].
      apply in_map_iff in Hb'. destruct Hb' as [b [<- Hb]].
      f_equal. apply Hkeys; auto.
      - revert Hd. unfold upd, with_debit.
        destruct (Nat.eqb (LedgerEntry.id a) _),
                 (Nat.eqb (LedgerEntry.id b) _); simpl; auto.
      - revert Hc. unfold upd, with_debit.
        destruct (Nat.eqb (LedgerEntry.id a) _),
                 (Nat.eqb (LedgerEntry.id b) _); simpl; auto. }
    pose proof (recalculate_party_balance_spec company customer pid Hnd1)
      as Hspec.
    pose proof (recalculation_restores_recurrence company customer pid Hnd1)
      as Hrec2.
    pose proof (current_balance_after_recalculation company customer pid d1
                  Hnd1 Hkeys1) as Hbal2.
    set (wb := with_balance (party_entries company customer pid d1) 0) in *.
    set (d2 := set_ledger d1 (map wb (ledger_entries d1)) (ledger_seq d1))
      in *.
    assert (Hsnd : snd (LedgerService.recalculate_party_balance company
                          customer pid d1) = d2)
      by (rewrite Hspec; reflexivity).
    rewrite Hsnd in Hrec2, Hbal2.
    exists d2. split; [|split; [|split; [|split]]].
    + unfold bind at 1. rewrite Hsave.
      unfold InvoiceViews.recalculate, bind. fold company. fold pid.
      rewrite Hspec. reflexivity.
    + simpl. rewrite !map_map. apply map_ext. intros r.
      unfold wb. rewrite with_balance_id. apply with_debit_id.
    + exists (wb (upd entry)). split; [|split].
      * simpl. apply in_map, in_map. exact Hin.
      * unfold wb. rewrite with_balance_id. apply with_debit_id.
      * unfold wb, with_balance, upd, with_debit. rewrite Nat.eqb_refl.
        destruct (balance_of _ 0 _); reflexivity.
    + exact Hrec2.
    + rewrite Hbal2, Hpe1.
      rewrite (current_balance_of_balanced company customer pid db Hkeys
                 Hrec).
      unfold upd. apply net_movement_with_debit.
      * now apply party_entries_unique.
      * exact Hparty.
Qed.

(** X29. [InvoiceUpdateView.form_valid], case 2: an invoice that has a
    ledger entry is saved as sent, in a ledger with distinct primary keys,
    distinct (transaction_date, created_at) keys for the customer and the
    customer's balances in order. The view returns without raising and
    keeps every ledger row; the invoice's entry now carries the invoice total
    as its debit, the customer's entries again satisfy the balance
    recurrence, and [get_customer_outstanding] has moved by the new total
    minus the entry's old debit (by nothing when the total is unchanged). *)
Theorem editing_sent_invoice_updates_entry
    (old_status : InvoiceStatus) (self_object : Invoice.t)
    (invoice_customer : Customer.t) (now1 now2 : DateTime) (db : DB)
    (entry : LedgerEntry.t) :
  Invoice.status self_object = sent ->
  InvoiceViews.existing_entry self_object invoice_customer db = Some entry ->
  unique_ledger_pks db ->
  distinct_keys (Invoice.company self_object) customer
    (Customer.id invoice_customer) db ->
  balance_recurrence (Invoice.company self_object) customer
    (Customer.id invoice_customer) db ->
  exists db',
    InvoiceViews.update_form_valid old_status self_object invoice_customer
      now1 now2 db = (inr tt, db')
    /\ map LedgerEntry.id (ledger_entries db')
       = map LedgerEntry.id (ledger_entries db)
    /\ (exists e', In e' (ledger_entries db')
                   /\ LedgerEntry.id e' = LedgerEntry.id entry
                   /\ LedgerEntry.debit e' = Invoice.total_amount self_object)
    /\ balance_recurrence (Invoice.company self_object) customer
         (Customer.id invoice_customer) db'
    /\ LedgerService.get_customer_outstanding (Invoice.company self_object)
         (Customer.id invoice_customer) db'
       = LedgerService.get_customer_outstanding
           (Invoice.company self_object) (Customer.id invoice_customer) db
         + (Invoice.total_amount self_object - LedgerEntry.debit entry).
Proof.
  intros Hst Hex Hnd Hkeys Hrec.
  set (d0 := set_invoices db
               (map (fun i => if Nat.eqb (Invoice.id i)
                                   (Invoice.id self_object)
                              then self_object else i)
                    (invoices db))).
  destruct (edit_sent_entry old_status self_object invoice_customer now1 d0
              entry Hst Hex Hnd Hkeys Hrec)
    as [db' [Hrun [Hids [He' [Hrec' Hbal]]]]].
  exists db'. split; [|split; [|split; [|split]]].
  - unfold InvoiceViews.update_form_valid. apply atomic_inr.
    unfold bind at 1. unfold Invoice_save at 1. cbv beta iota. fold d0.
    unfold bind. rewrite Hrun.
    unfold InvoiceViews.update_paid_entries. rewrite Hst. reflexivity.
  - exact Hids.
  - exact He'.
  - exact Hrec'.
  - rewrite !get_customer_outstanding_current. exact Hbal.
Qed.

(** Invoice A is edited from 100.00 to 120.00 while sent. *)
Lemma editing_sent_invoice_updates_entry_witness :
  exists db',
    InvoiceViews.update_form_valid sent
      (Invoice.mk 1 1 "INV-A" 5 19720 sent 12000 false) acme 5000 5001
      two_invoice_entries = (inr tt, db')
    /\ map LedgerEntry.id (ledger_entries db')
       = map LedgerEntry.id (ledger_entries two_invoice_entries)
    /\ (exists e', In e' (ledger_entries db')
                   /\ LedgerEntry.id e' = 1%nat
                   /\ LedgerEntry.debit e' = 12000)
    /\ balance_recurrence 1 customer 5 db'
    /\ LedgerService.get_customer_outstanding 1 5 db'
       = LedgerService.get_customer_outstanding 1 5 two_invoice_entries
         + (12000 - 10000).
Proof.
  apply (editing_sent_invoice_updates_entry sent
           (Invoice.mk 1 1 "INV-A" 5 19720 sent 12000 false) acme 5000 5001
           two_invoice_entries
           (LedgerEntry.mk 1 1 customer 5 invoice 10000 0 10000
              (Some InvoiceModel) (Some 1%nat) "Invoice INV-A" 19720 1000)).
  - reflexivity.
  - reflexivity.
  - exact two_invoice_entries_unique_pks.
  - exact two_invoice_entries_distinct_keys.
  - exact two_invoice_entries_balanced.
Defined.
